(** * Schema-driven content sanitizer: [contentManagementUtilRemoveFieldsFromData]

    A shallow embedding of the helper-plugin function that strips
    server-managed fields from a content entry before it is submitted,
    walking components and dynamic zones with the schema of each nested
    value.

    The embedding follows the TypeScript source line by line.  JavaScript
    values are a tree type; property access, truthiness, [Array.isArray],
    [Object.keys], [Object.assign], [delete] and lodash's [get] are written
    out as functions on it.  Numbers are the integer-valued ones.  Objects
    are association lists read in the order [Object.keys] enumerates them;
    a JavaScript object binds each key once, which the predicate [wf]
    records where a statement needs it.  Properties inherited from the
    built-in prototypes are read as [undefined]: none of the names the
    function reads ([attributes], [options], [type], [component],
    [repeatable], [timestamps], [__component]) is one of them.

    The function is embedded twice.  The tree model is a total function on
    trees; the statements about the output are about it.  The store model
    holds objects by reference and performs the allocations and writes of
    the source; the statement that the arguments are left as they were is
    about it.  A later section shows that the store model computes what
    the tree model does; the last part collects further properties of
    both: the fields and their order, what makes a call throw, how two
    passes compose, and what the output shares with the input. *)

From Stdlib Require Import List String Ascii ZArith Bool Lia Arith.
From Stdlib Require Import DecimalString DecimalNat.
Import ListNotations.
Local Open Scope string_scope.
Local Open Scope list_scope.

(** ** Results of fallible evaluation *)

Inductive error : Type :=
| TypeError      (* thrown by the engine: property read on null or undefined,
                    Object.keys of null or undefined, key conversion *)
| Unsupported    (* the walk would enter a character of a string primitive *)
| RangeError.    (* the call stack is exhausted (store model only) *)

Inductive result (A : Type) : Type :=
| Ok (a : A)
| Throw (e : error).
Arguments Ok {A} a.
Arguments Throw {A} e.

Definition bind {A B} (c : result A) (k : A -> result B) : result B :=
  match c with
  | Ok a => k a
  | Throw e => Throw e
  end.

Notation "x <- c ;; k" := (bind c (fun x => k))
  (at level 61, c at next level, right associativity).

Section MapM.
Context {A B : Type}.
Variable f : A -> result B.

(** [Array.prototype.map] with a callback that may throw: entries are
    visited from the left and the first exception ends the call. *)
Fixpoint mapM (l : list A) : result (list B) :=
  match l with
  | [] => Ok []
  | x :: rest => y <- f x ;; ys <- mapM rest ;; Ok (y :: ys)
  end.
End MapM.

Section Join.
Context {A : Type}.
Variable f : A -> result string.

(** [Array.prototype.join] with a comma, each entry rendered by [f]. *)
Fixpoint joinWith (l : list A) : result string :=
  match l with
  | [] => Ok ""
  | e :: rest =>
      s <- f e ;;
      match rest with
      | [] => Ok s
      | _ => r <- joinWith rest ;; Ok (s ++ "," ++ r)%string
      end
  end.
End Join.

(** ** JavaScript values *)

Module JS.

Unset Elimination Schemes.
Inductive value : Type :=
| VUndef
| VNull
| VBool (b : bool)
| VNum (n : Z)
| VStr (s : string)
| VArr (elems : list value)
| VObj (props : list (string * value)).
Set Elimination Schemes.

Definition entries := list (string * value).

Section ValueInd.
Variable P : value -> Prop.
Hypothesis Hundef : P VUndef.
Hypothesis Hnull : P VNull.
Hypothesis Hbool : forall b, P (VBool b).
Hypothesis Hnum : forall n, P (VNum n).
Hypothesis Hstr : forall s, P (VStr s).
Hypothesis Harr : forall elems, Forall P elems -> P (VArr elems).
Hypothesis Hobj : forall props, Forall (fun kv => P (snd kv)) props -> P (VObj props).

Fixpoint value_ind (v : value) : P v :=
  match v with
  | VUndef => Hundef
  | VNull => Hnull
  | VBool b => Hbool b
  | VNum n => Hnum n
  | VStr s => Hstr s
  | VArr elems =>
      Harr elems
        ((fix all (l : list value) : Forall P l :=
            match l with
            | [] => Forall_nil P
            | x :: rest => Forall_cons x (value_ind x) (all rest)
            end) elems)
  | VObj props =>
      Hobj props
        ((fix all (l : entries) : Forall (fun kv => P (snd kv)) l :=
            match l with
            | [] => Forall_nil _
            | kv :: rest => Forall_cons kv (value_ind (snd kv)) (all rest)
            end) props)
  end.
End ValueInd.

(** [!value] is [negb (truthy value)]. *)
Definition truthy (v : value) : bool :=
  match v with
  | VUndef | VNull => false
  | VBool b => b
  | VNum n => negb (n =? 0)%Z
  | VStr s => negb (s =? "")
  | VArr _ | VObj _ => true
  end.

Definition isArray (v : value) : bool :=
  match v with
  | VArr _ => true
  | _ => false
  end.

(** [v === s] for a string [s]: strict equality never converts. *)
Definition strictEqStr (s : string) (v : value) : bool :=
  match v with
  | VStr t => t =? s
  | _ => false
  end.

Definition string_of_nat (i : nat) : string :=
  NilZero.string_of_uint (Nat.to_uint i).

Definition string_of_Z (n : Z) : string :=
  NilZero.string_of_int (Z.to_int n).

(** *** Own properties *)

Section Props.
Context {A : Type}.

Fixpoint assoc (k : string) (props : list (string * A)) : option A :=
  match props with
  | [] => None
  | (k', v) :: rest => if k' =? k then Some v else assoc k rest
  end.

(** [delete o[k]] *)
Fixpoint delete (props : list (string * A)) (k : string) : list (string * A) :=
  match props with
  | [] => []
  | (k', v) :: rest => if k' =? k then delete rest k else (k', v) :: delete rest k
  end.

(** [o[k] = x]: an existing binding is overwritten in place, a new one is
    added after the others. *)
Fixpoint set (props : list (string * A)) (k : string) (x : A) : list (string * A) :=
  match props with
  | [] => [(k, x)]
  | (k', v) :: rest => if k' =? k then (k', x) :: rest else (k', v) :: set rest k x
  end.

(** The index-named properties of an array, numbered from [i]. *)
Fixpoint indexed (i : nat) (elems : list A) : list (string * A) :=
  match elems with
  | [] => []
  | v :: rest => (string_of_nat i, v) :: indexed (S i) rest
  end.

Definition keys (props : list (string * A)) : list string := map fst props.

(** The array index a key denotes: the one whose canonical decimal
    rendering is the key. *)
Definition indexOfKey (k : string) (len : nat) : option nat :=
  find (fun i => string_of_nat i =? k) (seq 0 len).

End Props.

Fixpoint chars (s : string) : list value :=
  match s with
  | EmptyString => []
  | String c rest => VStr (String c EmptyString) :: chars rest
  end.

(** The own enumerable string-keyed properties, as [Object.keys] lists them
    and [Object.assign({}, v)] copies them. *)
Definition ownEntries (v : value) : entries :=
  match v with
  | VObj props => props
  | VArr elems => indexed 0 elems
  | VStr s => indexed 0 (chars s)
  | _ => []
  end.

Definition elemAt (k : string) (elems : list value) : value :=
  if k =? "length" then VNum (Z.of_nat (List.length elems))
  else match indexOfKey k (List.length elems) with
       | Some i => nth i elems VUndef
       | None => VUndef
       end.

(** [v[k]] for a [v] that is neither null nor undefined. *)
Definition prop (v : value) (k : string) : value :=
  match v with
  | VObj props => match assoc k props with Some x => x | None => VUndef end
  | VArr elems => elemAt k elems
  | VStr s => elemAt k (chars s)
  | _ => VUndef
  end.

(** [v[k]] (or [v.k]): reading a property of null or undefined throws. *)
Definition member (v : value) (k : string) : result value :=
  match v with
  | VUndef | VNull => Throw TypeError
  | _ => Ok (prop v k)
  end.

(** [ToString], which turns the operand of a computed member access into a
    property key.  An array joins its entries with commas, null and
    undefined entries as the empty string; a plain object reads
    "[object Object]" unless an own [toString] property, which no value of
    this model can call, hides the inherited method. *)
Fixpoint toString (v : value) : result string :=
  match v with
  | VUndef => Ok "undefined"
  | VNull => Ok "null"
  | VBool true => Ok "true"
  | VBool false => Ok "false"
  | VNum n => Ok (string_of_Z n)
  | VStr s => Ok s
  | VArr elems =>
      joinWith (fun e => match e with
                         | VUndef | VNull => Ok ""
                         | _ => toString e
                         end) elems
  | VObj props =>
      match assoc "toString" props with
      | Some _ => Throw TypeError
      | None => Ok "[object Object]"
      end
  end.

(** [table[key]] with a computed key. *)
Definition index (table key : value) : result value :=
  k <- toString key ;; member table k.

(** *** Well-formed values: every object binds a key once *)

Fixpoint wf (v : value) : Prop :=
  match v with
  | VArr elems =>
      (fix all (l : list value) : Prop :=
         match l with
         | [] => True
         | x :: rest => wf x /\ all rest
         end) elems
  | VObj props =>
      NoDup (keys props) /\
      (fix all (l : entries) : Prop :=
         match l with
         | [] => True
         | kv :: rest => wf (snd kv) /\ all rest
         end) props
  | _ => True
  end.

(** The nesting depth of a tree. *)
Fixpoint height (v : value) : nat :=
  match v with
  | VArr elems =>
      S ((fix all (l : list value) : nat :=
            match l with
            | [] => 0
            | x :: rest => Nat.max (height x) (all rest)
            end) elems)
  | VObj props =>
      S ((fix all (l : entries) : nat :=
            match l with
            | [] => 0
            | kv :: rest => Nat.max (height (snd kv)) (all rest)
            end) props)
  | _ => 0
  end.

End JS.
Import JS.

(** ** lodash [get] *)

Module Lodash.

(** [baseGet] on a path of at least one key: the walk stops with
    [undefined] at a null or undefined intermediate value. *)
Fixpoint baseGet (object : value) (path : list string) : value :=
  match path with
  | [] => object
  | k :: rest =>
      match object with
      | VUndef | VNull => VUndef
      | _ => baseGet (prop object k) rest
      end
  end.

(** [get(object, path, defaultValue)]; the default replaces an
    [undefined] result only. *)
Definition get (object : value) (path : list string) (defaultValue : value) : value :=
  match baseGet object path with
  | VUndef => defaultValue
  | r => r
  end.

End Lodash.
Import Lodash.

(** ** Attribute information *)

(** Modelled from the spec: [getType] of ./getAttributeInfos, which is not
    among the sources.  It reads the [attributeKind] that the schema
    declares for a field, under [attributes.<field>.type], and answers the
    empty string where the schema declares none. *)
Definition getType (schema : value) (attrName : string) : value :=
  get schema ["attributes"; attrName; "type"] (VStr "").

(** Modelled from the spec: [getOtherInfos] of ./getAttributeInfos, which is
    not among the sources.  It reads another declaration of a field (its
    [componentIdentifier] under [component], its [repeatable] flag) under
    [attributes.<field>.<name>], with the empty string as the default. *)
Definition getOtherInfos (schema : value) (arr : list string) : value :=
  get schema ("attributes" :: arr) (VStr "").

(** ** The sanitizer *)

Definition defaultFields : list string :=
  ["createdBy"; "updatedBy"; "publishedAt"; "id"; "_id"].

Section Reduce.
Context {A : Type}.
Variable f : A -> string -> value -> result A.

(** [Object.keys(data).reduce(f, acc)], each key taken with the value
    [get(data, current)] that [data] binds to it. *)
Fixpoint reduce (data : entries) (acc : A) : result A :=
  match data with
  | [] => Ok acc
  | (current, value) :: rest => acc' <- f acc current value ;; reduce rest acc'
  end.

(** The same walk over the index keys of an array. *)
Fixpoint reduceIndexed (i : nat) (elems : list value) (acc : A) : result A :=
  match elems with
  | [] => Ok acc
  | value :: rest =>
      acc' <- f acc (string_of_nat i) value ;; reduceIndexed (S i) rest acc'
  end.
End Reduce.

Section Redact.
(** The variables that [recursiveCleanData] closes over. *)
Variable componentSchema : value.
Variable fields : list string.

(** Lines 26-32: [[...fields, ...timestamps].indexOf(current) !== -1]. *)
Definition excluded (schema : value) (current : string) : bool :=
  let timestamps := get schema ["options"; "timestamps"] VUndef in
  let timestamps := match timestamps with VArr ts => ts | _ => [] end in
  existsb (strictEqStr current) (map VStr fields ++ timestamps).

Section Callback.
(** The recursive call, and the schema of the level being walked. *)
Variable rec : value -> value -> result value.
Variable schema : value.

(** The reducer of lines 21-70. *)
Definition callback (acc : entries) (current : string) (value : value)
  : result entries :=
  let attrType := getType schema current in
  let component := getOtherInfos schema [current; "component"] in
  let isRepeatable := getOtherInfos schema [current; "repeatable"] in
  if excluded schema current then Ok (delete acc current)
  else if negb (truthy value) then Ok acc
  else
    match strictEqStr "dynamiczone" attrType, value with
    | true, VArr elems =>
        cleaned <- mapM (fun componentValue =>
                           discriminator <- member componentValue "__component" ;;
                           s <- index componentSchema discriminator ;;
                           rec componentValue s) elems ;;
        Ok (set acc current (VArr cleaned))
    | _, _ =>
        if strictEqStr "component" attrType then
          match truthy isRepeatable, value with
          | true, VArr elems =>
              cleaned <- mapM (fun compoData =>
                                 s <- index componentSchema component ;;
                                 rec compoData s) elems ;;
              Ok (set acc current (VArr cleaned))
          | _, _ =>
              s <- index componentSchema component ;;
              cleaned <- rec value s ;;
              Ok (set acc current cleaned)
          end
        else Ok acc
    end.
End Callback.

(** Lines 17-71.  The accumulator starts as [Object.assign({}, data)].
    A string primitive is walked by its characters, but the walk does not
    enter one of them: [TDatum extends object] rules primitives out, and
    on a character the recursion need not end. *)
Fixpoint recursiveCleanData (data schema : value) {struct data} : result value :=
  match data with
  | VUndef | VNull => Throw TypeError
  | VBool _ | VNum _ => Ok (VObj [])
  | VStr s =>
      acc <- reduce (callback (fun _ _ => Throw Unsupported) schema)
               (indexed 0 (chars s)) (indexed 0 (chars s)) ;;
      Ok (VObj acc)
  | VArr elems =>
      acc <- reduceIndexed (callback recursiveCleanData schema) 0 elems
               (indexed 0 elems) ;;
      Ok (VObj acc)
  | VObj props =>
      acc <- reduce (callback recursiveCleanData schema) props props ;;
      Ok (VObj acc)
  end.
End Redact.

Definition contentManagementUtilRemoveFieldsFromData
  (data contentTypeSchema componentSchema : value) (fields : list string)
  : result value :=
  recursiveCleanData componentSchema fields data contentTypeSchema.

(** The call with the [fields] argument left out. *)
Definition contentManagementUtilRemoveFieldsFromData_default
  (data contentTypeSchema componentSchema : value) : result value :=
  contentManagementUtilRemoveFieldsFromData data contentTypeSchema componentSchema
    defaultFields.

(** The recursive call as the walk of [data] makes it: none on the
    characters of a string primitive. *)
Definition inner (componentSchema : value) (fields : list string) (data : value)
  : value -> value -> result value :=
  match data with
  | VStr _ => fun _ _ => Throw Unsupported
  | _ => recursiveCleanData componentSchema fields
  end.

(** What the reducer leaves of one field: no binding, or one. *)
Definition cleanField (componentSchema : value) (fields : list string)
  (rec : value -> value -> result value) (schema : value) (kv : string * value)
  : result entries :=
  callback componentSchema fields rec schema [kv] (fst kv) (snd kv).

(** The schema under which an entry of the sequence bound to [current] is
    walked: the one that its own discriminator selects in a dynamic zone
    (line 46), the one of the declared component otherwise (line 58). *)
Definition entrySchema (componentSchema schema : value) (current : string)
  (entry : value) : result value :=
  if strictEqStr "dynamiczone" (getType schema current) then
    discriminator <- member entry "__component" ;;
    index componentSchema discriminator
  else index componentSchema (getOtherInfos schema [current; "component"]).

(** ** Sample schemas and entries *)

Module Sample.

Definition attr (kind : string) : value := VObj [("type", VStr kind)].

Definition component (uid : string) (repeatable : bool) : value :=
  VObj [("type", VStr "component"); ("component", VStr uid);
        ("repeatable", VBool repeatable)].

(** An article with a title, a view counter, one [seo] component, a
    repeatable [images] component and a [sections] dynamic zone; its
    schema names two more timestamps. *)
Definition articleSchema : value :=
  VObj [("attributes",
         VObj [("title", attr "string");
               ("views", attr "integer");
               ("seo", component "shared.seo" false);
               ("images", component "shared.image" true);
               ("sections", attr "dynamiczone")]);
        ("options",
         VObj [("timestamps", VArr [VStr "publishedAt"; VStr "customDate"])])].

Definition componentTable : entries :=
  [("shared.image", VObj [("attributes", VObj [("url", attr "string")])]);
   ("hero", VObj [("attributes", VObj [("heading", attr "string")]);
                  ("options", VObj [("timestamps", VArr [VStr "shownAt"])])]);
   ("quote", VObj [("attributes", VObj [("body", attr "text")])])].

Definition components : value := VObj componentTable.

Definition images : list value :=
  [VObj [("id", VNum 1); ("url", VStr "a.png")];
   VObj [("id", VNum 2); ("url", VStr "b.png")]].

Definition article : value :=
  VObj [("id", VNum 1);
        ("title", VStr "Hi");
        ("views", VNum 0);
        ("customDate", VStr "2024-01-01");
        ("createdBy", VObj [("id", VNum 9)]);
        ("seo", VObj [("id", VNum 4); ("slug", VStr "hi")]);
        ("images", VArr images);
        ("sections",
         VArr [VObj [("__component", VStr "hero"); ("id", VNum 7);
                     ("heading", VStr "Top"); ("shownAt", VNum 3)];
               VObj [("__component", VStr "quote"); ("id", VNum 8);
                     ("body", VStr "So it goes"); ("shownAt", VNum 5)]])].

(** What the call answers on [article]: [shared.seo] has no entry in
    [components]. *)
Definition articleCleaned : value :=
  VObj [("title", VStr "Hi");
        ("views", VNum 0);
        ("seo", VObj [("slug", VStr "hi")]);
        ("images",
         VArr [VObj [("url", VStr "a.png")]; VObj [("url", VStr "b.png")]]);
        ("sections",
         VArr [VObj [("__component", VStr "hero"); ("heading", VStr "Top")];
               VObj [("__component", VStr "quote");
                     ("body", VStr "So it goes"); ("shownAt", VNum 5)]])].

End Sample.

(** A page whose dynamic zone holds an entry of a component that the
    table does not know and an entry that names no component. *)
Module SamplePage.

Definition pageSchema : value :=
  VObj [("attributes", VObj [("sections", Sample.attr "dynamiczone")])].

Definition page : value :=
  VObj [("sections",
         VArr [VObj [("__component", VStr "banner"); ("id", VNum 1);
                     ("text", VStr "x")];
               VObj [("id", VNum 2); ("text", VStr "y")]])].

Definition pageCleaned : value :=
  VObj [("sections",
         VArr [VObj [("__component", VStr "banner"); ("text", VStr "x")];
               VObj [("text", VStr "y")]])].

End SamplePage.

(** ** Levels of a call *)

(** A record that the walk enters, the schema it is walked under, and the
    value that stands at its place in the output. *)
Record level : Type := Level { record : value; levelSchema : value; output : value }.

(** [child parent sub]: the walk of [parent] enters [sub], an entry of a
    dynamic zone (line 44), an entry of a repeatable component (line 58)
    or a single component (line 63). *)
Inductive child (componentSchema : value) (fields : list string)
  : level -> level -> Prop :=
| child_dynamiczone d s o k elems cleaned i d' o' discriminator s' :
    In (k, VArr elems) (ownEntries d) ->
    excluded fields s k = false ->
    getType s k = VStr "dynamiczone" ->
    assoc k (ownEntries o) = Some (VArr cleaned) ->
    nth_error elems i = Some d' ->
    nth_error cleaned i = Some o' ->
    member d' "__component" = Ok discriminator ->
    index componentSchema discriminator = Ok s' ->
    child componentSchema fields (Level d s o) (Level d' s' o')
| child_repeatable d s o k elems cleaned i d' o' s' :
    In (k, VArr elems) (ownEntries d) ->
    excluded fields s k = false ->
    getType s k = VStr "component" ->
    truthy (getOtherInfos s [k; "repeatable"]) = true ->
    assoc k (ownEntries o) = Some (VArr cleaned) ->
    nth_error elems i = Some d' ->
    nth_error cleaned i = Some o' ->
    index componentSchema (getOtherInfos s [k; "component"]) = Ok s' ->
    child componentSchema fields (Level d s o) (Level d' s' o')
| child_single d s o k d' o' s' :
    In (k, d') (ownEntries d) ->
    excluded fields s k = false ->
    truthy d' = true ->
    getType s k = VStr "component" ->
    truthy (getOtherInfos s [k; "repeatable"]) = false \/ isArray d' = false ->
    assoc k (ownEntries o) = Some o' ->
    index componentSchema (getOtherInfos s [k; "component"]) = Ok s' ->
    child componentSchema fields (Level d s o) (Level d' s' o').

(** The levels visited by the call whose own level is [top]. *)
Inductive visited (componentSchema : value) (fields : list string) (top : level)
  : level -> Prop :=
| visited_top : visited componentSchema fields top top
| visited_child lv lv' :
    visited componentSchema fields top lv ->
    child componentSchema fields lv lv' ->
    visited componentSchema fields top lv'.

(** A component schema under which the discriminator of a dynamic-zone
    entry passes through: it neither excludes [__component] nor declares
    it as something to walk into. *)
Definition discriminator_kept (fields : list string) (schema : value) : Prop :=
  excluded fields schema "__component" = false /\
  getType schema "__component" <> VStr "component" /\
  getType schema "__component" <> VStr "dynamiczone".

Definition discriminator_keptb (fields : list string) (schema : value) : bool :=
  negb (excluded fields schema "__component") &&
  negb (strictEqStr "component" (getType schema "__component")) &&
  negb (strictEqStr "dynamiczone" (getType schema "__component")).

(** A dynamic zone whose component excludes its own discriminator, in a
    table that also holds a component named "undefined". *)
Module SampleZone.

Definition zoneSchema : value :=
  VObj [("attributes", VObj [("sections", Sample.attr "dynamiczone")])].

Definition zoneComponents : value :=
  VObj [("hero", VObj [("options",
                        VObj [("timestamps", VArr [VStr "__component"])])]);
        ("undefined", VObj [("options",
                             VObj [("timestamps", VArr [VStr "title"])])])].

Definition zone : value :=
  VObj [("sections",
         VArr [VObj [("__component", VStr "hero"); ("title", VStr "Hi")]])].

Definition zoneOnce : value :=
  VObj [("sections", VArr [VObj [("title", VStr "Hi")]])].

Definition zoneTwice : value :=
  VObj [("sections", VArr [VObj []])].

End SampleZone.

(** What a second pass needs of a recursive call [rec] of the first: its
    result is a record on which the second pass changes nothing, and, for
    an entry of a sequence, a record with the discriminator of the entry. *)
Definition stable (componentSchema : value) (fields : list string)
  (rec : value -> value -> result value) (v : value) : Prop :=
  forall s c,
    rec v s = Ok c ->
    recursiveCleanData componentSchema fields c s = Ok c /\
    exists props, c = VObj props.

Definition stable_entry (componentSchema : value) (fields : list string)
  (rec : value -> value -> result value) (e : value) : Prop :=
  forall s c,
    rec e s = Ok c ->
    (recursiveCleanData componentSchema fields c s = Ok c /\
     exists props, c = VObj props) /\
    (discriminator_kept fields s -> prop c "__component" = prop e "__component").

(** What a pass with the names [f2] after a pass with the names [f1]
    needs of a recursive call [rec1] of the first pass, against the
    recursive call [rec12] of the one pass with both lists: on the result
    of [rec1] the second pass answers what [rec12] answers on the value
    itself; and an entry of a sequence keeps its discriminator. *)
Definition composes (componentSchema : value) (f2 : list string)
  (rec1 rec12 : value -> value -> result value) (v : value) : Prop :=
  forall s c,
    rec1 v s = Ok c ->
    recursiveCleanData componentSchema f2 c s = rec12 v s /\
    exists props, c = VObj props.

Definition composes_entry (componentSchema : value) (f1 f2 : list string)
  (rec1 rec12 : value -> value -> result value) (e : value) : Prop :=
  forall s c,
    rec1 e s = Ok c ->
    (recursiveCleanData componentSchema f2 c s = rec12 e s /\
     exists props, c = VObj props) /\
    (discriminator_kept f1 s -> prop c "__component" = prop e "__component").

(** ** The sanitizer on a store of mutable objects

    The same function, with objects and arrays held by reference in a
    store, so that [Object.assign], [delete], the assignment [acc[current]
    = ...] and [Array.prototype.map] are the allocations and writes they
    are in the engine.  The recursion is bounded by a call-stack depth;
    the store is returned whatever the outcome. *)

Module Store.

Definition loc := nat.

(** A value as the engine passes it around: a primitive, or the address
    of an object. *)
Inductive ref : Type :=
| RUndef
| RNull
| RBool (b : bool)
| RNum (n : Z)
| RStr (s : string)
| RLoc (l : loc).

Inductive cell : Type :=
| CObj (props : list (string * ref))
| CArr (elems : list ref).

Definition store := list cell.

(** A fresh object takes the next address. *)
Definition alloc (c : cell) (st : store) : loc * store :=
  (List.length st, st ++ [c]).

Fixpoint write (l : loc) (c : cell) (st : store) : store :=
  match st, l with
  | [], _ => []
  | _ :: rest, O => c :: rest
  | x :: rest, S l' => x :: write l' c rest
  end.

(** *** Computations on the store *)

Definition M (A : Type) : Type := store -> result A * store.

Definition ret {A} (a : A) : M A := fun st => (Ok a, st).

Definition throw {A} (e : error) : M A := fun st => (Throw e, st).

Definition bindM {A B} (m : M A) (k : A -> M B) : M B :=
  fun st =>
    match m st with
    | (Ok a, st') => k a st'
    | (Throw e, st') => (Throw e, st')
    end.

(** A read of the store, and a read that may throw. *)
Definition read {A} (f : store -> A) : M A := fun st => (Ok (f st), st).

Definition attempt {A} (f : store -> result A) : M A := fun st => (f st, st).

Notation "x <~ c ;; k" := (bindM c (fun x => k))
  (at level 61, c at next level, right associativity).

(** *** Reading values *)

Definition truthy (v : ref) : bool :=
  match v with
  | RUndef | RNull => false
  | RBool b => b
  | RNum n => negb (n =? 0)%Z
  | RStr s => negb (s =? "")
  | RLoc _ => true
  end.

Definition strictEqStr (s : string) (v : ref) : bool :=
  match v with
  | RStr t => t =? s
  | _ => false
  end.

Definition elems (st : store) (v : ref) : option (list ref) :=
  match v with
  | RLoc l => match nth_error st l with
              | Some (CArr es) => Some es
              | _ => None
              end
  | _ => None
  end.

Definition isArray (st : store) (v : ref) : bool :=
  match elems st v with
  | Some _ => true
  | None => false
  end.

Fixpoint chars (s : string) : list ref :=
  match s with
  | EmptyString => []
  | String c rest => RStr (String c EmptyString) :: chars rest
  end.

(** The own enumerable properties; an address outside the store reads as
    an object without any. *)
Definition ownEntries (st : store) (v : ref) : list (string * ref) :=
  match v with
  | RLoc l => match nth_error st l with
              | Some (CObj props) => props
              | Some (CArr es) => indexed 0 es
              | None => []
              end
  | RStr s => indexed 0 (chars s)
  | _ => []
  end.

Definition elemAt (k : string) (es : list ref) : ref :=
  if k =? "length" then RNum (Z.of_nat (List.length es))
  else match indexOfKey k (List.length es) with
       | Some i => nth i es RUndef
       | None => RUndef
       end.

Definition prop (st : store) (v : ref) (k : string) : ref :=
  match v with
  | RLoc l => match nth_error st l with
              | Some (CObj props) =>
                  match assoc k props with Some x => x | None => RUndef end
              | Some (CArr es) => elemAt k es
              | None => RUndef
              end
  | RStr s => elemAt k (chars s)
  | _ => RUndef
  end.

Definition member (v : ref) (k : string) (st : store) : result ref :=
  match v with
  | RUndef | RNull => Throw TypeError
  | _ => Ok (prop st v k)
  end.

(** [ToString]; the joins of nested arrays are bounded by [depth]. *)
Fixpoint toString (depth : nat) (v : ref) (st : store) : result string :=
  match v with
  | RUndef => Ok "undefined"
  | RNull => Ok "null"
  | RBool true => Ok "true"
  | RBool false => Ok "false"
  | RNum n => Ok (string_of_Z n)
  | RStr s => Ok s
  | RLoc l =>
      match nth_error st l with
      | Some (CArr es) =>
          match depth with
          | O => Throw RangeError
          | S depth' =>
              joinWith (fun e => match e with
                                 | RUndef | RNull => Ok ""
                                 | _ => toString depth' e st
                                 end) es
          end
      | Some (CObj props) =>
          match assoc "toString" props with
          | Some _ => Throw TypeError
          | None => Ok "[object Object]"
          end
      | None => Ok "[object Object]"
      end
  end.

Definition index (depth : nat) (table key : ref) (st : store) : result ref :=
  k <- toString depth key st ;; member table k st.

Fixpoint baseGet (st : store) (object : ref) (path : list string) : ref :=
  match path with
  | [] => object
  | k :: rest =>
      match object with
      | RUndef | RNull => RUndef
      | _ => baseGet st (prop st object k) rest
      end
  end.

Definition get (object : ref) (path : list string) (defaultValue : ref)
  (st : store) : ref :=
  match baseGet st object path with
  | RUndef => defaultValue
  | r => r
  end.

(** Modelled from the spec: [getType] and [getOtherInfos] of
    ./getAttributeInfos, as above, on the store. *)
Definition getType (schema : ref) (attrName : string) (st : store) : ref :=
  get schema ["attributes"; attrName; "type"] (RStr "") st.

Definition getOtherInfos (schema : ref) (arr : list string) (st : store) : ref :=
  get schema ("attributes" :: arr) (RStr "") st.

(** *** Writing objects *)

(** [Object.assign({}, data)] *)
Definition assign (data : ref) : M loc :=
  fun st => let (l, st') := alloc (CObj (ownEntries st data)) st in (Ok l, st').

Definition update (l : loc) (f : list (string * ref) -> list (string * ref)) : M unit :=
  fun st =>
    match nth_error st l with
    | Some (CObj props) => (Ok tt, write l (CObj (f props)) st)
    | _ => (Ok tt, st)
    end.

(** [delete acc[current]] and [acc[current] = x] *)
Definition deleteProp (acc : loc) (current : string) : M unit :=
  update acc (fun props => delete props current).

Definition setProp (acc : loc) (current : string) (x : ref) : M unit :=
  update acc (fun props => set props current x).

Definition push (a : loc) (x : ref) : M unit :=
  fun st =>
    match nth_error st a with
    | Some (CArr es) => (Ok tt, write a (CArr (es ++ [x])) st)
    | _ => (Ok tt, st)
    end.

Section Loops.

(** [keys.reduce(f, acc)] with the accumulator held by reference. *)
Fixpoint reduce (f : string -> M unit) (ks : list string) : M unit :=
  match ks with
  | [] => ret tt
  | current :: rest => _ <~ f current ;; reduce f rest
  end.

(** The loop of [Array.prototype.map]: entries [i], [i+1], ... of the
    array [value], [n] of them, each read when its turn comes and its
    image stored in the fresh array [a]. *)
Fixpoint mapLoop (f : ref -> M ref) (value : ref) (a : loc) (i n : nat) : M unit :=
  match n with
  | O => ret tt
  | S n' =>
      entry <~ read (fun st => prop st value (string_of_nat i)) ;;
      image <~ f entry ;;
      _ <~ push a image ;;
      mapLoop f value a (S i) n'
  end.

(** [value.map(f)] *)
Definition map (f : ref -> M ref) (value : ref) : M ref :=
  fun st =>
    let n := match elems st value with Some es => List.length es | None => O end in
    let (a, st') := alloc (CArr []) st in
    match mapLoop f value a 0 n st' with
    | (Ok _, st'') => (Ok (RLoc a), st'')
    | (Throw e, st'') => (Throw e, st'')
    end.
End Loops.

Section Redact.
Variable componentSchema : ref.
Variable fields : list string.
(** What is left of the call stack. *)
Variable depth : nat.

Definition excluded (schema : ref) (current : string) (st : store) : bool :=
  let timestamps := get schema ["options"; "timestamps"] RUndef st in
  let timestamps := match elems st timestamps with Some ts => ts | None => [] end in
  existsb (strictEqStr current) (List.map RStr fields ++ timestamps).

(** The reducer of lines 21-70, on the accumulator at address [acc]. *)
Definition callback (rec : ref -> ref -> M ref) (data schema : ref) (acc : loc)
  (current : string) : M unit :=
  attrType <~ read (getType schema current) ;;
  value <~ read (get data [current] RUndef) ;;
  component <~ read (getOtherInfos schema [current; "component"]) ;;
  isRepeatable <~ read (getOtherInfos schema [current; "repeatable"]) ;;
  isExcluded <~ read (excluded schema current) ;;
  valueIsArray <~ read (fun st => isArray st value) ;;
  if isExcluded then deleteProp acc current
  else if negb (truthy value) then ret tt
  else if strictEqStr "dynamiczone" attrType && valueIsArray then
    cleaned <~ map (fun componentValue =>
                      discriminator <~ attempt (member componentValue "__component") ;;
                      s <~ attempt (index depth componentSchema discriminator) ;;
                      rec componentValue s) value ;;
    setProp acc current cleaned
  else if strictEqStr "component" attrType then
    if truthy isRepeatable && valueIsArray then
      cleaned <~ map (fun compoData =>
                        s <~ attempt (index depth componentSchema component) ;;
                        rec compoData s) value ;;
      setProp acc current cleaned
    else
      s <~ attempt (index depth componentSchema component) ;;
      cleaned <~ rec value s ;;
      setProp acc current cleaned
  else ret tt.

(** One call of [recursiveCleanData], given the calls it makes. *)
Definition body (rec : ref -> ref -> M ref) (data schema : ref) : M ref :=
  match data with
  | RUndef | RNull => throw TypeError
  | _ =>
      ks <~ read (fun st => keys (ownEntries st data)) ;;
      acc <~ assign data ;;
      _ <~ reduce (callback rec data schema acc) ks ;;
      ret (RLoc acc)
  end.
End Redact.

(** Lines 17-71, with [depth] frames of call stack left. *)
Fixpoint recursiveCleanData (componentSchema : ref) (fields : list string)
  (depth : nat) (data schema : ref) {struct depth} : M ref :=
  match depth with
  | O => throw RangeError
  | S depth' =>
      body componentSchema fields depth'
        (recursiveCleanData componentSchema fields depth') data schema
  end.

(** *** Frames *)

(** [st'] extends [st] and agrees with it below address [n]. *)
Definition frame (n : nat) (st st' : store) : Prop :=
  List.length st <= List.length st' /\
  forall l, l < n -> nth_error st' l = nth_error st l.

(** A computation that writes to no object below address [n]. *)
Definition keeps {A} (n : nat) (m : M A) : Prop :=
  forall st, n <= List.length st -> frame n st (snd (m st)).

(** *** Trees in the store *)

(** Stores a tree and answers the value that stands for it. *)
Fixpoint encode (v : value) (st : store) : ref * store :=
  match v with
  | VUndef => (RUndef, st)
  | VNull => (RNull, st)
  | VBool b => (RBool b, st)
  | VNum n => (RNum n, st)
  | VStr s => (RStr s, st)
  | VArr es =>
      let (rs, st') :=
        (fix all (l : list value) (st : store) : list ref * store :=
           match l with
           | [] => ([], st)
           | x :: rest =>
               let (r, st1) := encode x st in
               let (rs, st2) := all rest st1 in
               (r :: rs, st2)
           end) es st in
      let (l, st'') := alloc (CArr rs) st' in
      (RLoc l, st'')
  | VObj props =>
      let (rs, st') :=
        (fix all (l : entries) (st : store) : list (string * ref) * store :=
           match l with
           | [] => ([], st)
           | (k, x) :: rest =>
               let (r, st1) := encode x st in
               let (rs, st2) := all rest st1 in
               ((k, r) :: rs, st2)
           end) props st in
      let (l, st'') := alloc (CObj rs) st' in
      (RLoc l, st'')
  end.

Section Traverse.
Context {A B : Type}.
Variable f : A -> option B.

Fixpoint traverse (l : list A) : option (list B) :=
  match l with
  | [] => Some []
  | x :: rest =>
      match f x, traverse rest with
      | Some y, Some ys => Some (y :: ys)
      | _, _ => None
      end
  end.
End Traverse.

(** The tree that a value stands for, when it is at most [n] references
    deep. *)
Fixpoint decode (n : nat) (st : store) (v : ref) : option value :=
  match v with
  | RUndef => Some VUndef
  | RNull => Some VNull
  | RBool b => Some (VBool b)
  | RNum z => Some (VNum z)
  | RStr s => Some (VStr s)
  | RLoc l =>
      match n with
      | O => None
      | S n' =>
          match nth_error st l with
          | Some (CArr es) =>
              option_map VArr (traverse (decode n' st) es)
          | Some (CObj props) =>
              option_map VObj
                (traverse (fun kv => option_map (pair (fst kv)) (decode n' st (snd kv)))
                   props)
          | None => None
          end
      end
  end.

(** [rep P st r t]: the value [r] stands for the tree [t] in the store
    [st], through objects whose addresses all satisfy [P]. *)
#[local] Unset Elimination Schemes.
Inductive rep (P : loc -> Prop) (st : store) : ref -> value -> Prop :=
| rep_undef : rep P st RUndef VUndef
| rep_null : rep P st RNull VNull
| rep_bool b : rep P st (RBool b) (VBool b)
| rep_num n : rep P st (RNum n) (VNum n)
| rep_str s : rep P st (RStr s) (VStr s)
| rep_arr l rs ts :
    P l -> nth_error st l = Some (CArr rs) ->
    Forall2 (rep P st) rs ts ->
    rep P st (RLoc l) (VArr ts)
| rep_obj l rprops props :
    P l -> nth_error st l = Some (CObj rprops) ->
    Forall2 (fun rp p => fst rp = fst p /\ rep P st (snd rp) (snd p)) rprops props ->
    rep P st (RLoc l) (VObj props).
#[local] Set Elimination Schemes.

(** The entries of an object or of an accumulator stand for those of a
    tree, key by key. *)
Definition rep_entries (P : loc -> Prop) (st : store)
  (rprops : list (string * ref)) (props : entries) : Prop :=
  Forall2 (fun rp p => fst rp = fst p /\ rep P st (snd rp) (snd p)) rprops props.

(** The outcome of a read that may throw, against its outcome on the
    tree. *)
Definition rep_result (P : loc -> Prop) (st : store)
  (rr : result ref) (tr : result value) : Prop :=
  match tr, rr with
  | Ok x, Ok rx => rep P st rx x
  | Throw e, Throw e' => e = e'
  | _, _ => False
  end.

(** All the objects that [st] held stay as they are in [st'], but for the
    one at address [a]. *)
Definition evolves (a : loc) (st st' : store) : Prop :=
  List.length st <= List.length st' /\
  forall l, l < List.length st -> l <> a -> nth_error st' l = nth_error st l.

(** A record, a schema and a component table put in an empty store, the
    call on them, and the trees read back afterwards: the outcome, and the
    three arguments. *)
Definition run (data schema table : value) (fields : list string)
  : result (option value) * option value * option value * option value :=
  let (data', st1) := encode data [] in
  let (schema', st2) := encode schema st1 in
  let (table', st3) := encode table st2 in
  let (r, st4) := recursiveCleanData table' fields 8 data' schema' st3 in
  (match r with
   | Ok out => Ok (decode 8 st4 out)
   | Throw e => Throw e
   end,
   decode 8 st4 data', decode 8 st4 schema', decode 8 st4 table').

End Store.

(** A note with a nested object that no schema declares, held in a store
    together with the sample schema: the note at address 1, its [meta] at
    address 0, the schema at address 10. *)
Module SampleNote.

Definition note : value :=
  VObj [("id", VNum 1); ("meta", VObj [("a", VNum 1)]); ("title", VStr "Hi")].

Definition held : Store.store :=
  snd (Store.encode Sample.articleSchema (snd (Store.encode note []))).

End SampleNote.

(** The sample article, its schema and the component table in a store:
    the article at address 8, the schema at 17, the table at 29. *)
Module SampleStore.

Definition held : Store.store :=
  snd (Store.encode Sample.components
         (snd (Store.encode Sample.articleSchema
                 (snd (Store.encode Sample.article []))))).

Definition after : Store.store :=
  snd (Store.recursiveCleanData (Store.RLoc 29) defaultFields 8
         (Store.RLoc 8) (Store.RLoc 17) held).

End SampleStore.

(** ** The store model against the tree model *)

(** The store call [f] on an entry [e] of a sequence does what the tree
    call [g] does: started in any later store [st] where [e] is
    represented below [lo], it returns a representation of the result of
    [g], through the objects below [lo] and those it allocates. *)
Definition entry_sim (lo a : nat) (st0 : Store.store)
  (f : Store.ref -> Store.M Store.ref) (g : value -> result value) (e : value)
  : Prop :=
  forall st re c,
    Store.evolves a st0 st -> a < List.length st ->
    Store.rep (fun l => l < lo) st re e ->
    g e = Ok c ->
    exists o st',
      f re st = (Ok o, st') /\
      Store.rep (fun l => l < lo \/ List.length st <= l) st' o c /\
      Store.frame (List.length st) st st'.

(** The store call [rec2] on [v] does what the tree call [rec1] does,
    under any schema not deeper than [K], for the component table [CS]
    held at [rcs]. *)
Definition simulates (CS : value) (rcs : Store.ref) (K : nat)
  (rec1 : value -> value -> result value)
  (rec2 : Store.ref -> Store.ref -> Store.M Store.ref) (v : value) : Prop :=
  forall lo st rv rs s c,
    lo <= List.length st ->
    Store.rep (fun l => l < lo) st rv v ->
    Store.rep (fun l => l < lo) st rs s ->
    Store.rep (fun l => l < lo) st rcs CS ->
    height s <= K ->
    rec1 v s = Ok c ->
    exists o st',
      rec2 rv rs st = (Ok o, st') /\
      Store.rep (fun l => l < lo \/ List.length st <= l) st' o c /\
      Store.frame (List.length st) st st'.

(** What the walk of a record needs of the calls on its fields, with
    [depth] frames of call stack left. *)
Definition field_sim (CS : value) (rcs : Store.ref) (K depth : nat)
  (rec1 : value -> value -> result value)
  (rec2 : Store.ref -> Store.ref -> Store.M Store.ref)
  (kv : string * value) : Prop :=
  height (snd kv) <= depth /\
  simulates CS rcs K rec1 rec2 (snd kv) /\
  forall elems, snd kv = VArr elems -> Forall (simulates CS rcs K rec1 rec2) elems.

(** The store model does on [v] what the tree model does, once the call
    stack is deep enough for [v] and for the keys that are looked up. *)
Definition refines (fields : list string) (CS : value) (rcs : Store.ref) (K : nat)
  (v : value) : Prop :=
  wf v ->
  forall depth,
    height v + K + 1 <= depth ->
    simulates CS rcs K (recursiveCleanData CS fields)
      (Store.recursiveCleanData rcs fields depth) v.

(** * Properties *)

(** ** The error monad *)

Lemma bind_Ok {A B} (c : result A) (k : A -> result B) (b : B) :
  bind c k = Ok b -> exists a, c = Ok a /\ k a = Ok b.
Proof. destruct c as [a|e]; simpl; [eauto | discriminate]. Qed.

Ltac inv_bind H :=
  let a := fresh "a" in
  let Ha := fresh "Ha" in
  apply bind_Ok in H; destruct H as [a [Ha H]].

Ltac inv_bind_as H a Ha :=
  apply bind_Ok in H; destruct H as [a [Ha H]].

Lemma mapM_Forall2 {A B} (f : A -> result B) (l : list A) (out : list B) :
  mapM f l = Ok out <-> Forall2 (fun x y => f x = Ok y) l out.
Proof.
  revert out; induction l as [|x l IH]; intros out; simpl.
  - split; intros H.
    + injection H as <-. constructor.
    + inversion H. reflexivity.
  - split; intros H.
    + inv_bind H. inv_bind H. injection H as <-.
      constructor; [assumption | now apply IH].
    + inversion H as [|x' y l' ys Hxy Hrest]; subst.
      rewrite Hxy; simpl. apply IH in Hrest. rewrite Hrest. reflexivity.
Qed.

(** ** Keys of arrays *)

Lemma string_of_nat_inj (i j : nat) : string_of_nat i = string_of_nat j -> i = j.
Proof.
  unfold string_of_nat; intros H.
  assert (Hi : NilZero.uint_of_string (NilZero.string_of_uint (Nat.to_uint i))
               = Some (Nat.to_uint i)).
  { apply NilZero.usu. destruct i; simpl; [discriminate|].
    intros E. apply (f_equal Nat.of_uint) in E.
    rewrite DecimalNat.Unsigned.of_to in E. discriminate. }
  assert (Hj : NilZero.uint_of_string (NilZero.string_of_uint (Nat.to_uint j))
               = Some (Nat.to_uint j)).
  { apply NilZero.usu. destruct j; simpl; [discriminate|].
    intros E. apply (f_equal Nat.of_uint) in E.
    rewrite DecimalNat.Unsigned.of_to in E. discriminate. }
  rewrite H, Hj in Hi. injection Hi as Hi.
  apply (f_equal Nat.of_uint) in Hi.
  now rewrite !DecimalNat.Unsigned.of_to in Hi.
Qed.

Lemma keys_indexed_lt (i : nat) (l : list value) (k : string) :
  In k (keys (indexed i l)) -> exists j, i <= j /\ k = string_of_nat j.
Proof.
  revert i; induction l as [|v l IH]; intros i; simpl; [tauto|].
  intros [<- | H]; [exists i; split; [lia | reflexivity]|].
  destruct (IH _ H) as [j [Hj ->]]. exists j; split; [lia | reflexivity].
Qed.

Lemma NoDup_keys_indexed (i : nat) (l : list value) : NoDup (keys (indexed i l)).
Proof.
  revert i; induction l as [|v l IH]; intros i; simpl; constructor; [|apply IH].
  intros H. apply keys_indexed_lt in H. destruct H as [j [Hj E]].
  apply string_of_nat_inj in E. lia.
Qed.

Lemma NoDup_keys_ownEntries (v : value) : wf v -> NoDup (keys (ownEntries v)).
Proof.
  destruct v; simpl; intros H; try constructor; try apply NoDup_keys_indexed.
  apply H.
Qed.

Lemma wf_VArr (l : list value) : wf (VArr l) <-> Forall wf l.
Proof.
  simpl. induction l as [|x l IH].
  - split; intros _; [constructor | exact I].
  - split.
    + intros [Hx Hl]. constructor; [exact Hx | now apply IH].
    + intros H. inversion H; subst. split; [assumption | now apply IH].
Qed.

Lemma wf_VObj (props : entries) :
  wf (VObj props) <-> NoDup (keys props) /\ Forall (fun kv => wf (snd kv)) props.
Proof.
  simpl. apply and_iff_compat_l.
  induction props as [|x l IH].
  - split; intros _; [constructor | exact I].
  - split.
    + intros [Hx Hl]. constructor; [exact Hx | now apply IH].
    + intros H. inversion H; subst. split; [assumption | now apply IH].
Qed.

Lemma Forall_snd_indexed (P : value -> Prop) (i : nat) (l : list value) :
  Forall P l -> Forall (fun kv => P (snd kv)) (indexed i l).
Proof.
  intros H; revert i; induction H; intros i; simpl; constructor; auto.
Qed.

Lemma Forall_chars (P : value -> Prop) (s : string) :
  (forall c, P (VStr (String c EmptyString))) -> Forall P (chars s).
Proof. intros H; induction s; simpl; constructor; auto. Qed.

Lemma Forall_snd_ownEntries_wf (v : value) :
  wf v -> Forall (fun kv => wf (snd kv)) (ownEntries v).
Proof.
  destruct v; simpl; intros H; try constructor.
  - apply Forall_snd_indexed, Forall_chars. intros c; exact I.
  - apply Forall_snd_indexed. now apply wf_VArr.
  - now apply wf_VObj.
Qed.

(** ** Association lists *)

Lemma assoc_None (k : string) (props : entries) :
  assoc k props = None <-> ~ In k (keys props).
Proof.
  induction props as [|[k' v] l IH]; simpl; [tauto|].
  destruct (String.eqb_spec k' k) as [->|Hne].
  - split; [discriminate | intros H; exfalso; apply H; now left].
  - rewrite IH. intuition congruence.
Qed.

Lemma assoc_In (k : string) (v : value) (props : entries) :
  NoDup (keys props) -> In (k, v) props -> assoc k props = Some v.
Proof.
  induction props as [|[k' v'] l IH]; simpl; [tauto|].
  intros Hnd [E | Hin]; inversion Hnd; subst.
  - injection E as -> ->. now rewrite String.eqb_refl.
  - destruct (String.eqb_spec k' k) as [->|Hne]; [|now apply IH].
    exfalso. apply H1. change k with (fst (k, v)). now apply in_map.
Qed.

Lemma assoc_Some_In (k : string) (v : value) (props : entries) :
  assoc k props = Some v -> In (k, v) props.
Proof.
  induction props as [|[k' v'] l IH]; simpl; [discriminate|].
  destruct (String.eqb_spec k' k) as [->|Hne].
  - intros [= ->]. now left.
  - intros H. right. now apply IH.
Qed.

Lemma delete_notin (props : entries) (k : string) :
  ~ In k (keys props) -> delete props k = props.
Proof.
  induction props as [|[k' v] l IH]; simpl; [reflexivity|].
  intros H. destruct (String.eqb_spec k' k) as [->|Hne]; [tauto|].
  f_equal. apply IH. tauto.
Qed.

Lemma delete_app_head (pre rest : entries) (k : string) (v : value) :
  ~ In k (keys pre) -> ~ In k (keys rest) ->
  delete (pre ++ (k, v) :: rest) k = pre ++ rest.
Proof.
  intros Hpre Hrest. induction pre as [|[k' v'] pre IH]; simpl in *.
  - rewrite String.eqb_refl. now apply delete_notin.
  - destruct (String.eqb_spec k' k) as [->|Hne]; [tauto|].
    f_equal. apply IH. tauto.
Qed.

Lemma set_app_head (pre rest : entries) (k : string) (v x : value) :
  ~ In k (keys pre) ->
  set (pre ++ (k, v) :: rest) k x = pre ++ (k, x) :: rest.
Proof.
  intros Hpre. induction pre as [|[k' v'] pre IH]; simpl in *.
  - now rewrite String.eqb_refl.
  - destruct (String.eqb_spec k' k) as [->|Hne]; [tauto|].
    f_equal. apply IH. tauto.
Qed.

(** ** Reading a field *)

Lemma string_of_nat_length (i : nat) : string_of_nat i <> "length".
Proof.
  unfold string_of_nat, NilZero.string_of_uint.
  destruct (Nat.to_uint i); simpl; discriminate.
Qed.

Lemma indexOfKey_string_of_nat (i len : nat) :
  i < len -> indexOfKey (string_of_nat i) len = Some i.
Proof.
  unfold indexOfKey. intros Hi.
  assert (G : forall a n, a <= i < a + n ->
                          find (fun j => string_of_nat j =? string_of_nat i) (seq a n)
                          = Some i).
  { intros a n; revert a; induction n as [|n IH]; intros a Ha; simpl; [lia|].
    destruct (String.eqb_spec (string_of_nat a) (string_of_nat i)) as [E|E].
    - apply string_of_nat_inj in E. now subst.
    - apply IH. assert (a <> i) by congruence. lia. }
  apply G. lia.
Qed.

Lemma In_indexed {A} (k : string) (v : A) (i : nat) (l : list A) :
  In (k, v) (indexed i l) ->
  exists j, k = string_of_nat (i + j) /\ nth_error l j = Some v.
Proof.
  revert i; induction l as [|x l IH]; intros i; simpl; [tauto|].
  intros [[= <- <-] | H].
  - exists 0. now rewrite Nat.add_0_r.
  - destruct (IH _ H) as [j [-> Hj]]. exists (S j).
    split; [f_equal; lia | exact Hj].
Qed.

Lemma elemAt_indexed (k : string) (v : value) (l : list value) :
  In (k, v) (indexed 0 l) -> elemAt k l = v.
Proof.
  intros H. apply In_indexed in H. destruct H as [j [-> Hj]]. simpl.
  unfold elemAt.
  destruct (String.eqb_spec (string_of_nat j) "length") as [E|_];
    [now apply string_of_nat_length in E|].
  rewrite indexOfKey_string_of_nat by (apply nth_error_Some; congruence).
  now apply nth_error_nth.
Qed.

(** [get(data, current)] is the value that the walk pairs with the key
    [current] of [data]. *)
Lemma get_own_entry (data : value) (current : string) (value : value) :
  NoDup (keys (ownEntries data)) ->
  In (current, value) (ownEntries data) ->
  get data [current] VUndef = value.
Proof.
  intros Hnd Hin. unfold get.
  assert (E : baseGet data [current] = value).
  { destruct data; simpl in *; try contradiction.
    - now apply elemAt_indexed.
    - now apply elemAt_indexed.
    - now rewrite (assoc_In _ _ _ Hnd Hin). }
  rewrite E. now destruct value.
Qed.

(** ** One step of the reducer *)

Ltac callback_cases v :=
  unfold callback; cbv zeta;
  match goal with
  | |- context [excluded ?f ?s ?k] => destruct (excluded f s k) eqn:?
  end;
  [|destruct (truthy v) eqn:?; simpl negb; cbv iota;
    [match goal with
     | |- context [strictEqStr "dynamiczone" ?t] =>
         destruct (strictEqStr "dynamiczone" t) eqn:?
     end;
     match goal with
     | |- context [strictEqStr "component" ?t] =>
         destruct (strictEqStr "component" t) eqn:?
     | _ => idtac
     end;
     match goal with
     | |- context [truthy (getOtherInfos ?s ?p)] =>
         destruct (truthy (getOtherInfos s p)) eqn:?
     | _ => idtac
     end;
     destruct v; cbv iota beta
    |]].

Section FieldLemmas.
Variable componentSchema : value.
Variable fields : list string.

Local Abbreviation cb := (callback componentSchema fields).

Lemma callback_local rec schema pre rest k v :
  ~ In k (keys pre) -> ~ In k (keys rest) ->
  cb rec schema (pre ++ (k, v) :: rest) k v =
  (o <- cb rec schema [(k, v)] k v ;; Ok (pre ++ o ++ rest)).
Proof.
  intros Hpre Hrest.
  callback_cases v; simpl delete; simpl set; rewrite ?String.eqb_refl; simpl;
    rewrite ?delete_app_head by assumption; try reflexivity;
    repeat match goal with
      | |- context [bind ?c _] => destruct c; simpl
      end;
    rewrite ?set_app_head by assumption; reflexivity.
Qed.

Lemma callback_shape rec schema k v o :
  cb rec schema [(k, v)] k v = Ok o -> o = [] \/ exists x, o = [(k, x)].
Proof.
  callback_cases v; simpl delete; simpl set; rewrite ?String.eqb_refl; simpl;
    repeat match goal with
      | |- context [bind ?c _] => destruct c; simpl
      end;
    intros H; try discriminate; injection H as <-; eauto.
Qed.

Lemma reduce_local rec schema es pre :
  NoDup (keys (pre ++ es)) ->
  reduce (cb rec schema) es (pre ++ es) =
  (outs <- mapM (cleanField componentSchema fields rec schema) es ;;
   Ok (pre ++ List.concat outs)).
Proof.
  unfold cleanField.
  revert pre; induction es as [|[k v] rest IH]; intros pre Hnd; simpl.
  - reflexivity.
  - unfold keys in Hnd. rewrite map_app in Hnd. simpl in Hnd.
    assert (Hpre : ~ In k (keys pre)).
    { intros Hin. apply NoDup_remove_2 in Hnd. apply Hnd, in_or_app. now left. }
    assert (Hrest : ~ In k (keys rest)).
    { intros Hin. apply NoDup_remove_2 in Hnd. apply Hnd, in_or_app. now right. }
    rewrite callback_local by assumption.
    destruct (cb rec schema [(k, v)] k v) as [o|e] eqn:Ho; simpl; [|reflexivity].
    rewrite app_assoc, IH.
    + destruct (mapM _ rest); simpl; [|reflexivity].
      now rewrite <- app_assoc.
    + apply callback_shape in Ho. unfold keys. rewrite !map_app.
      destruct Ho as [-> | [x ->]]; simpl.
      * rewrite app_nil_r. now apply NoDup_remove_1 in Hnd.
      * now rewrite <- app_assoc.
Qed.

(** On an object whose keys are distinct, the walk treats each field on
    its own and lists what is left of the fields in their order. *)
Lemma reduce_spec rec schema es :
  NoDup (keys es) ->
  reduce (cb rec schema) es es =
  (outs <- mapM (cleanField componentSchema fields rec schema) es ;;
   Ok (List.concat outs)).
Proof. intros H. apply (reduce_local rec schema es []). exact H. Qed.

Lemma reduceIndexed_reduce {A} (f : A -> string -> value -> result A) i l acc :
  reduceIndexed f i l acc = reduce f (indexed i l) acc.
Proof.
  revert i acc; induction l as [|v l IH]; intros i acc; simpl; [reflexivity|].
  destruct (f acc (string_of_nat i) v); simpl; auto.
Qed.

Lemma keys_cleaned rec schema es outs :
  Forall2 (fun kv o => cleanField componentSchema fields rec schema kv = Ok o) es outs ->
  forall k, In k (keys (List.concat outs)) -> In k (keys es).
Proof.
  induction 1 as [|[k0 v0] o es outs Ho _ IH]; intros k; simpl; [tauto|].
  unfold keys in *. rewrite map_app, in_app_iff.
  apply callback_shape in Ho. destruct Ho as [-> | [x ->]]; simpl; intuition.
Qed.

(** The binding of a field in the output is the one its own step left. *)
Lemma assoc_cleaned rec schema es outs k v :
  NoDup (keys es) ->
  Forall2 (fun kv o => cleanField componentSchema fields rec schema kv = Ok o) es outs ->
  In (k, v) es ->
  exists o, cleanField componentSchema fields rec schema (k, v) = Ok o /\
            assoc k (List.concat outs) = assoc k o.
Proof.
  intros Hnd HF; induction HF as [|[k0 v0] o es outs Ho HF IH]; simpl; [tauto|].
  inversion Hnd as [|? ? Hk0 Hnd']; subst.
  pose proof (keys_cleaned _ _ _ _ HF) as Hkeys.
  pose proof Ho as Hshape. apply callback_shape in Hshape.
  intros [E | Hin].
  - injection E as -> ->. exists o; split; [assumption|].
    destruct Hshape as [-> | [x ->]]; simpl.
    + apply assoc_None. intros H. apply Hk0, Hkeys, H.
    + now rewrite String.eqb_refl.
  - destruct (IH Hnd' Hin) as [o' [Ho' E]]. exists o'; split; [assumption|].
    rewrite <- E.
    assert (Hne : k0 <> k).
    { intros ->. apply Hk0. change k with (fst (k, v)). now apply in_map. }
    destruct Hshape as [-> | [x ->]]; simpl; [reflexivity|].
    destruct (String.eqb_spec k0 k); [contradiction | reflexivity].
Qed.

Lemma recursiveCleanData_eq data schema :
  recursiveCleanData componentSchema fields data schema =
  match data with
  | VUndef | VNull => Throw TypeError
  | _ =>
      acc <- reduce (cb (inner componentSchema fields data) schema)
               (ownEntries data) (ownEntries data) ;;
      Ok (VObj acc)
  end.
Proof.
  destruct data; simpl; try reflexivity.
  now rewrite reduceIndexed_reduce.
Qed.

(** The output of a call that returns, field by field. *)
Lemma recursiveCleanData_Ok data schema out :
  NoDup (keys (ownEntries data)) ->
  recursiveCleanData componentSchema fields data schema = Ok out <->
  (data <> VUndef /\ data <> VNull /\
   exists outs,
     Forall2 (fun kv o =>
                cleanField componentSchema fields
                  (inner componentSchema fields data) schema kv = Ok o)
       (ownEntries data) outs /\
     out = VObj (List.concat outs)).
Proof.
  intros Hnd. rewrite recursiveCleanData_eq.
  assert (E : (acc <- reduce (cb (inner componentSchema fields data) schema)
                        (ownEntries data) (ownEntries data) ;; Ok (VObj acc)) = Ok out <->
              exists outs,
                Forall2 (fun kv o =>
                           cleanField componentSchema fields
                             (inner componentSchema fields data) schema kv = Ok o)
                  (ownEntries data) outs /\
                out = VObj (List.concat outs)).
  { rewrite reduce_spec by assumption. split.
    - intros H. inv_bind H. inv_bind Ha. injection Ha as <-. injection H as <-.
      exists a0. split; [now apply mapM_Forall2 | reflexivity].
    - intros [outs [HF ->]]. apply mapM_Forall2 in HF. rewrite HF. reflexivity. }
  destruct data; try (rewrite E; intuition congruence);
    split; try discriminate; intros [H1 [H2 _]]; congruence.
Qed.

(** *** The cases of the reducer, on one field *)

Lemma cleanField_excluded rec schema k v :
  excluded fields schema k = true ->
  cleanField componentSchema fields rec schema (k, v) = Ok [].
Proof.
  intros H. unfold cleanField, callback; simpl. rewrite H.
  now rewrite String.eqb_refl.
Qed.

Lemma cleanField_falsy rec schema k v :
  excluded fields schema k = false -> truthy v = false ->
  cleanField componentSchema fields rec schema (k, v) = Ok [(k, v)].
Proof.
  intros H Hv. unfold cleanField, callback; simpl. now rewrite H, Hv.
Qed.

Lemma cleanField_unwalked rec schema k v :
  excluded fields schema k = false ->
  strictEqStr "component" (getType schema k) = false ->
  strictEqStr "dynamiczone" (getType schema k) = false \/ isArray v = false ->
  cleanField componentSchema fields rec schema (k, v) = Ok [(k, v)].
Proof.
  intros H Hc Hd. unfold cleanField, callback; simpl. rewrite H, Hc.
  destruct (truthy v); simpl; [|reflexivity].
  destruct Hd as [-> | Hd]; [now destruct v|].
  destruct (strictEqStr "dynamiczone" (getType schema k)), v;
    try discriminate; reflexivity.
Qed.

Lemma cleanField_plain rec schema k v :
  excluded fields schema k = false ->
  strictEqStr "component" (getType schema k) = false ->
  strictEqStr "dynamiczone" (getType schema k) = false ->
  cleanField componentSchema fields rec schema (k, v) = Ok [(k, v)].
Proof. intros H Hc Hd. apply cleanField_unwalked; auto. Qed.

Lemma cleanField_dynamiczone rec schema k elems :
  excluded fields schema k = false ->
  strictEqStr "dynamiczone" (getType schema k) = true ->
  cleanField componentSchema fields rec schema (k, VArr elems) =
  (cleaned <- mapM (fun componentValue =>
                      discriminator <- member componentValue "__component" ;;
                      s <- index componentSchema discriminator ;;
                      rec componentValue s) elems ;;
   Ok [(k, VArr cleaned)]).
Proof.
  intros H Hd. unfold cleanField, callback; simpl. rewrite H, Hd.
  destruct (mapM _ elems); simpl; [|reflexivity]. now rewrite String.eqb_refl.
Qed.

Lemma cleanField_repeatable rec schema k elems :
  excluded fields schema k = false ->
  strictEqStr "component" (getType schema k) = true ->
  truthy (getOtherInfos schema [k; "repeatable"]) = true ->
  cleanField componentSchema fields rec schema (k, VArr elems) =
  (cleaned <- mapM (fun compoData =>
                      s <- index componentSchema
                             (getOtherInfos schema [k; "component"]) ;;
                      rec compoData s) elems ;;
   Ok [(k, VArr cleaned)]).
Proof.
  intros H Hc Hr. unfold cleanField, callback; simpl. rewrite H, Hc, Hr.
  assert (Hd : strictEqStr "dynamiczone" (getType schema k) = false).
  { destruct (getType schema k); simpl in *; try reflexivity.
    apply String.eqb_eq in Hc. now subst. }
  rewrite Hd.
  destruct (mapM _ elems); simpl; [|reflexivity]. now rewrite String.eqb_refl.
Qed.

Lemma cleanField_single rec schema k v :
  excluded fields schema k = false ->
  truthy v = true ->
  strictEqStr "component" (getType schema k) = true ->
  truthy (getOtherInfos schema [k; "repeatable"]) = false \/ isArray v = false ->
  cleanField componentSchema fields rec schema (k, v) =
  (s <- index componentSchema (getOtherInfos schema [k; "component"]) ;;
   cleaned <- rec v s ;;
   Ok [(k, cleaned)]).
Proof.
  intros H Hv Hc Hr. unfold cleanField, callback; simpl. rewrite H, Hv, Hc.
  assert (Hd : strictEqStr "dynamiczone" (getType schema k) = false).
  { destruct (getType schema k); simpl in *; try reflexivity.
    apply String.eqb_eq in Hc. now subst. }
  rewrite Hd. simpl.
  destruct Hr as [Hr | Hr].
  - rewrite Hr.
    destruct (index _ _); simpl; [|now destruct v].
    destruct (rec v _); simpl; rewrite ?String.eqb_refl; now destruct v.
  - destruct (truthy (getOtherInfos schema [k; "repeatable"]));
      destruct v; try discriminate;
      (destruct (index _ _); simpl; [|reflexivity]);
      (destruct (rec _ _); simpl; rewrite ?String.eqb_refl; reflexivity).
Qed.

(** The binding of a field of [data] in the output [out]. *)
Lemma output_field data schema out k v :
  NoDup (keys (ownEntries data)) ->
  In (k, v) (ownEntries data) ->
  recursiveCleanData componentSchema fields data schema = Ok out ->
  exists o,
    cleanField componentSchema fields (inner componentSchema fields data)
      schema (k, v) = Ok o /\
    assoc k (ownEntries out) = assoc k o.
Proof.
  intros Hnd Hin H. apply recursiveCleanData_Ok in H; [|assumption].
  destruct H as [_ [_ [outs [HF ->]]]]. simpl.
  eapply assoc_cleaned; eassumption.
Qed.

End FieldLemmas.

(** ** The sample article *)

Example article_cleaned :
  contentManagementUtilRemoveFieldsFromData_default
    Sample.article Sample.articleSchema Sample.components
  = Ok Sample.articleCleaned.
Proof. reflexivity. Qed.

(** ** Fields the walk does not enter *)

Lemma strictEqStr_false (s : string) (v : value) :
  v <> VStr s -> strictEqStr s v = false.
Proof.
  destruct v; simpl; try reflexivity.
  intros H. apply String.eqb_neq. congruence.
Qed.

Lemma strictEqStr_true (s : string) (v : value) :
  strictEqStr s v = true <-> v = VStr s.
Proof.
  destruct v; simpl; split; try discriminate.
  - intros H. apply String.eqb_eq in H. now subst.
  - intros [= ->]. apply String.eqb_refl.
Qed.

Ltac nodup_keys :=
  simpl; repeat (constructor; [simpl; intuition discriminate|]); constructor.

(** A field that its own step leaves as it is stays bound to its value. *)
Lemma kept_field componentSchema fields data schema out k v :
  NoDup (keys (ownEntries data)) ->
  In (k, v) (ownEntries data) ->
  cleanField componentSchema fields (inner componentSchema fields data)
    schema (k, v) = Ok [(k, v)] ->
  recursiveCleanData componentSchema fields data schema = Ok out ->
  assoc k (ownEntries out) = Some v.
Proof.
  intros Hnd Hin Hstep Hout.
  destruct (output_field _ _ _ _ _ _ _ Hnd Hin Hout) as [o [Ho ->]].
  rewrite Hstep in Ho. injection Ho as <-. simpl. now rewrite String.eqb_refl.
Qed.

(** A field that is not excluded, and that is falsy or of a kind that the
    walk does not enter, stays bound to its value. *)
Lemma retained_unwalked componentSchema fields data schema out k v :
  NoDup (keys (ownEntries data)) ->
  In (k, v) (ownEntries data) ->
  excluded fields schema k = false ->
  (getType schema k <> VStr "component" /\
   getType schema k <> VStr "dynamiczone") \/ truthy v = false ->
  recursiveCleanData componentSchema fields data schema = Ok out ->
  assoc k (ownEntries out) = Some v.
Proof.
  intros Hnd Hin Hex [[Hc Hd] | Hv]; apply kept_field; try assumption.
  - apply cleanField_plain; auto using strictEqStr_false.
  - now apply cleanField_falsy.
Qed.









(** ** The effective exclusion set *)

Lemma existsb_strictEqStr (k : string) (l : list value) :
  existsb (strictEqStr k) l = true <-> In (VStr k) l.
Proof.
  rewrite existsb_exists. split.
  - intros [x [Hin Hx]]. apply strictEqStr_true in Hx. now subst.
  - intros Hin. exists (VStr k). split; [assumption | now apply strictEqStr_true].
Qed.

Lemma excluded_iff fields schema k :
  excluded fields schema k = true <->
  In k fields \/
  exists ts, get schema ["options"; "timestamps"] VUndef = VArr ts /\ In (VStr k) ts.
Proof.
  unfold excluded. rewrite existsb_strictEqStr, in_app_iff, in_map_iff.
  split.
  - intros [[x [[= ->] Hin]] | Hin]; [now left|].
    destruct (get schema _ _); simpl in Hin; try contradiction.
    right; eauto.
  - intros [Hin | [ts [-> Hin]]]; [left; eauto | now right].
Qed.


(** ** Components and dynamic zones *)

Lemma inner_of_array_field componentSchema fields data k elems :
  In (k, VArr elems) (ownEntries data) ->
  inner componentSchema fields data = recursiveCleanData componentSchema fields.
Proof.
  destruct data; simpl; try contradiction; try reflexivity.
  intros H. exfalso.
  assert (G : forall i l, Forall (fun v => ~ isArray v = true) l ->
                          ~ In (k, VArr elems) (indexed i l)).
  { intros i l Hl; revert i; induction Hl as [|x l Hx _ IH]; intros i; simpl.
    - tauto.
    - intros [[= _ ->] | Hin]; [now apply Hx | now apply (IH (S i))]. }
  apply (G 0 (chars s)); [|assumption].
  apply Forall_chars. intros c; discriminate.
Qed.

(** The output of a dynamic zone: one result per entry, each under the
    schema that the entry's own discriminator selects. *)
Lemma dynamiczone_field componentSchema fields data schema out k elems :
  NoDup (keys (ownEntries data)) ->
  In (k, VArr elems) (ownEntries data) ->
  excluded fields schema k = false ->
  getType schema k = VStr "dynamiczone" ->
  recursiveCleanData componentSchema fields data schema = Ok out ->
  exists cleaned,
    assoc k (ownEntries out) = Some (VArr cleaned) /\
    Forall2 (fun componentValue result =>
               exists discriminator s,
                 member componentValue "__component" = Ok discriminator /\
                 index componentSchema discriminator = Ok s /\
                 recursiveCleanData componentSchema fields componentValue s
                 = Ok result)
      elems cleaned.
Proof.
  intros Hnd Hin Hex Hty Hout.
  destruct (output_field _ _ _ _ _ _ _ Hnd Hin Hout) as [o [Ho ->]].
  rewrite (inner_of_array_field _ _ _ _ _ Hin) in Ho.
  rewrite cleanField_dynamiczone in Ho;
    [|assumption | now apply strictEqStr_true].
  inv_bind Ho. injection Ho as <-. exists a. split.
  - simpl. now rewrite String.eqb_refl.
  - apply mapM_Forall2 in Ha.
    eapply Forall2_impl; [|exact Ha]. cbv beta.
    intros e c H. inv_bind H. inv_bind H. eauto.
Qed.

(** The output of a repeatable component: one result per entry, all under
    the schema of the declared component. *)
Lemma repeatable_field componentSchema fields data schema out k elems :
  NoDup (keys (ownEntries data)) ->
  In (k, VArr elems) (ownEntries data) ->
  excluded fields schema k = false ->
  getType schema k = VStr "component" ->
  truthy (getOtherInfos schema [k; "repeatable"]) = true ->
  recursiveCleanData componentSchema fields data schema = Ok out ->
  exists cleaned,
    assoc k (ownEntries out) = Some (VArr cleaned) /\
    Forall2 (fun compoData result =>
               exists s,
                 index componentSchema (getOtherInfos schema [k; "component"])
                 = Ok s /\
                 recursiveCleanData componentSchema fields compoData s = Ok result)
      elems cleaned.
Proof.
  intros Hnd Hin Hex Hty Hrep Hout.
  destruct (output_field _ _ _ _ _ _ _ Hnd Hin Hout) as [o [Ho ->]].
  rewrite (inner_of_array_field _ _ _ _ _ Hin) in Ho.
  rewrite cleanField_repeatable in Ho;
    [|assumption | now apply strictEqStr_true | assumption].
  inv_bind Ho. injection Ho as <-. exists a. split.
  - simpl. now rewrite String.eqb_refl.
  - apply mapM_Forall2 in Ha.
    eapply Forall2_impl; [|exact Ha]. cbv beta.
    intros e c H. inv_bind H. eauto.
Qed.

(** C6: a dynamic-zone field whose value is a sequence (and whose name is
    not excluded, so that the walk reaches it) is bound in the output to
    the sequence of the results of its entries, each entry sanitized under
    the schema found in the component table at the entry's own
    [__component]. *)
Theorem dynamiczone_entries_by_own_discriminator
  componentSchema fields data schema out k elems :
  NoDup (keys (ownEntries data)) ->
  In (k, VArr elems) (ownEntries data) ->
  excluded fields schema k = false ->
  getType schema k = VStr "dynamiczone" ->
  recursiveCleanData componentSchema fields data schema = Ok out ->
  exists cleaned,
    assoc k (ownEntries out) = Some (VArr cleaned) /\
    Forall2 (fun componentValue result =>
               exists discriminator s,
                 member componentValue "__component" = Ok discriminator /\
                 index componentSchema discriminator = Ok s /\
                 recursiveCleanData componentSchema fields componentValue s
                 = Ok result)
      elems cleaned.
Proof. apply dynamiczone_field. Qed.

(** In the sample article the [hero] entry loses [shownAt], a timestamp of
    the [hero] schema only, and the [quote] entry keeps it. *)
Lemma dynamiczone_entries_by_own_discriminator_witness :
  exists cleaned,
    assoc "sections" (ownEntries Sample.articleCleaned) = Some (VArr cleaned) /\
    Forall2 (fun componentValue result =>
               exists discriminator s,
                 member componentValue "__component" = Ok discriminator /\
                 index Sample.components discriminator = Ok s /\
                 recursiveCleanData Sample.components defaultFields
                   componentValue s = Ok result)
      [VObj [("__component", VStr "hero"); ("id", VNum 7);
             ("heading", VStr "Top"); ("shownAt", VNum 3)];
       VObj [("__component", VStr "quote"); ("id", VNum 8);
             ("body", VStr "So it goes"); ("shownAt", VNum 5)]]
      cleaned.
Proof.
  apply (dynamiczone_entries_by_own_discriminator Sample.components
           defaultFields Sample.article Sample.articleSchema
           Sample.articleCleaned "sections").
  - nodup_keys.
  - simpl; auto 10.
  - reflexivity.
  - reflexivity.
  - reflexivity.
Defined.

Lemma Forall2_nth_error {A B} (R : A -> B -> Prop) (l : list A) (l' : list B) :
  Forall2 R l l' ->
  List.length l' = List.length l /\
  forall i x, nth_error l i = Some x ->
              exists y, nth_error l' i = Some y /\ R x y.
Proof.
  induction 1 as [|x y l l' Hxy _ [IHlen IH]]; simpl.
  - split; [reflexivity|]. intros [|i] x; discriminate.
  - split; [now rewrite IHlen|].
    intros [|i] x0; simpl.
    + intros [= <-]. eauto.
    + apply IH.
Qed.

Lemma sequence_field componentSchema fields data schema out k elems :
  NoDup (keys (ownEntries data)) ->
  In (k, VArr elems) (ownEntries data) ->
  excluded fields schema k = false ->
  getType schema k = VStr "dynamiczone" \/
  (getType schema k = VStr "component" /\
   truthy (getOtherInfos schema [k; "repeatable"]) = true) ->
  recursiveCleanData componentSchema fields data schema = Ok out ->
  exists cleaned,
    assoc k (ownEntries out) = Some (VArr cleaned) /\
    Forall2 (fun entry result =>
               exists s,
                 entrySchema componentSchema schema k entry = Ok s /\
                 recursiveCleanData componentSchema fields entry s = Ok result)
      elems cleaned.
Proof.
  intros Hnd Hin Hex [Hdz | [Hc Hrep]] Hout.
  - destruct (dynamiczone_field _ _ _ _ _ _ _ Hnd Hin Hex Hdz Hout)
      as [cleaned [Hk HF]].
    exists cleaned. split; [assumption|].
    eapply Forall2_impl; [|exact HF]. cbv beta.
    intros entry result [d [s [Hd [Hs Hres]]]]. exists s. split; [|assumption].
    unfold entrySchema. rewrite Hdz; simpl. now rewrite Hd.
  - destruct (repeatable_field _ _ _ _ _ _ _ Hnd Hin Hex Hc Hrep Hout)
      as [cleaned [Hk HF]].
    exists cleaned. split; [assumption|].
    eapply Forall2_impl; [|exact HF]. cbv beta.
    intros entry result [s [Hs Hres]]. exists s. split; [|assumption].
    unfold entrySchema. now rewrite Hc.
Qed.

(** C7: a dynamic-zone field, or a repeatable component field, whose value
    is a sequence of [n] entries (and whose name is not excluded) is bound
    in the output to a sequence of exactly [n] entries; the entry at each
    position is the result of sanitizing the input entry at that position,
    under the schema of that entry.  There are never fewer: an entry whose
    sanitization throws makes the whole call throw. *)
Theorem sequence_order_preserved componentSchema fields data schema k elems :
  NoDup (keys (ownEntries data)) ->
  In (k, VArr elems) (ownEntries data) ->
  excluded fields schema k = false ->
  getType schema k = VStr "dynamiczone" \/
  (getType schema k = VStr "component" /\
   truthy (getOtherInfos schema [k; "repeatable"]) = true) ->
  (forall out,
     recursiveCleanData componentSchema fields data schema = Ok out ->
     exists cleaned,
       assoc k (ownEntries out) = Some (VArr cleaned) /\
       List.length cleaned = List.length elems /\
       forall i entry,
         nth_error elems i = Some entry ->
         exists result s,
           nth_error cleaned i = Some result /\
           entrySchema componentSchema schema k entry = Ok s /\
           recursiveCleanData componentSchema fields entry s = Ok result) /\
  (forall i entry e,
     nth_error elems i = Some entry ->
     (s <- entrySchema componentSchema schema k entry ;;
      recursiveCleanData componentSchema fields entry s) = Throw e ->
     exists e', recursiveCleanData componentSchema fields data schema = Throw e').
Proof.
  intros Hnd Hin Hex Hkind.
  assert (A : forall out,
             recursiveCleanData componentSchema fields data schema = Ok out ->
             exists cleaned,
               assoc k (ownEntries out) = Some (VArr cleaned) /\
               List.length cleaned = List.length elems /\
               forall i entry,
                 nth_error elems i = Some entry ->
                 exists result s,
                   nth_error cleaned i = Some result /\
                   entrySchema componentSchema schema k entry = Ok s /\
                   recursiveCleanData componentSchema fields entry s = Ok result).
  { intros out Hout.
    destruct (sequence_field _ _ _ _ _ _ _ Hnd Hin Hex Hkind Hout)
      as [cleaned [Hk HF]].
    exists cleaned. split; [assumption|].
    apply Forall2_nth_error in HF. destruct HF as [Hlen Hnth].
    split; [assumption|]. intros i entry Hi.
    destruct (Hnth i entry Hi) as [result [Hr [s [Hs Hres]]]]. eauto. }
  split; [exact A|].
  intros i entry e Hi Hthrow.
  destruct (recursiveCleanData componentSchema fields data schema)
    as [out|e'] eqn:Hout; [|eauto].
  destruct (A out eq_refl) as [cleaned [_ [_ Hnth]]].
  destruct (Hnth i entry Hi) as [result [s [_ [Hs Hres]]]].
  rewrite Hs in Hthrow. simpl in Hthrow. congruence.
Qed.

(** Scenario B on the sample article: two images in, two images out. *)
Lemma sequence_order_preserved_witness :
  exists cleaned,
    assoc "images" (ownEntries Sample.articleCleaned) = Some (VArr cleaned) /\
    List.length cleaned = List.length Sample.images /\
    forall i entry,
      nth_error Sample.images i = Some entry ->
      exists result s,
        nth_error cleaned i = Some result /\
        entrySchema Sample.components Sample.articleSchema "images" entry
        = Ok s /\
        recursiveCleanData Sample.components defaultFields entry s = Ok result.
Proof.
  refine (proj1 (sequence_order_preserved Sample.components defaultFields
                   Sample.article Sample.articleSchema "images" Sample.images
                   _ _ _ _) Sample.articleCleaned _).
  - nodup_keys.
  - simpl; auto 10.
  - reflexivity.
  - right. split; reflexivity.
  - reflexivity.
Defined.

(** ** Unresolved component schemas *)

Lemma concat_map_filter {A} (p : A -> bool) (l : list A) :
  List.concat (map (fun x => if p x then [] else [x]) l) = filter (fun x => negb (p x)) l.
Proof.
  induction l as [|x l IH]; simpl; [reflexivity|].
  destruct (p x); simpl; now rewrite IH.
Qed.

Lemma excluded_undefined fields k :
  excluded fields VUndef k = existsb (String.eqb k) fields.
Proof.
  unfold excluded; simpl. rewrite app_nil_r.
  induction fields as [|f l IH]; simpl; [reflexivity|].
  now rewrite IH, (String.eqb_sym f k).
Qed.

(** Under an undefined schema the walk enters nothing: it deletes the
    supplied exclusion names and leaves every other field as it is. *)
Lemma recursiveCleanData_undefined componentSchema fields data :
  NoDup (keys (ownEntries data)) ->
  data <> VUndef -> data <> VNull ->
  recursiveCleanData componentSchema fields data VUndef =
  Ok (VObj (filter (fun kv => negb (existsb (String.eqb (fst kv)) fields))
              (ownEntries data))).
Proof.
  intros Hnd H1 H2. apply recursiveCleanData_Ok; [assumption|].
  split; [assumption|]. split; [assumption|].
  exists (map (fun kv => if existsb (String.eqb (fst kv)) fields then [] else [kv])
            (ownEntries data)).
  split; [|now rewrite concat_map_filter].
  clear. induction (ownEntries data) as [|[k v] l IH]; simpl; constructor;
    [|exact IH].
  destruct (existsb (String.eqb k) fields) eqn:E.
  - apply cleanField_excluded. now rewrite excluded_undefined.
  - apply cleanField_plain; [now rewrite excluded_undefined | reflexivity..].
Qed.




(** ** Exclusion at every level *)

Lemma cleaned_keys_not_excluded componentSchema fields rec schema es outs k :
  Forall2 (fun kv o => cleanField componentSchema fields rec schema kv = Ok o) es outs ->
  In k (keys (List.concat outs)) -> excluded fields schema k = false.
Proof.
  induction 1 as [|[k0 v0] o es outs Ho _ IH]; simpl; [tauto|].
  unfold keys in *. rewrite map_app, in_app_iff. intros [Hin | Hin]; [|auto].
  destruct (excluded fields schema k0) eqn:E.
  - rewrite cleanField_excluded in Ho by assumption. injection Ho as <-.
    contradiction.
  - apply callback_shape in Ho. destruct Ho as [-> | [x ->]]; simpl in Hin.
    + contradiction.
    + destruct Hin as [<- | []]. exact E.
Qed.

(** The output of one level holds no excluded name. *)
Lemma no_excluded_field componentSchema fields data schema out k :
  NoDup (keys (ownEntries data)) ->
  recursiveCleanData componentSchema fields data schema = Ok out ->
  excluded fields schema k = true ->
  assoc k (ownEntries out) = None.
Proof.
  intros Hnd Hout Hex. apply recursiveCleanData_Ok in Hout; [|assumption].
  destruct Hout as [_ [_ [outs [HF ->]]]]. simpl.
  apply assoc_None. intros Hin.
  apply (cleaned_keys_not_excluded _ _ _ _ _ _ _ HF) in Hin. congruence.
Qed.

Lemma wf_field data k v : wf data -> In (k, v) (ownEntries data) -> wf v.
Proof.
  intros Hwf Hin. apply Forall_snd_ownEntries_wf in Hwf.
  rewrite Forall_forall in Hwf. exact (Hwf _ Hin).
Qed.

Lemma wf_entry elems i e : wf (VArr elems) -> nth_error elems i = Some e -> wf e.
Proof.
  intros Hwf Hi. apply wf_VArr in Hwf. rewrite Forall_forall in Hwf.
  eapply Hwf, nth_error_In, Hi.
Qed.

Lemma inner_of_single_field componentSchema fields data schema k v o :
  In (k, v) (ownEntries data) ->
  excluded fields schema k = false ->
  truthy v = true ->
  getType schema k = VStr "component" ->
  truthy (getOtherInfos schema [k; "repeatable"]) = false \/ isArray v = false ->
  cleanField componentSchema fields (inner componentSchema fields data)
    schema (k, v) = Ok o ->
  inner componentSchema fields data = recursiveCleanData componentSchema fields.
Proof.
  intros Hin Hex Hv Hty Hrep Ho.
  rewrite cleanField_single in Ho; try assumption; [|now apply strictEqStr_true].
  inv_bind Ho. inv_bind Ho.
  destruct data; simpl in *; try reflexivity; discriminate.
Qed.

(** The value at the place of a level in the output is the result of the
    call on the record of that level. *)
Lemma child_result componentSchema fields d s o lv :
  wf d ->
  recursiveCleanData componentSchema fields d s = Ok o ->
  child componentSchema fields (Level d s o) lv ->
  wf (record lv) /\
  recursiveCleanData componentSchema fields (record lv) (levelSchema lv)
  = Ok (output lv).
Proof.
  intros Hwf Hout Hc. pose proof (NoDup_keys_ownEntries _ Hwf) as Hnd.
  inversion Hc as
    [d0 s0 o0 k elems cleaned i d' o' disc s' Hin Hex Hty Hk Hi Hi' Hm Hs
    |d0 s0 o0 k elems cleaned i d' o' s' Hin Hex Hty Hrep Hk Hi Hi' Hs
    |d0 s0 o0 k d' o' s' Hin Hex Hv Hty Hrep Hk Hs];
    subst; simpl.
  - split; [eapply wf_entry; [eapply wf_field|]; eassumption|].
    destruct (dynamiczone_field _ _ _ _ _ _ _ Hnd Hin Hex Hty Hout)
      as [cleaned' [Hk' HF]].
    rewrite Hk in Hk'. injection Hk' as <-.
    apply Forall2_nth_error in HF. destruct HF as [_ Hnth].
    destruct (Hnth _ _ Hi) as [y [Hy [d1 [s1 [Hd [Hs1 Hr]]]]]].
    congruence.
  - split; [eapply wf_entry; [eapply wf_field|]; eassumption|].
    destruct (repeatable_field _ _ _ _ _ _ _ Hnd Hin Hex Hty Hrep Hout)
      as [cleaned' [Hk' HF]].
    rewrite Hk in Hk'. injection Hk' as <-.
    apply Forall2_nth_error in HF. destruct HF as [_ Hnth].
    destruct (Hnth _ _ Hi) as [y [Hy [s1 [Hs1 Hr]]]].
    congruence.
  - split; [eapply wf_field; eassumption|].
    destruct (output_field _ _ _ _ _ _ _ Hnd Hin Hout) as [o1 [Ho1 Hk']].
    pose proof (inner_of_single_field _ _ _ _ _ _ _ Hin Hex Hv Hty Hrep Ho1) as E.
    rewrite E in Ho1.
    rewrite cleanField_single in Ho1; try assumption; [|now apply strictEqStr_true].
    rewrite Hs in Ho1; simpl in Ho1. inv_bind Ho1. injection Ho1 as <-.
    rewrite Hk' in Hk. simpl in Hk. rewrite String.eqb_refl in Hk.
    congruence.
Qed.

Lemma visited_result componentSchema fields data schema out lv :
  wf data ->
  recursiveCleanData componentSchema fields data schema = Ok out ->
  visited componentSchema fields (Level data schema out) lv ->
  wf (record lv) /\
  recursiveCleanData componentSchema fields (record lv) (levelSchema lv)
  = Ok (output lv).
Proof.
  intros Hwf Hout Hv. induction Hv as [|lv lv' _ [IHwf IH] Hc].
  - simpl; auto.
  - destruct lv as [d s o]. simpl in *. eapply child_result; eassumption.
Qed.

(** C2: at every level that the call visits, whatever its depth, the value
    that stands for that level in the output is the result of sanitizing
    the level's record under the level's schema, and it binds no name of
    the effective exclusion set of that schema. *)
Theorem exclusion_completeness componentSchema fields data schema out lv :
  wf data ->
  recursiveCleanData componentSchema fields data schema = Ok out ->
  visited componentSchema fields (Level data schema out) lv ->
  recursiveCleanData componentSchema fields (record lv) (levelSchema lv)
  = Ok (output lv) /\
  forall k, excluded fields (levelSchema lv) k = true ->
            assoc k (ownEntries (output lv)) = None.
Proof.
  intros Hwf Hout Hv.
  destruct (visited_result _ _ _ _ _ _ Hwf Hout Hv) as [Hwf' Hout'].
  split; [assumption|]. intros k Hex.
  eapply no_excluded_field; [apply NoDup_keys_ownEntries|..]; eassumption.
Qed.

(** In the sample article the [hero] entry of the dynamic zone is a level
    of its own, where [shownAt] is excluded too. *)
Lemma exclusion_completeness_witness :
  recursiveCleanData Sample.components defaultFields
    (VObj [("__component", VStr "hero"); ("id", VNum 7);
           ("heading", VStr "Top"); ("shownAt", VNum 3)])
    (prop Sample.components "hero")
  = Ok (VObj [("__component", VStr "hero"); ("heading", VStr "Top")]) /\
  forall k, excluded defaultFields (prop Sample.components "hero") k = true ->
            assoc k (ownEntries
                       (VObj [("__component", VStr "hero");
                              ("heading", VStr "Top")])) = None.
Proof.
  apply (exclusion_completeness Sample.components defaultFields
           Sample.article Sample.articleSchema Sample.articleCleaned
           (Level (VObj [("__component", VStr "hero"); ("id", VNum 7);
                         ("heading", VStr "Top"); ("shownAt", VNum 3)])
                  (prop Sample.components "hero")
                  (VObj [("__component", VStr "hero"); ("heading", VStr "Top")]))).
  - simpl. repeat split; nodup_keys.
  - reflexivity.
  - eapply visited_child; [apply visited_top|].
    eapply (child_dynamiczone _ _ _ _ _ "sections" _ _ 0);
      [simpl; auto 10 | reflexivity ..].
Defined.

(** ** A second pass *)


Lemma string_of_nat_discriminator (i : nat) : string_of_nat i <> "__component".
Proof.
  unfold string_of_nat, NilZero.string_of_uint.
  destruct (Nat.to_uint i); simpl; discriminate.
Qed.

Lemma assoc_indexed_discriminator (i : nat) (l : list value) :
  assoc "__component" (indexed i l) = None.
Proof.
  apply assoc_None. intros H. apply keys_indexed_lt in H.
  destruct H as [j [_ E]]. symmetry in E. now apply string_of_nat_discriminator in E.
Qed.

Lemma elemAt_discriminator (l : list value) : elemAt "__component" l = VUndef.
Proof.
  unfold elemAt; simpl. unfold indexOfKey.
  destruct (find _ _) as [i|] eqn:E; [|reflexivity].
  apply find_some in E. destruct E as [_ E]. apply String.eqb_eq in E.
  now apply string_of_nat_discriminator in E.
Qed.

(** Reading the discriminator is reading an own property. *)
Lemma prop_discriminator (v : value) :
  prop v "__component" =
  match assoc "__component" (ownEntries v) with
  | Some x => x
  | None => VUndef
  end.
Proof.
  destruct v; simpl; try reflexivity.
  - now rewrite elemAt_discriminator, assoc_indexed_discriminator.
  - now rewrite elemAt_discriminator, assoc_indexed_discriminator.
Qed.

(** A pass keeps the discriminator of a record walked under a schema that
    lets it through. *)
Lemma discriminator_preserved componentSchema fields data schema out :
  NoDup (keys (ownEntries data)) ->
  discriminator_kept fields schema ->
  recursiveCleanData componentSchema fields data schema = Ok out ->
  prop out "__component" = prop data "__component".
Proof.
  intros Hnd [Hex [Hc Hd]] Hout. rewrite !prop_discriminator.
  destruct (assoc "__component" (ownEntries data)) as [x|] eqn:E.
  - apply assoc_Some_In in E.
    erewrite retained_unwalked; eauto.
  - apply recursiveCleanData_Ok in Hout; [|assumption].
    destruct Hout as [_ [_ [outs [HF ->]]]]. simpl.
    replace (assoc "__component" (List.concat outs)) with (@None value);
      [reflexivity|].
    symmetry. apply assoc_None. intros Hin.
    apply (keys_cleaned _ _ _ _ _ _ HF) in Hin. now apply assoc_None in E.
Qed.

Lemma mapM_fixed {A} (f : A -> result A) (l : list A) :
  Forall (fun x => f x = Ok x) l -> mapM f l = Ok l.
Proof.
  induction 1 as [|x l Hx _ IH]; simpl; [reflexivity|].
  now rewrite Hx, IH.
Qed.

Lemma Forall2_Forall_r {A B} (R : A -> B -> Prop) (Q : B -> Prop) l l' :
  Forall2 R l l' ->
  (forall x y, In x l -> R x y -> Q y) ->
  Forall Q l'.
Proof.
  induction 1 as [|x y l l' Hxy _ IH]; intros H; constructor.
  - apply (H x y); [now left | assumption].
  - apply IH. intros x' y' Hin. apply H. now right.
Qed.

Lemma concat_singletons {A} (l : list A) :
  List.concat (map (fun x => [x]) l) = l.
Proof. induction l as [|x l IH]; simpl; [reflexivity | now rewrite IH]. Qed.

Lemma member_Ok v k x : member v k = Ok x -> x = prop v k.
Proof. destruct v; simpl; intros H; try discriminate; now injection H. Qed.

Section SecondPass.
Variable componentSchema : value.
Variable fields : list string.

Local Abbreviation clean := (recursiveCleanData componentSchema fields).

Hypothesis discriminators :
  forall identifier s,
    index componentSchema identifier = Ok s -> discriminator_kept fields s.

Local Abbreviation stable := (stable componentSchema fields).
Local Abbreviation stable_entry := (stable_entry componentSchema fields).

Lemma NoDup_keys_cleaned rec schema es outs :
  NoDup (keys es) ->
  Forall2 (fun kv o => cleanField componentSchema fields rec schema kv = Ok o) es outs ->
  NoDup (keys (List.concat outs)).
Proof.
  intros Hnd HF; induction HF as [|[k0 v0] o es outs Ho HF IH]; simpl;
    [constructor|].
  inversion Hnd as [|? ? Hk0 Hnd']; subst.
  apply callback_shape in Ho. destruct Ho as [-> | [x ->]]; simpl; auto.
  constructor; [|auto]. intros Hin. apply Hk0.
  eapply keys_cleaned; eassumption.
Qed.

(** What one step of the first pass leaves of a field, the second pass
    leaves as it is. *)
Lemma second_pass_field rec schema k v o :
  stable rec v ->
  (forall elems, v = VArr elems -> Forall (stable_entry rec) elems) ->
  cleanField componentSchema fields rec schema (k, v) = Ok o ->
  Forall (fun kv => cleanField componentSchema fields clean schema kv = Ok [kv]) o.
Proof.
  intros Hv Helems Ho.
  destruct (excluded fields schema k) eqn:Hex.
  { rewrite cleanField_excluded in Ho by assumption. injection Ho as <-.
    constructor. }
  destruct (truthy v) eqn:Htruthy.
  2:{ rewrite cleanField_falsy in Ho by assumption. injection Ho as <-.
      constructor; [|constructor]. now apply cleanField_falsy. }
  destruct (strictEqStr "component" (getType schema k)) eqn:Hc.
  - (* a component *)
    destruct (truthy (getOtherInfos schema [k; "repeatable"])) eqn:Hrep.
    + destruct (isArray v) eqn:Harr.
      * destruct v as [| | | | |elems|]; try discriminate.
        rewrite cleanField_repeatable in Ho by assumption.
        inv_bind_as Ho cleaned Hmap. injection Ho as <-.
        apply mapM_Forall2 in Hmap.
        constructor; [|constructor].
        rewrite cleanField_repeatable by assumption.
        rewrite mapM_fixed; [reflexivity|].
        eapply Forall2_Forall_r; [exact Hmap|]. cbv beta.
        intros e c Hin H. inv_bind_as H s' Hs'. rewrite Hs'. cbn [bind].
        specialize (Helems elems eq_refl). rewrite Forall_forall in Helems.
        now apply (Helems e Hin s' c).
      * rewrite cleanField_single in Ho; auto.
        inv_bind_as Ho s' Hs'. inv_bind_as Ho c Hc'. injection Ho as <-.
        destruct (Hv _ _ Hc') as [Hfix [props ->]].
        constructor; [|constructor].
        rewrite cleanField_single; [|assumption|reflexivity|assumption|now right].
        rewrite Hs'. cbn [bind]. now rewrite Hfix.
    + rewrite cleanField_single in Ho; auto.
      inv_bind_as Ho s' Hs'. inv_bind_as Ho c Hc'. injection Ho as <-.
      destruct (Hv _ _ Hc') as [Hfix [props ->]].
      constructor; [|constructor].
      rewrite cleanField_single; [|assumption|reflexivity|assumption|now right].
      rewrite Hs'. cbn [bind]. now rewrite Hfix.
  - destruct (strictEqStr "dynamiczone" (getType schema k)) eqn:Hd.
    + destruct (isArray v) eqn:Harr.
      * (* a dynamic zone *)
        destruct v as [| | | | |elems|]; try discriminate.
        rewrite cleanField_dynamiczone in Ho by assumption.
        inv_bind_as Ho cleaned Hmap. injection Ho as <-.
        apply mapM_Forall2 in Hmap.
        constructor; [|constructor].
        rewrite cleanField_dynamiczone by assumption.
        rewrite mapM_fixed; [reflexivity|].
        eapply Forall2_Forall_r; [exact Hmap|]. cbv beta.
        intros e c Hin H. inv_bind_as H d Hd'. inv_bind_as H s' Hs'.
        specialize (Helems elems eq_refl). rewrite Forall_forall in Helems.
        destruct (Helems e Hin s' c H) as [[Hfix [props ->]] Hkeep].
        apply member_Ok in Hd'. subst d.
        cbn [member bind]. rewrite (Hkeep (discriminators _ _ Hs')).
        rewrite Hs'. cbn [bind]. exact Hfix.
      * rewrite cleanField_unwalked in Ho; auto. injection Ho as <-.
        constructor; [|constructor]. apply cleanField_unwalked; auto.
    + rewrite cleanField_unwalked in Ho; auto. injection Ho as <-.
      constructor; [|constructor]. apply cleanField_unwalked; auto.
Qed.

Lemma second_pass rec schema es outs :
  NoDup (keys es) ->
  Forall (fun kv => stable rec (snd kv)) es ->
  Forall (fun kv => forall elems, snd kv = VArr elems ->
                                  Forall (stable_entry rec) elems) es ->
  Forall2 (fun kv o => cleanField componentSchema fields rec schema kv = Ok o) es outs ->
  clean (VObj (List.concat outs)) schema = Ok (VObj (List.concat outs)).
Proof.
  intros Hnd H1 H2 HF.
  apply recursiveCleanData_Ok.
  { simpl. eapply NoDup_keys_cleaned; eassumption. }
  split; [discriminate|]. split; [discriminate|].
  exists (map (fun kv => [kv]) (List.concat outs)). simpl.
  split; [|now rewrite concat_singletons].
  assert (G : Forall (fun kv => cleanField componentSchema fields clean schema kv
                                = Ok [kv]) (List.concat outs)).
  { clear Hnd. induction HF as [|[k v] o es outs Ho HF IH]; simpl; [constructor|].
    inversion H1; subst. inversion H2; subst.
    apply Forall_app. split; [|auto].
    eapply second_pass_field; eauto. }
  induction G; simpl; constructor; assumption.
Qed.

(** A record is stable as soon as the recursive calls of its walk are. *)
Lemma stable_record data :
  NoDup (keys (ownEntries data)) ->
  Forall (fun kv => stable (inner componentSchema fields data) (snd kv))
    (ownEntries data) ->
  Forall (fun kv => forall elems,
              snd kv = VArr elems ->
              Forall (stable_entry (inner componentSchema fields data)) elems)
    (ownEntries data) ->
  stable clean data.
Proof.
  intros Hnd H1 H2 s c Hc.
  apply recursiveCleanData_Ok in Hc; [|assumption].
  destruct Hc as [_ [_ [outs [HF ->]]]].
  split; [|eauto]. eapply second_pass; eassumption.
Qed.

Lemma stable_as_entry e :
  wf e -> stable clean e -> stable_entry clean e.
Proof.
  intros Hwf He s c Hc. split; [now apply He|].
  intros Hkept. eapply discriminator_preserved; try eassumption.
  now apply NoDup_keys_ownEntries.
Qed.

Lemma Forall_stable_entries (l : list value) :
  Forall wf l ->
  Forall (fun v => (wf v -> stable clean v) /\
                   forall elems, v = VArr elems ->
                                 Forall (fun e => wf e -> stable clean e) elems) l ->
  Forall (fun v => forall elems, v = VArr elems ->
                                 Forall (stable_entry clean) elems) l.
Proof.
  intros Hwf HP. rewrite Forall_forall in *. intros v Hin elems ->.
  destruct (HP _ Hin) as [_ Hel]. specialize (Hel elems eq_refl).
  specialize (Hwf _ Hin). apply wf_VArr in Hwf.
  rewrite Forall_forall in *. intros e He.
  apply stable_as_entry; auto.
Qed.

(** Every well-formed record is stable. *)
Lemma stable_all (v : value) :
  (wf v -> stable clean v) /\
  (forall elems, v = VArr elems -> Forall (fun e => wf e -> stable clean e) elems).
Proof.
  induction v as [| | b | n | s | elems IH | props IH] using value_ind;
    (split; [intros Hwf | intros l E; try discriminate E]).
  - intros s c H; discriminate H.
  - intros s c H; discriminate H.
  - intros s c [= <-]. split; [reflexivity | eauto].
  - intros s c [= <-]. split; [reflexivity | eauto].
  - apply stable_record.
    + apply NoDup_keys_indexed.
    + apply Forall_forall. intros kv _ s' c H. discriminate H.
    + apply Forall_forall. intros kv _ l _. apply Forall_forall.
      intros e _ s' c H. discriminate H.
  - apply wf_VArr in Hwf. apply stable_record.
    + apply NoDup_keys_indexed.
    + simpl. apply Forall_snd_indexed.
      rewrite Forall_forall in *. intros e He. now apply (IH e He), Hwf.
    + simpl. apply (Forall_snd_indexed
                      (fun v => forall l, v = VArr l -> Forall (stable_entry clean) l)).
      now apply Forall_stable_entries.
  - injection E as <-. eapply Forall_impl; [|exact IH]. cbv beta. tauto.
  - apply wf_VObj in Hwf. destruct Hwf as [Hnd Hwf]. apply stable_record.
    + exact Hnd.
    + simpl. rewrite Forall_forall in *. intros kv Hkv.
      now apply (IH kv Hkv), Hwf.
    + simpl.
      assert (G : Forall (fun v => forall l, v = VArr l ->
                                             Forall (stable_entry clean) l)
                    (map snd props)).
      { apply Forall_stable_entries; rewrite Forall_map; assumption. }
      now rewrite Forall_map in G.
Qed.

End SecondPass.

Lemma discriminator_keptb_spec fields schema :
  discriminator_keptb fields schema = true -> discriminator_kept fields schema.
Proof.
  unfold discriminator_keptb, discriminator_kept.
  rewrite !andb_true_iff, !negb_true_iff. intros [[Hex Hc] Hd].
  split; [assumption|].
  split; intros E; rewrite E in *; discriminate.
Qed.

(** The schemas that a lookup in a table can answer are its entries and
    [undefined]. *)
Lemma discriminators_of_table table fields :
  forallb (fun kv => discriminator_keptb fields (snd kv)) table = true ->
  discriminator_keptb fields VUndef = true ->
  forall identifier s,
    index (VObj table) identifier = Ok s -> discriminator_kept fields s.
Proof.
  intros Htable Hundef identifier s H. unfold index in H.
  inv_bind_as H k Hk. simpl in H. injection H as <-.
  apply discriminator_keptb_spec.
  destruct (assoc k table) as [x|] eqn:E; [|assumption].
  apply assoc_Some_In in E. rewrite forallb_forall in Htable.
  exact (Htable _ E).
Qed.


(** ** The store model *)

Example store_run_article :
  Store.run Sample.article Sample.articleSchema Sample.components defaultFields =
  (Ok (Some Sample.articleCleaned), Some Sample.article,
   Some Sample.articleSchema, Some Sample.components).
Proof. vm_compute. reflexivity. Qed.

Example store_run_page :
  Store.run SamplePage.page SamplePage.pageSchema (VObj []) defaultFields =
  (Ok (Some SamplePage.pageCleaned), Some SamplePage.page,
   Some SamplePage.pageSchema, Some (VObj [])).
Proof. vm_compute. reflexivity. Qed.

(** The two passes over the sample zone. *)
Example store_run_zone :
  Store.run SampleZone.zone SampleZone.zoneSchema SampleZone.zoneComponents
    defaultFields =
  (Ok (Some SampleZone.zoneOnce), Some SampleZone.zone,
   Some SampleZone.zoneSchema, Some SampleZone.zoneComponents) /\
  Store.run SampleZone.zoneOnce SampleZone.zoneSchema SampleZone.zoneComponents
    defaultFields =
  (Ok (Some SampleZone.zoneTwice), Some SampleZone.zoneOnce,
   Some SampleZone.zoneSchema, Some SampleZone.zoneComponents).
Proof. split; vm_compute; reflexivity. Qed.

(** A null entry in a dynamic zone: the call throws, in both models, and
    the arguments are as they were. *)
Example store_run_null_entry :
  Store.run (VObj [("id", VNum 1); ("sections", VArr [VNull])])
    SamplePage.pageSchema (VObj []) defaultFields =
  (Throw TypeError, Some (VObj [("id", VNum 1); ("sections", VArr [VNull])]),
   Some SamplePage.pageSchema, Some (VObj [])) /\
  contentManagementUtilRemoveFieldsFromData_default
    (VObj [("id", VNum 1); ("sections", VArr [VNull])])
    SamplePage.pageSchema (VObj [])
  = Throw TypeError.
Proof. split; vm_compute; reflexivity. Qed.

Module StoreFacts.
Import Store.

Lemma frame_refl n st : frame n st st.
Proof. split; auto. Qed.

Lemma frame_trans n st1 st2 st3 :
  frame n st1 st2 -> frame n st2 st3 -> frame n st1 st3.
Proof.
  intros [L1 H1] [L2 H2]. split; [lia|].
  intros l Hl. now rewrite H2, H1.
Qed.

Lemma write_length l c st : List.length (write l c st) = List.length st.
Proof.
  revert l; induction st as [|x st IH]; intros [|l]; simpl; auto.
Qed.

Lemma write_other l c st l' :
  l' <> l -> nth_error (write l c st) l' = nth_error st l'.
Proof.
  revert l l'; induction st as [|x st IH]; intros [|l] [|l'] H; simpl; auto;
    try contradiction.
Qed.

Lemma frame_write n l c st : n <= l -> frame n st (write l c st).
Proof.
  intros H. split; [now rewrite write_length|].
  intros l' Hl'. apply write_other. lia.
Qed.

Lemma frame_alloc n c st :
  n <= List.length st -> frame n st (snd (alloc c st)).
Proof.
  intros H. simpl. split; [rewrite length_app; lia|].
  intros l Hl. apply nth_error_app1. lia.
Qed.

Lemma keeps_ret {A} n (a : A) : keeps n (ret a).
Proof. intros st _. apply frame_refl. Qed.

Lemma keeps_throw {A} n e : keeps n (@throw A e).
Proof. intros st _. apply frame_refl. Qed.

Lemma keeps_read {A} n (f : store -> A) : keeps n (read f).
Proof. intros st _. apply frame_refl. Qed.

Lemma keeps_attempt {A} n (f : store -> result A) : keeps n (attempt f).
Proof. intros st _. apply frame_refl. Qed.

Lemma keeps_bind {A B} n (m : M A) (k : A -> M B) :
  keeps n m -> (forall a, keeps n (k a)) -> keeps n (bindM m k).
Proof.
  intros Hm Hk st Hst. unfold bindM.
  specialize (Hm st Hst). destruct (m st) as [[a|e] st']; simpl in *; auto.
  eapply frame_trans; [exact Hm|]. apply Hk. destruct Hm. lia.
Qed.

Lemma keeps_update n l f : n <= l -> keeps n (update l f).
Proof.
  intros H st _. unfold update.
  destruct (nth_error st l) as [[props|es]|]; simpl;
    auto using frame_refl, frame_write.
Qed.

Lemma keeps_push n a x : n <= a -> keeps n (push a x).
Proof.
  intros H st _. unfold push.
  destruct (nth_error st a) as [[props|es]|]; simpl;
    auto using frame_refl, frame_write.
Qed.

Lemma keeps_reduce n f ks :
  (forall k, keeps n (f k)) -> keeps n (reduce f ks).
Proof.
  intros Hf. induction ks as [|k ks IH]; simpl.
  - apply keeps_ret.
  - apply keeps_bind; auto.
Qed.

Lemma keeps_mapLoop n f value a i count :
  (forall x, keeps n (f x)) -> n <= a -> keeps n (mapLoop f value a i count).
Proof.
  intros Hf Ha. revert i; induction count as [|count IH]; intros i; simpl.
  - apply keeps_ret.
  - apply keeps_bind; [apply keeps_read|]. intros entry.
    apply keeps_bind; [apply Hf|]. intros image.
    apply keeps_bind; [now apply keeps_push|]. intros _. apply IH.
Qed.

(** [map] writes to the array it allocates only. *)
Lemma keeps_map n f value :
  (forall x, keeps n (f x)) -> keeps n (Store.map f value).
Proof.
  intros Hf st Hst. unfold Store.map.
  pose proof (frame_alloc n (CArr []) st Hst) as Ha. simpl in Ha.
  unfold alloc. cbv iota beta zeta.
  match goal with
  | |- context [mapLoop ?g ?v ?a ?i ?c ?s] =>
      pose proof (keeps_mapLoop n g v a i c Hf Hst s) as Hk;
      destruct (mapLoop g v a i c s) as [[u|e] st'']
  end; simpl in *;
    (eapply frame_trans; [exact Ha|]; apply Hk; rewrite length_app; lia).
Qed.

(** The reducer writes to its accumulator and to fresh objects only. *)
Lemma keeps_callback n componentSchema fields depth rec data schema acc current :
  (forall d s, keeps n (rec d s)) -> n <= acc ->
  keeps n (callback componentSchema fields depth rec data schema acc current).
Proof.
  intros Hrec Hacc. unfold callback.
  repeat (apply keeps_bind; [apply keeps_read|]; intros ?).
  repeat match goal with
         | |- keeps _ (if ?b then _ else _) => destruct b
         | |- keeps _ (deleteProp _ _) => now apply keeps_update
         | |- keeps _ (setProp _ _ _) => now apply keeps_update
         | |- keeps _ (ret _) => apply keeps_ret
         | |- keeps _ (attempt _) => apply keeps_attempt
         | |- keeps _ (Store.map _ _) => apply keeps_map; intros ?
         | |- keeps _ (rec _ _) => apply Hrec
         | |- keeps _ (bindM _ _) => apply keeps_bind; [|intros ?]
         end.
Qed.

Lemma keeps_body n componentSchema fields depth rec data schema :
  (forall d s, keeps n (rec d s)) ->
  keeps n (body componentSchema fields depth rec data schema).
Proof.
  intros Hrec. unfold body.
  assert (G : keeps n
                (ks <~ read (fun st => keys (ownEntries st data)) ;;
                 acc <~ assign data ;;
                 _ <~ reduce (callback componentSchema fields depth rec data schema acc) ks ;;
                 ret (RLoc acc))).
  { apply keeps_bind; [apply keeps_read|]. intros ks st Hst.
    unfold bindM at 1, assign. simpl alloc. cbv iota beta.
    pose proof (frame_alloc n (CObj (ownEntries st data)) st Hst) as Ha.
    simpl in Ha. eapply frame_trans; [exact Ha|].
    apply keeps_bind; [|intros; apply keeps_ret|rewrite length_app; lia].
    apply keeps_reduce. intros k. now apply keeps_callback. }
  destruct data; auto using keeps_throw.
Qed.

(** A call writes to no object that the store held before it. *)
Lemma keeps_recursiveCleanData n componentSchema fields depth data schema :
  keeps n (recursiveCleanData componentSchema fields depth data schema).
Proof.
  revert data schema; induction depth as [|depth IH]; intros data schema; simpl.
  - apply keeps_throw.
  - apply keeps_body. exact IH.
Qed.

Lemma traverse_ext_Some {A B} (f g : A -> option B) l out :
  (forall x y, In x l -> f x = Some y -> g x = Some y) ->
  traverse f l = Some out -> traverse g l = Some out.
Proof.
  revert out; induction l as [|x l IH]; intros out H; simpl; [auto|].
  destruct (f x) as [y|] eqn:Hx; [|discriminate].
  destruct (traverse f l) as [ys|] eqn:Hl; [|discriminate].
  intros [= <-]. rewrite (H x y (or_introl eq_refl) Hx).
  rewrite (IH ys); [reflexivity | | reflexivity].
  intros x' y' Hin. apply H. now right.
Qed.

(** A tree read before the call reads the same after it. *)
Lemma decode_frame st st' n v t :
  frame (List.length st) st st' ->
  decode n st v = Some t -> decode n st' v = Some t.
Proof.
  intros [_ Hf]. revert v t; induction n as [|n IH]; intros v t;
    destruct v; simpl; auto.
  destruct (nth_error st l) as [c|] eqn:E; [|discriminate].
  assert (Hl : l < List.length st) by (apply nth_error_Some; congruence).
  rewrite (Hf l Hl), E. destruct c as [props|es].
  - destruct (traverse _ props) as [ps|] eqn:Hp; [|discriminate].
    intros [= <-].
    erewrite traverse_ext_Some; [reflexivity | | exact Hp].
    cbv beta. intros kv y _. destruct (decode n st (snd kv)) eqn:Hd; [|discriminate].
    now rewrite (IH _ _ Hd).
  - destruct (traverse _ es) as [ts|] eqn:Hp; [|discriminate].
    intros [= <-].
    erewrite traverse_ext_Some; [reflexivity | | exact Hp].
    intros x y _. apply IH.
Qed.

(** A call that returns answers the object it allocated first. *)
Lemma output_allocated componentSchema fields depth data schema st out :
  fst (recursiveCleanData componentSchema fields depth data schema st)
  = Ok out ->
  out = RLoc (List.length st).
Proof.
  destruct depth as [|depth]; simpl; [discriminate|].
  unfold body.
  assert (G : fst ((ks <~ read (fun st => keys (ownEntries st data)) ;;
                    acc <~ assign data ;;
                    _ <~ reduce
                           (callback componentSchema fields depth
                              (recursiveCleanData componentSchema fields depth)
                              data schema acc) ks ;;
                    ret (RLoc acc)) st) = Ok out ->
              out = RLoc (List.length st)).
  { unfold bindM at 1 2, read, assign, alloc.
    cbv beta iota zeta. unfold bindM, ret.
    destruct (reduce _ _ _) as [[u|e] st']; simpl; [|discriminate].
    now intros [= <-]. }
  destruct data; try exact G; discriminate.
Qed.

End StoreFacts.

(** C9: whatever the outcome of a call, every object that the store held
    before it (the record, the schemas, the component table and all they
    reach) is the same object after it, so every tree that could be read
    from the store before the call reads the same after it; the deletions
    and assignments of the walk go to the objects it allocates, the first
    of which is the output. *)
Theorem input_unchanged componentSchema fields depth data schema st :
  let run := Store.recursiveCleanData componentSchema fields depth data schema st in
  (forall l c, nth_error st l = Some c -> nth_error (snd run) l = Some c) /\
  (forall n v t,
     Store.decode n st v = Some t -> Store.decode n (snd run) v = Some t) /\
  (forall out, fst run = Ok out -> out = Store.RLoc (List.length st)).
Proof.
  intros run.
  pose proof (StoreFacts.keeps_recursiveCleanData (List.length st)
                componentSchema fields depth data schema st (le_n _)) as Hf.
  fold run in Hf. split; [|split].
  - intros l c Hl. destruct Hf as [_ Hf]. rewrite Hf; [assumption|].
    apply nth_error_Some. congruence.
  - intros n v t. now apply StoreFacts.decode_frame.
  - intros out. apply StoreFacts.output_allocated.
Qed.

Ltac wf_sample := simpl; repeat split; nodup_keys.


(** ** The store model against the tree model *)

Module Refinement.
Import StoreFacts.

Lemma Forall2_transfer {A B} (R R' : A -> B -> Prop) (l : list A) (l' : list B) :
  Forall (fun y => forall x, R x y -> R' x y) l' ->
  Forall2 R l l' -> Forall2 R' l l'.
Proof.
  intros H HF; induction HF as [|x y l l' Hxy _ IH]; constructor;
    inversion H; subst; auto.
Qed.

(** A representation moves to any Store.store that holds the same objects at
    the addresses it goes through. *)
Lemma rep_transfer (P Q : Store.loc -> Prop) st st' t :
  (forall l c, P l -> nth_error st l = Some c ->
               Q l /\ nth_error st' l = Some c) ->
  forall r, Store.rep P st r t -> Store.rep Q st' r t.
Proof.
  intros H. induction t as [| | b | n | s | ts IH | props IH] using value_ind;
    intros r Hr; inversion Hr; subst; try constructor.
  - destruct (H _ _ H1 H2) as [HQ Hst']. econstructor; try eassumption.
    eapply Forall2_transfer; [|eassumption]. exact IH.
  - destruct (H _ _ H1 H2) as [HQ Hst']. econstructor; try eassumption.
    eapply Forall2_transfer; [|eassumption].
    eapply Forall_impl; [|exact IH]. cbv beta.
    intros kv Hkv rp [Hk Hrep]. split; [assumption | now apply Hkv].
Qed.

Lemma rep_weaken (P Q : Store.loc -> Prop) st r t :
  (forall l, P l -> Q l) -> Store.rep P st r t -> Store.rep Q st r t.
Proof. intros H. apply rep_transfer. intros l c Hl Hc. auto. Qed.

Lemma rep_evolves (P : Store.loc -> Prop) a st st' r t :
  ~ P a -> Store.evolves a st st' -> Store.rep P st r t -> Store.rep P st' r t.
Proof.
  intros Ha [_ He]. apply rep_transfer. intros l c Hl Hc. split; [assumption|].
  rewrite He; [assumption | apply nth_error_Some; congruence | congruence].
Qed.

Lemma rep_entries_evolves (P : Store.loc -> Prop) a st st' rprops props :
  ~ P a -> Store.evolves a st st' ->
  Store.rep_entries P st rprops props -> Store.rep_entries P st' rprops props.
Proof.
  intros Ha He H. eapply Forall2_impl; [|exact H]. cbv beta.
  intros rp p0 [Hk Hr]. split; [assumption|]. eapply rep_evolves; eassumption.
Qed.

Lemma rep_entries_weaken (P Q : Store.loc -> Prop) st rprops props :
  (forall l, P l -> Q l) ->
  Store.rep_entries P st rprops props -> Store.rep_entries Q st rprops props.
Proof.
  intros HPQ H. eapply Forall2_impl; [|exact H]. cbv beta.
  intros rp p0 [Hk Hr]. split; [assumption|]. eapply rep_weaken; eassumption.
Qed.

Lemma evolves_refl a st : Store.evolves a st st.
Proof. split; auto. Qed.

Lemma evolves_trans a st1 st2 st3 :
  Store.evolves a st1 st2 -> Store.evolves a st2 st3 -> Store.evolves a st1 st3.
Proof.
  intros [L1 H1] [L2 H2]. split; [lia|].
  intros l Hl Hne. rewrite H2, H1; auto. lia.
Qed.

Lemma frame_evolves a st st' : Store.frame (List.length st) st st' -> Store.evolves a st st'.
Proof. intros [L H]. split; auto. Qed.

Lemma write_evolves a c st : Store.evolves a st (Store.write a c st).
Proof.
  split; [now rewrite write_length|]. intros l _ Hne. now apply write_other.
Qed.

Lemma write_same a c st :
  a < List.length st -> nth_error (Store.write a c st) a = Some c.
Proof.
  revert a; induction st as [|x st IH]; intros [|a] H; simpl in *; try lia; auto.
  apply IH. lia.
Qed.

(** *** Reading the Store.store is reading the tree *)

Section Reads.
Variable P : Store.loc -> Prop.
Variable st : Store.store.

Lemma rep_truthy r t : Store.rep P st r t -> Store.truthy r = JS.truthy t.
Proof. intros H; inversion H; reflexivity. Qed.

Lemma rep_strictEqStr s r t :
  Store.rep P st r t -> Store.strictEqStr s r = JS.strictEqStr s t.
Proof. intros H; inversion H; reflexivity. Qed.

Lemma rep_elems r ts :
  Store.rep P st r (VArr ts) ->
  exists rs, Store.elems st r = Some rs /\ Forall2 (Store.rep P st) rs ts.
Proof.
  intros H; inversion H; subst. simpl.
  match goal with E : nth_error st _ = _ |- _ => rewrite E end. eauto.
Qed.

Lemma rep_isArray r t : Store.rep P st r t -> Store.isArray st r = JS.isArray t.
Proof.
  intros H; inversion H; subst; unfold Store.isArray; simpl; try reflexivity;
    match goal with E : nth_error st _ = _ |- _ => now rewrite E end.
Qed.

Lemma rep_elems_not_array r t :
  Store.rep P st r t -> JS.isArray t = false -> Store.elems st r = None.
Proof.
  intros H Harr. rewrite <- (rep_isArray _ _ H) in Harr.
  unfold Store.isArray in Harr. now destruct (Store.elems st r).
Qed.

Lemma rep_indexed i rs ts :
  Forall2 (Store.rep P st) rs ts -> Store.rep_entries P st (indexed i rs) (indexed i ts).
Proof.
  intros H; revert i; induction H; intros i; simpl; constructor; auto.
  now apply IHForall2.
Qed.

Lemma rep_chars s : Forall2 (Store.rep P st) (Store.chars s) (JS.chars s).
Proof. induction s; simpl; constructor; auto. constructor. Qed.

Lemma rep_ownEntries r t :
  Store.rep P st r t -> Store.rep_entries P st (Store.ownEntries st r) (JS.ownEntries t).
Proof.
  intros H; inversion H; subst; simpl; try constructor.
  - apply rep_indexed, rep_chars.
  - match goal with E : nth_error st _ = _ |- _ => rewrite E end.
    now apply rep_indexed.
  - match goal with E : nth_error st _ = _ |- _ => now rewrite E end.
Qed.

Lemma rep_entries_keys rprops props :
  Store.rep_entries P st rprops props -> keys rprops = keys props.
Proof.
  induction 1 as [|rp p0 l l' [Hk _] _ IH]; simpl; [reflexivity|].
  now rewrite Hk, IH.
Qed.

Lemma rep_assoc k rprops props :
  Store.rep_entries P st rprops props ->
  match assoc k props with
  | Some x => exists rx, assoc k rprops = Some rx /\ Store.rep P st rx x
  | None => assoc k rprops = None
  end.
Proof.
  induction 1 as [|[k1 rx] [k2 x] l l' [Hk Hr] _ IH]; simpl in *; [reflexivity|].
  subst k1. destruct (k2 =? k); [eauto | exact IH].
Qed.

Lemma rep_nth i rs ts :
  Forall2 (Store.rep P st) rs ts -> Store.rep P st (nth i rs Store.RUndef) (nth i ts VUndef).
Proof.
  intros H; revert i; induction H; intros [|i]; simpl; auto; constructor.
Qed.

Lemma rep_elemAt k rs ts :
  Forall2 (Store.rep P st) rs ts -> Store.rep P st (Store.elemAt k rs) (JS.elemAt k ts).
Proof.
  intros H. unfold Store.elemAt, JS.elemAt.
  rewrite (Forall2_length H).
  destruct (k =? "length"); [constructor|].
  destruct (indexOfKey k (List.length ts)); [now apply rep_nth | constructor].
Qed.

Lemma rep_prop r t k :
  Store.rep P st r t -> Store.rep P st (Store.prop st r k) (JS.prop t k).
Proof.
  intros H; inversion H; subst; simpl; try constructor.
  - apply rep_elemAt, rep_chars.
  - match goal with E : nth_error st _ = _ |- _ => rewrite E end.
    now apply rep_elemAt.
  - match goal with E : nth_error st _ = _ |- _ => rewrite E end.
    match goal with F : Forall2 _ _ _ |- _ => pose proof (rep_assoc k _ _ F) as G end.
    destruct (assoc k props) as [x|].
    + destruct G as [rx [-> Hrx]]. exact Hrx.
    + rewrite G. constructor.
Qed.

Lemma rep_member r t k :
  Store.rep P st r t -> Store.rep_result P st (Store.member r k st) (JS.member t k).
Proof.
  intros H. pose proof (rep_prop _ _ k H) as Hp.
  inversion H; subst; simpl; auto.
Qed.

Lemma height_elem (ts : list value) (x : value) :
  In x ts -> S (height x) <= height (VArr ts).
Proof.
  simpl. induction ts as [|y ts IH]; simpl; [tauto|].
  intros [-> | Hin]; [lia|]. specialize (IH Hin). lia.
Qed.

Lemma height_field (props : entries) (kv : string * value) :
  In kv props -> S (height (snd kv)) <= height (VObj props).
Proof.
  simpl. induction props as [|y ts IH]; simpl; [tauto|].
  intros [-> | Hin]; [lia|]. specialize (IH Hin). lia.
Qed.

Lemma joinWith_rel {A B} (f : A -> result string) (g : B -> result string) l l' :
  Forall2 (fun x y => f x = g y) l l' -> joinWith f l = joinWith g l'.
Proof.
  induction 1 as [|x y l l' Hxy HF IH]; simpl; [reflexivity|].
  rewrite Hxy, IH. now destruct HF.
Qed.

Lemma rep_toString t :
  forall r d, Store.rep P st r t -> height t <= d ->
              Store.toString d r st = JS.toString t.
Proof.
  induction t as [| | b | n | s | ts IH | props IH] using value_ind;
    intros r d Hr Hd; inversion Hr; subst; try reflexivity;
    try (destruct d; reflexivity).
  - (* an array *)
    destruct d as [|d]; [simpl in Hd; lia|].
    simpl Store.toString.
    match goal with E : nth_error st _ = _ |- _ => rewrite E end.
    simpl JS.toString. apply joinWith_rel.
    assert (Hh : forall x, In x ts -> height x <= d).
    { intros x Hx. apply height_elem in Hx. lia. }
    match goal with F : Forall2 _ rs ts |- _ =>
      eapply Forall2_transfer; [|exact F] end.
    rewrite Forall_forall in *. intros x Hx rx Hrx.
    pose proof (IH x Hx _ d Hrx (Hh x Hx)) as E.
    inversion Hrx; subst; try reflexivity; exact E.
  - (* an object *)
    destruct d as [|d]; [simpl in Hd; lia|]. simpl.
    match goal with E : nth_error st _ = _ |- _ => rewrite E end.
    match goal with F : Forall2 _ _ props |- _ =>
      pose proof (rep_assoc "toString" _ _ F) as G end.
    destruct (assoc "toString" props).
    + destruct G as [rx [-> _]]. reflexivity.
    + now rewrite G.
Qed.

Lemma rep_index rtable table rkey key d :
  Store.rep P st rtable table -> Store.rep P st rkey key -> height key <= d ->
  Store.rep_result P st (Store.index d rtable rkey st) (JS.index table key).
Proof.
  intros Ht Hk Hd. unfold Store.index, JS.index.
  rewrite (rep_toString _ _ _ Hk Hd).
  destruct (JS.toString key) as [k|e]; simpl; [|reflexivity].
  now apply rep_member.
Qed.

Lemma rep_baseGet path :
  forall r t, Store.rep P st r t ->
              Store.rep P st (Store.baseGet st r path) (Lodash.baseGet t path).
Proof.
  induction path as [|k path IH]; intros r t H; simpl; [assumption|].
  pose proof (rep_prop _ _ k H) as Hp.
  inversion H; subst; try constructor; now apply IH.
Qed.

Lemma rep_get r t path rdefault default :
  Store.rep P st r t -> Store.rep P st rdefault default ->
  Store.rep P st (Store.get r path rdefault st) (Lodash.get t path default).
Proof.
  intros H Hd. unfold Store.get, Lodash.get.
  pose proof (rep_baseGet path _ _ H) as Hb.
  inversion Hb; subst; try assumption; econstructor; eassumption.
Qed.

Lemma rep_getType r t k :
  Store.rep P st r t -> Store.rep P st (Store.getType r k st) (getType t k).
Proof. intros H. apply rep_get; [assumption | constructor]. Qed.

Lemma rep_getOtherInfos r t arr :
  Store.rep P st r t -> Store.rep P st (Store.getOtherInfos r arr st) (getOtherInfos t arr).
Proof. intros H. apply rep_get; [assumption | constructor]. Qed.

Lemma rep_existsb k rs ts :
  Forall2 (Store.rep P st) rs ts ->
  existsb (Store.strictEqStr k) rs = existsb (JS.strictEqStr k) ts.
Proof.
  induction 1 as [|r t rs ts Hr _ IH]; simpl; [reflexivity|].
  now rewrite (rep_strictEqStr _ _ _ Hr), IH.
Qed.

Lemma rep_excluded fields r t k :
  Store.rep P st r t -> Store.excluded fields r k st = excluded fields t k.
Proof.
  intros H. unfold Store.excluded, excluded.
  pose proof (rep_get _ _ ["options"; "timestamps"] Store.RUndef VUndef H
                (Store.rep_undef P st)) as Hts.
  apply rep_existsb. apply Forall2_app.
  - clear. induction fields; simpl; constructor; auto. constructor.
  - destruct (Lodash.get t ["options"; "timestamps"] VUndef) eqn:E;
      try (rewrite (rep_elems_not_array _ _ Hts eq_refl); constructor).
    destruct (rep_elems _ _ Hts) as [rs [-> HF]]. exact HF.
Qed.

End Reads.

(** *** Heights *)

Lemma height_nth (ts : list value) i : height (nth i ts VUndef) <= height (VArr ts).
Proof.
  destruct (nth_in_or_default i ts VUndef) as [H | ->]; [|simpl; lia].
  apply height_elem in H. lia.
Qed.

Lemma height_elemAt k (ts : list value) : height (JS.elemAt k ts) <= height (VArr ts).
Proof.
  unfold JS.elemAt. destruct (k =? "length"); [simpl; lia|].
  destruct (indexOfKey k (List.length ts)); [apply height_nth | simpl; lia].
Qed.

Lemma height_elemAt_chars k s : height (JS.elemAt k (JS.chars s)) = 0.
Proof.
  unfold JS.elemAt. destruct (k =? "length"); [reflexivity|].
  destruct (indexOfKey k _) as [i|]; [|reflexivity].
  assert (G : Forall (fun v => height v = 0) (JS.chars s)).
  { apply Forall_chars. reflexivity. }
  destruct (nth_in_or_default i (JS.chars s) VUndef) as [Hin | ->];
    [|reflexivity].
  rewrite Forall_forall in G. now apply G.
Qed.

Lemma height_prop t k : height (JS.prop t k) <= height t.
Proof.
  destruct t; simpl JS.prop; try (simpl; lia).
  - rewrite height_elemAt_chars. lia.
  - apply height_elemAt.
  - destruct (assoc k props) as [x|] eqn:E; [|simpl; lia].
    apply assoc_Some_In in E. apply height_field in E. simpl in *. lia.
Qed.

Lemma height_baseGet path : forall t, height (Lodash.baseGet t path) <= height t.
Proof.
  induction path as [|k path IH]; intros t; simpl; [lia|].
  assert (H : height (Lodash.baseGet (JS.prop t k) path) <= height t).
  { etransitivity; [apply IH | apply height_prop]. }
  destruct t; simpl in *; lia.
Qed.

Lemma height_get t path default :
  height default = 0 -> height (Lodash.get t path default) <= height t.
Proof.
  intros Hd. unfold Lodash.get. pose proof (height_baseGet path t) as H.
  destruct (Lodash.baseGet t path); simpl in *; lia.
Qed.

Lemma height_index table key s :
  JS.index table key = Ok s -> height s <= height table.
Proof.
  unfold JS.index. intros H. inv_bind_as H k Hk.
  apply member_Ok in H. subst s. apply height_prop.
Qed.

Lemma elemAt_nth i (l : list value) :
  i < List.length l -> JS.elemAt (string_of_nat i) l = nth i l VUndef.
Proof.
  intros Hi. unfold JS.elemAt.
  destruct (String.eqb_spec (string_of_nat i) "length") as [E|_];
    [now apply string_of_nat_length in E|].
  now rewrite indexOfKey_string_of_nat.
Qed.

(** *** Writing the store is updating the accumulator *)

Lemma rep_entries_delete P st rprops props k :
  Store.rep_entries P st rprops props ->
  Store.rep_entries P st (delete rprops k) (delete props k).
Proof.
  induction 1 as [|[k1 rx] [k2 x] l l' [Hk Hr] _ IH]; simpl in *; [constructor|].
  subst k1. destruct (k2 =? k); [exact IH|]. constructor; auto.
Qed.

Lemma rep_entries_set P st rprops props k rx x :
  Store.rep_entries P st rprops props ->
  Store.rep P st rx x ->
  Store.rep_entries P st (set rprops k rx) (set props k x).
Proof.
  intros H Hx.
  induction H as [|[k1 ry] [k2 y] l l' [Hk Hr] HF IH]; simpl in *.
  - constructor; [|constructor]. auto.
  - subst k1. destruct (k2 =? k); constructor; auto.
Qed.

(** *** The loops *)

Lemma mapLoop_S f v a i n st :
  Store.mapLoop f v a i (S n) st =
  match f (Store.prop st v (string_of_nat i)) st with
  | (Ok image, st1) =>
      match Store.push a image st1 with
      | (Ok _, st2) => Store.mapLoop f v a (S i) n st2
      | (Throw e, st2) => (Throw e, st2)
      end
  | (Throw e, st1) => (Throw e, st1)
  end.
Proof. reflexivity. Qed.

Lemma sim_mapLoop lo a f g rv all st0 :
  lo <= a ->
  forall rest done rdone cdone st crest,
    all = done ++ rest ->
    Store.evolves a st0 st -> a < List.length st ->
    Store.rep (fun l => l < lo) st rv (VArr all) ->
    nth_error st a = Some (Store.CArr rdone) ->
    Forall2 (Store.rep (fun l => l < lo \/ a < l) st) rdone cdone ->
    Forall (entry_sim lo a st0 f g) rest ->
    mapM g rest = Ok crest ->
    exists st' rfinal,
      Store.mapLoop f rv a (List.length done) (List.length rest) st = (Ok tt, st') /\
      Store.evolves a st st' /\
      nth_error st' a = Some (Store.CArr rfinal) /\
      Forall2 (Store.rep (fun l => l < lo \/ a < l) st') rfinal (cdone ++ crest).
Proof.
  intros Hlo. induction rest as [|e rest IH];
    intros done rdone cdone st crest Hall Hev Ha Hrv Hcell Hdone Hsim Hmap.
  - simpl in Hmap. injection Hmap as <-. exists st, rdone.
    rewrite app_nil_r. repeat split; auto using evolves_refl.
  - simpl in Hmap. inv_bind_as Hmap c Hc. inv_bind_as Hmap crest' Hrest.
    injection Hmap as <-. inversion Hsim as [|? ? He Hsim']; subst.
    simpl List.length. rewrite mapLoop_S.
    (* the entry read *)
    pose proof (rep_prop _ _ _ _ (string_of_nat (List.length done)) Hrv) as Hentry.
    simpl JS.prop in Hentry.
    rewrite elemAt_nth in Hentry by (rewrite length_app; simpl; lia).
    rewrite app_nth2, Nat.sub_diag in Hentry by lia. simpl in Hentry.
    (* the call on it *)
    destruct (He _ _ _ Hev Ha Hentry Hc) as [o [st1 [Hf [Ho Hframe]]]].
    rewrite Hf.
    (* the result stored *)
    assert (Hcell1 : nth_error st1 a = Some (Store.CArr rdone)).
    { destruct Hframe as [_ Hf1]. now rewrite Hf1. }
    unfold Store.push. rewrite Hcell1.
    set (st2 := Store.write a (Store.CArr (rdone ++ [o])) st1).
    assert (Hlen1 : List.length st <= List.length st1) by apply Hframe.
    assert (Hev12 : Store.evolves a st st2).
    { eapply evolves_trans; [apply frame_evolves; exact Hframe|].
      apply write_evolves. }
    assert (Hnot : ~ (a < lo)) by lia.
    assert (Hnot' : ~ (a < lo \/ a < a)) by lia.
    assert (H1 : done ++ e :: rest = (done ++ [e]) ++ rest)
      by now rewrite <- app_assoc.
    assert (H2 : Store.evolves a st0 st2)
      by (eapply evolves_trans; eassumption).
    assert (H3 : a < List.length st2) by (destruct Hev12; lia).
    assert (H4 : Store.rep (fun l => l < lo) st2 rv (VArr (done ++ e :: rest)))
      by exact (rep_evolves _ a st st2 _ _ Hnot Hev12 Hrv).
    assert (H5 : nth_error st2 a = Some (Store.CArr (rdone ++ [o])))
      by (apply write_same; lia).
    assert (H6 : Forall2 (Store.rep (fun l => l < lo \/ a < l) st2)
                   (rdone ++ [o]) (cdone ++ [c])).
    { apply Forall2_app.
      - eapply Forall2_impl; [|exact Hdone]. cbv beta.
        intros rx x Hx. exact (rep_evolves _ a st st2 _ _ Hnot' Hev12 Hx).
      - constructor; [|constructor].
        eapply rep_evolves; [exact Hnot' | apply write_evolves |].
        eapply rep_weaken; [|exact Ho]. cbv beta. intros l [Hl | Hl]; lia. }
    destruct (IH (done ++ [e]) (rdone ++ [o]) (cdone ++ [c]) st2 crest'
                H1 H2 H3 H4 H5 H6 Hsim' Hrest)
      as [st' [rfinal [Hloop [Hev' [Hcell' Hfinal]]]]].
    rewrite length_app in Hloop. simpl in Hloop.
    rewrite Nat.add_1_r in Hloop.
    exists st', rfinal. rewrite <- app_assoc in Hfinal. simpl in Hfinal.
    split; [exact Hloop|]. split; [|split; assumption].
    eapply evolves_trans; eassumption.
Qed.

Lemma sim_map lo f g rv elems st cleaned :
  lo <= List.length st ->
  Store.rep (fun l => l < lo) st rv (VArr elems) ->
  Forall (entry_sim lo (List.length st) (st ++ [Store.CArr []]) f g) elems ->
  mapM g elems = Ok cleaned ->
  exists st',
    Store.map f rv st = (Ok (Store.RLoc (List.length st)), st') /\
    Store.frame (List.length st) st st' /\
    Store.rep (fun l => l < lo \/ List.length st <= l) st'
      (Store.RLoc (List.length st)) (VArr cleaned).
Proof.
  intros Hlo Hrv Hsim Hmap.
  destruct (rep_elems _ _ _ _ Hrv) as [rs [Hrs HF]].
  unfold Store.map. rewrite Hrs. unfold Store.alloc.
  rewrite (Forall2_length HF).
  set (a := List.length st). set (st1 := st ++ [Store.CArr []]).
  assert (Hev1 : Store.evolves a st st1).
  { apply frame_evolves. apply (frame_alloc a (Store.CArr []) st). lia. }
  assert (Hnot : ~ (a < lo)) by lia.
  assert (Ha1 : a < List.length st1).
  { unfold st1. rewrite length_app. simpl. lia. }
  assert (Hcell1 : nth_error st1 a = Some (Store.CArr [])).
  { unfold st1, a. rewrite nth_error_app2, Nat.sub_diag by lia. reflexivity. }
  destruct (sim_mapLoop lo a f g rv elems st1 Hlo elems [] [] [] st1 cleaned
              eq_refl (evolves_refl a st1) Ha1
              (rep_evolves _ a st st1 _ _ Hnot Hev1 Hrv)
              Hcell1 (Forall2_nil _) Hsim Hmap)
    as [st' [rfinal [Hloop [Hev' [Hcell' Hfinal]]]]].
  simpl List.length in Hloop. rewrite Hloop.
  exists st'. split; [reflexivity|]. split.
  - destruct Hev1 as [L1 E1], Hev' as [L2 E2]. split; [lia|].
    intros l Hl. rewrite E2, E1; auto; lia.
  - econstructor; [right; lia | exact Hcell' |].
    eapply Forall2_impl; [|exact Hfinal]. cbv beta.
    intros rx x Hx. eapply rep_weaken; [|exact Hx]. cbv beta. lia.
Qed.

(** *** The calls on the entries of a sequence *)

Section Entries.
Variable fields : list string.
Variable CS : value.
Variable rcs : Store.ref.
Variable K depth : nat.
Variable rec1 : value -> value -> result value.
Variable rec2 : Store.ref -> Store.ref -> Store.M Store.ref.
Hypothesis HCS : height CS <= K.

Lemma entry_sim_dynamiczone lo a st0 e :
  lo <= a ->
  Store.rep (fun l => l < lo) st0 rcs CS ->
  height e <= depth ->
  simulates CS rcs K rec1 rec2 e ->
  entry_sim lo a st0
    (fun componentValue =>
       Store.bindM (Store.attempt (Store.member componentValue "__component"))
         (fun discriminator =>
            Store.bindM (Store.attempt (Store.index depth rcs discriminator))
              (fun s => rec2 componentValue s)))
    (fun componentValue =>
       discriminator <- JS.member componentValue "__component" ;;
       s <- JS.index CS discriminator ;;
       rec1 componentValue s)
    e.
Proof.
  intros Hlo Hcs He Hsim st re c Hev Ha Hre Hg.
  inv_bind_as Hg d Hd. inv_bind_as Hg s Hs.
  assert (Hnot : ~ (a < lo)) by lia.
  pose proof (rep_evolves _ a st0 st _ _ Hnot Hev Hcs) as Hcs'.
  pose proof (rep_member _ _ _ _ "__component" Hre) as Hm.
  rewrite Hd in Hm. unfold Store.rep_result in Hm.
  destruct (Store.member re "__component" st) as [rd|] eqn:Hrd; [|contradiction].
  assert (Hhd : height d <= depth).
  { apply member_Ok in Hd. subst d. etransitivity; [apply height_prop|]. exact He. }
  pose proof (rep_index _ _ _ _ _ _ depth Hcs' Hm Hhd) as Hi.
  rewrite Hs in Hi. unfold Store.rep_result in Hi.
  destruct (Store.index depth rcs rd st) as [rs|] eqn:Hrs; [|contradiction].
  assert (Hhs : height s <= K).
  { apply height_index in Hs. lia. }
  destruct (Hsim lo st re rs s c) as [o [st' [Hrun [Ho Hframe]]]]; auto; [lia|].
  exists o, st'. unfold Store.bindM, Store.attempt. rewrite Hrd, Hrs.
  auto.
Qed.

Lemma entry_sim_component lo a st0 e rcomponent component :
  lo <= a ->
  Store.rep (fun l => l < lo) st0 rcs CS ->
  Store.rep (fun l => l < lo) st0 rcomponent component ->
  height component <= depth ->
  simulates CS rcs K rec1 rec2 e ->
  entry_sim lo a st0
    (fun compoData =>
       Store.bindM (Store.attempt (Store.index depth rcs rcomponent))
         (fun s => rec2 compoData s))
    (fun compoData => s <- JS.index CS component ;; rec1 compoData s)
    e.
Proof.
  intros Hlo Hcs Hcomp Hh Hsim st re c Hev Ha Hre Hg.
  inv_bind_as Hg s Hs.
  assert (Hnot : ~ (a < lo)) by lia.
  pose proof (rep_evolves _ a st0 st _ _ Hnot Hev Hcs) as Hcs'.
  pose proof (rep_evolves _ a st0 st _ _ Hnot Hev Hcomp) as Hcomp'.
  pose proof (rep_index _ _ _ _ _ _ depth Hcs' Hcomp' Hh) as Hi.
  rewrite Hs in Hi. unfold Store.rep_result in Hi.
  destruct (Store.index depth rcs rcomponent st) as [rs|] eqn:Hrs; [|contradiction].
  assert (Hhs : height s <= K).
  { apply height_index in Hs. lia. }
  destruct (Hsim lo st re rs s c) as [o [st' [Hrun [Ho Hframe]]]]; auto; [lia|].
  exists o, st'. unfold Store.bindM, Store.attempt. rewrite Hrs.
  auto.
Qed.

End Entries.

(** *** One step of the reducer *)

Lemma sim_deleteProp lo acc st racc pacc k :
  lo <= acc -> acc < List.length st ->
  nth_error st acc = Some (Store.CObj racc) ->
  Store.rep_entries (fun l => l < lo \/ acc < l) st racc pacc ->
  exists st' racc',
    Store.deleteProp acc k st = (Ok tt, st') /\
    Store.evolves acc st st' /\
    nth_error st' acc = Some (Store.CObj racc') /\
    Store.rep_entries (fun l => l < lo \/ acc < l) st' racc' (delete pacc k).
Proof.
  intros Hlo Hacc Hcell Hrep.
  exists (Store.write acc (Store.CObj (delete racc k)) st), (delete racc k).
  unfold Store.deleteProp, Store.update. rewrite Hcell.
  split; [reflexivity|]. split; [apply write_evolves|].
  split; [now apply write_same|].
  eapply rep_entries_evolves; [|apply write_evolves|]; [lia|].
  now apply rep_entries_delete.
Qed.

Lemma sim_setProp lo acc st st1 racc pacc k o c :
  lo <= acc -> acc < List.length st ->
  nth_error st acc = Some (Store.CObj racc) ->
  Store.rep_entries (fun l => l < lo \/ acc < l) st racc pacc ->
  Store.frame (List.length st) st st1 ->
  Store.rep (fun l => l < lo \/ List.length st <= l) st1 o c ->
  exists st' racc',
    Store.setProp acc k o st1 = (Ok tt, st') /\
    Store.evolves acc st st' /\
    nth_error st' acc = Some (Store.CObj racc') /\
    Store.rep_entries (fun l => l < lo \/ acc < l) st' racc' (set pacc k c).
Proof.
  intros Hlo Hacc Hcell Hrep Hframe Ho.
  assert (Hcell1 : nth_error st1 acc = Some (Store.CObj racc)).
  { destruct Hframe as [_ E]. now rewrite E. }
  assert (Hlen : List.length st <= List.length st1) by apply Hframe.
  assert (Hnot : ~ (acc < lo \/ acc < acc)) by lia.
  exists (Store.write acc (Store.CObj (set racc k o)) st1), (set racc k o).
  unfold Store.setProp, Store.update. rewrite Hcell1.
  split; [reflexivity|]. split.
  { eapply evolves_trans; [apply frame_evolves; exact Hframe | apply write_evolves]. }
  split; [apply write_same; lia|].
  eapply rep_entries_evolves; [exact Hnot | apply write_evolves |].
  apply rep_entries_set.
  - eapply rep_entries_evolves; [exact Hnot | apply frame_evolves; exact Hframe |].
    exact Hrep.
  - eapply rep_weaken; [|exact Ho]. cbv beta. intros l [Hl | Hl]; lia.
Qed.

Lemma bindM_read {A B} (f : Store.store -> A) (k : A -> Store.M B) st :
  Store.bindM (Store.read f) k st = k (f st) st.
Proof. reflexivity. Qed.

Lemma bindM_run {A B} (m : Store.M A) (k : A -> Store.M B) st :
  Store.bindM m k st =
  match m st with
  | (Ok a, st') => k a st'
  | (Throw e, st') => (Throw e, st')
  end.
Proof. reflexivity. Qed.

Lemma isArray_VArr v : JS.isArray v = true -> exists elems, v = VArr elems.
Proof. destruct v; try discriminate. eauto. Qed.

Section Reducer.
Variable fields : list string.
Variable CS : value.
Variable rcs : Store.ref.
Variable K depth : nat.
Variable rec1 : value -> value -> result value.
Variable rec2 : Store.ref -> Store.ref -> Store.M Store.ref.
Hypothesis HCS : height CS <= K.
Hypothesis HK : K <= depth.

Lemma sim_callback lo acc st rdata data rschema schema racc pacc k v pacc' :
  lo <= acc -> acc < List.length st ->
  Store.rep (fun l => l < lo) st rdata data ->
  Store.rep (fun l => l < lo) st rschema schema ->
  Store.rep (fun l => l < lo) st rcs CS ->
  NoDup (keys (ownEntries data)) -> In (k, v) (ownEntries data) ->
  height schema <= K -> height v <= depth ->
  nth_error st acc = Some (Store.CObj racc) ->
  Store.rep_entries (fun l => l < lo \/ acc < l) st racc pacc ->
  simulates CS rcs K rec1 rec2 v ->
  (forall elems, v = VArr elems -> Forall (simulates CS rcs K rec1 rec2) elems) ->
  callback CS fields rec1 schema pacc k v = Ok pacc' ->
  exists st' racc',
    Store.callback rcs fields depth rec2 rdata rschema acc k st = (Ok tt, st') /\
    Store.evolves acc st st' /\
    nth_error st' acc = Some (Store.CObj racc') /\
    Store.rep_entries (fun l => l < lo \/ acc < l) st' racc' pacc'.
Proof.
  intros Hlo Hacc Hdata Hschema Hcs Hnd Hin Hhs Hhv Hcell Hentries Hsim Hsims Hpure.
  (* the reads *)
  assert (Hval : Store.rep (fun l => l < lo) st
                   (Store.get rdata [k] Store.RUndef st) v).
  { rewrite <- (get_own_entry data k v Hnd Hin).
    apply rep_get; [assumption | constructor]. }
  pose proof (rep_getType _ _ _ _ k Hschema) as Hty.
  pose proof (rep_getOtherInfos _ _ _ _ [k; "component"] Hschema) as Hcomp.
  pose proof (rep_getOtherInfos _ _ _ _ [k; "repeatable"] Hschema) as Hrep.
  assert (Hhc : height (getOtherInfos schema [k; "component"]) <= depth).
  { etransitivity; [apply height_get; reflexivity|]. lia. }
  unfold Store.callback. repeat (rewrite bindM_read; cbv beta).
  rewrite (rep_excluded _ _ fields _ _ k Hschema),
    (rep_truthy _ _ _ _ Hval), (rep_strictEqStr _ _ "dynamiczone" _ _ Hty),
    (rep_strictEqStr _ _ "component" _ _ Hty), (rep_isArray _ _ _ _ Hval),
    (rep_truthy _ _ _ _ Hrep).
  unfold callback in Hpure. cbv zeta in Hpure.
  destruct (excluded fields schema k).
  { injection Hpure as <-. eapply sim_deleteProp; eassumption. }
  destruct (JS.truthy v); cbn [negb andb] in *.
  2:{ injection Hpure as <-. exists st, racc. unfold Store.ret.
      repeat split; auto. }
  assert (Hlo' : lo <= List.length st) by lia.
  destruct (JS.strictEqStr "dynamiczone" (getType schema k)) eqn:Hdz;
    destruct (JS.isArray v) eqn:Harr; cbn [negb andb].
  - (* a dynamic zone *)
    destruct (isArray_VArr _ Harr) as [elems ->].
    inv_bind_as Hpure cleaned Hmap. injection Hpure as <-.
    edestruct (sim_map lo) as [st1 [Hrun [Hframe Ho]]];
      [exact Hlo' | exact Hval | | exact Hmap |].
    { specialize (Hsims elems eq_refl). rewrite Forall_forall in *.
      intros e He. apply (entry_sim_dynamiczone CS rcs K depth rec1 rec2 HCS).
      - lia.
      - eapply (rep_evolves _ (List.length st));
          [|apply frame_evolves, frame_alloc, le_n|exact Hcs].
        cbv beta. lia.
      - apply height_elem in He. lia.
      - now apply Hsims. }
    rewrite bindM_run, Hrun. eapply sim_setProp; eassumption.
  - (* declared a dynamic zone, not an array *)
    assert (Hc : JS.strictEqStr "component" (getType schema k) = false).
    { apply strictEqStr_true in Hdz. now rewrite Hdz. }
    rewrite Hc in *.
    assert (E : Ok pacc = Ok pacc') by (destruct v; try discriminate; exact Hpure).
    injection E as <-. exists st, racc. unfold Store.ret.
    repeat split; auto.
  - (* an array, not a dynamic zone *)
    destruct (isArray_VArr _ Harr) as [elems ->].
    destruct (JS.strictEqStr "component" (getType schema k)).
    2:{ injection Hpure as <-. exists st, racc. unfold Store.ret.
        repeat split; auto. }
    destruct (JS.truthy (getOtherInfos schema [k; "repeatable"]));
      cbn [negb andb].
    + inv_bind_as Hpure cleaned Hmap. injection Hpure as <-.
      edestruct (sim_map lo) as [st1 [Hrun [Hframe Ho]]];
        [exact Hlo' | exact Hval | | exact Hmap |].
      { specialize (Hsims elems eq_refl). rewrite Forall_forall in *.
        intros e He.
        apply (entry_sim_component CS rcs K depth rec1 rec2 HCS) with
          (component := getOtherInfos schema [k; "component"]).
        - lia.
        - eapply (rep_evolves _ (List.length st));
          [|apply frame_evolves, frame_alloc, le_n|exact Hcs].
          cbv beta. lia.
        - eapply (rep_evolves _ (List.length st));
          [|apply frame_evolves, frame_alloc, le_n|exact Hcomp].
          cbv beta. lia.
        - exact Hhc.
        - now apply Hsims. }
      rewrite bindM_run, Hrun. eapply sim_setProp; eassumption.
    + inv_bind_as Hpure s Hs. inv_bind_as Hpure c Hc. injection Hpure as <-.
      pose proof (rep_index _ _ _ _ _ _ depth Hcs Hcomp Hhc) as Hi.
      rewrite Hs in Hi. unfold Store.rep_result in Hi.
      rewrite bindM_run. unfold Store.attempt.
      destruct (Store.index depth rcs _ st) as [rs|] eqn:Hrs; [|contradiction].
      assert (Hhs' : height s <= K) by (apply height_index in Hs; lia).
      destruct (Hsim lo st _ rs s c Hlo' Hval Hi Hcs Hhs' Hc)
        as [o [st1 [Hrun [Ho Hframe]]]].
      rewrite bindM_run, Hrun. eapply sim_setProp; eassumption.
  - (* neither *)
    destruct (JS.strictEqStr "component" (getType schema k)).
    2:{ assert (E : Ok pacc = Ok pacc') by (destruct v; exact Hpure).
        injection E as <-. exists st, racc. unfold Store.ret.
        repeat split; auto. }
    assert (E : (s <- JS.index CS (getOtherInfos schema [k; "component"]) ;;
                 cleaned <- rec1 v s ;; Ok (set pacc k cleaned)) = Ok pacc').
    { destruct (JS.truthy (getOtherInfos schema [k; "repeatable"])), v;
        try discriminate Harr; exact Hpure. }
    clear Hpure. inv_bind_as E s Hs. inv_bind_as E c Hc. injection E as <-.
    destruct (JS.truthy (getOtherInfos schema [k; "repeatable"]));
      cbn [negb andb].
    all: pose proof (rep_index _ _ _ _ _ _ depth Hcs Hcomp Hhc) as Hi;
      rewrite Hs in Hi; unfold Store.rep_result in Hi;
      rewrite bindM_run; unfold Store.attempt;
      destruct (Store.index depth rcs _ st) as [rs|] eqn:Hrs; [|contradiction];
      assert (Hhs' : height s <= K) by (apply height_index in Hs; lia);
      destruct (Hsim lo st _ rs s c Hlo' Hval Hi Hcs Hhs' Hc)
        as [o [st1 [Hrun [Ho Hframe]]]];
      rewrite bindM_run, Hrun; eapply sim_setProp; eassumption.
Qed.

Local Abbreviation field_sim := (field_sim CS rcs K depth rec1 rec2).

Lemma sim_reduce lo acc rdata data rschema schema :
  lo <= acc ->
  NoDup (keys (ownEntries data)) ->
  height schema <= K ->
  forall es st racc pacc pfinal,
    incl es (ownEntries data) ->
    Forall field_sim es ->
    acc < List.length st ->
    Store.rep (fun l => l < lo) st rdata data ->
    Store.rep (fun l => l < lo) st rschema schema ->
    Store.rep (fun l => l < lo) st rcs CS ->
    nth_error st acc = Some (Store.CObj racc) ->
    Store.rep_entries (fun l => l < lo \/ acc < l) st racc pacc ->
    reduce (callback CS fields rec1 schema) es pacc = Ok pfinal ->
    exists st' racc',
      Store.reduce (Store.callback rcs fields depth rec2 rdata rschema acc)
        (keys es) st = (Ok tt, st') /\
      Store.evolves acc st st' /\
      nth_error st' acc = Some (Store.CObj racc') /\
      Store.rep_entries (fun l => l < lo \/ acc < l) st' racc' pfinal.
Proof.
  intros Hlo Hnd Hhs. induction es as [|[k v] es IH];
    intros st racc pacc pfinal Hincl Hsim Hacc Hdata Hschema Hcs Hcell Hentries Hpure.
  - simpl in Hpure. injection Hpure as <-. exists st, racc.
    simpl. unfold Store.ret. repeat split; auto.
  - simpl in Hpure. inv_bind_as Hpure pacc1 Hstep.
    inversion Hsim as [|? ? [Hh [Hv Hvs]] Hsim']; subst. simpl in Hh, Hv, Hvs.
    assert (Hin : In (k, v) (ownEntries data)) by (apply Hincl; now left).
    destruct (sim_callback lo acc st rdata data rschema schema racc pacc k v pacc1
                Hlo Hacc Hdata Hschema Hcs Hnd Hin Hhs Hh Hcell Hentries Hv Hvs Hstep)
      as [st1 [racc1 [Hrun [Hev [Hcell1 Hentries1]]]]].
    assert (Hnot : ~ (acc < lo)) by lia.
    destruct (IH st1 racc1 pacc1 pfinal) as [st' [racc' [Hrun' [Hev' [Hcell' Hfin]]]]];
      try assumption.
    + intros x Hx. apply Hincl. now right.
    + destruct Hev. lia.
    + exact (rep_evolves _ acc st st1 _ _ Hnot Hev Hdata).
    + exact (rep_evolves _ acc st st1 _ _ Hnot Hev Hschema).
    + exact (rep_evolves _ acc st st1 _ _ Hnot Hev Hcs).
    + exists st', racc'. simpl keys. simpl Store.reduce.
      rewrite bindM_run, Hrun. split; [exact Hrun'|].
      split; [eapply evolves_trans; eassumption|]. auto.
Qed.

(** One call, given the calls on the fields. *)
Lemma sim_body lo st rdata data rschema schema out :
  lo <= List.length st ->
  Store.rep (fun l => l < lo) st rdata data ->
  Store.rep (fun l => l < lo) st rschema schema ->
  Store.rep (fun l => l < lo) st rcs CS ->
  NoDup (keys (ownEntries data)) ->
  height schema <= K ->
  Forall field_sim (ownEntries data) ->
  (acc <- reduce (callback CS fields rec1 schema) (ownEntries data) (ownEntries data) ;;
   Ok (VObj acc)) = Ok out ->
  data <> VUndef -> data <> VNull ->
  exists o st',
    Store.body rcs fields depth rec2 rdata rschema st = (Ok o, st') /\
    Store.rep (fun l => l < lo \/ List.length st <= l) st' o out /\
    Store.frame (List.length st) st st'.
Proof.
  intros Hlo Hdata Hschema Hcs Hnd Hhs Hsim Hpure Hu Hn.
  inv_bind_as Hpure pfinal Hred. injection Hpure as <-.
  set (acc := List.length st).
  set (st1 := st ++ [Store.CObj (Store.ownEntries st rdata)]).
  assert (Hev1 : Store.evolves acc st st1).
  { apply frame_evolves. apply (frame_alloc acc _ st). unfold acc. lia. }
  assert (Hnot : ~ (acc < lo)) by (unfold acc; lia).
  assert (Hacc1 : acc < List.length st1).
  { unfold st1, acc. rewrite length_app. simpl. lia. }
  assert (Hcell1 : nth_error st1 acc = Some (Store.CObj (Store.ownEntries st rdata))).
  { unfold st1, acc. rewrite nth_error_app2, Nat.sub_diag by lia. reflexivity. }
  pose proof (rep_ownEntries _ _ _ _ Hdata) as Hentries.
  assert (Hentries1 : Store.rep_entries (fun l => l < lo \/ acc < l) st1
                        (Store.ownEntries st rdata) (ownEntries data)).
  { eapply rep_entries_weaken;
      [|exact (rep_entries_evolves _ acc st st1 _ _ Hnot Hev1 Hentries)].
    cbv beta. tauto. }
  destruct (sim_reduce lo acc rdata data rschema schema Hlo
              Hnd Hhs (ownEntries data) st1 _ _ pfinal (incl_refl _) Hsim Hacc1
              (rep_evolves _ acc st st1 _ _ Hnot Hev1 Hdata)
              (rep_evolves _ acc st st1 _ _ Hnot Hev1 Hschema)
              (rep_evolves _ acc st st1 _ _ Hnot Hev1 Hcs)
              Hcell1 Hentries1 Hred)
    as [st' [racc' [Hrun [Hev' [Hcell' Hfin]]]]].
  assert (Hbody : Store.body rcs fields depth rec2 rdata rschema st
                  = (Ok (Store.RLoc acc), st')).
  { assert (G : Store.bindM (Store.read (fun st => keys (Store.ownEntries st rdata)))
                  (fun ks => Store.bindM (Store.assign rdata)
                     (fun acc => Store.bindM
                        (Store.reduce
                           (Store.callback rcs fields depth rec2 rdata rschema acc) ks)
                        (fun _ => Store.ret (Store.RLoc acc)))) st
                = (Ok (Store.RLoc acc), st')).
    { rewrite bindM_read, bindM_run. unfold Store.assign, Store.alloc.
      fold acc. fold st1. rewrite bindM_run.
      rewrite (rep_entries_keys _ _ _ _ Hentries), Hrun. reflexivity. }
    unfold Store.body. inversion Hdata; subst; try exact G; congruence. }
  exists (Store.RLoc acc), st'. split; [exact Hbody|]. split.
  - econstructor; [right; unfold acc; lia | exact Hcell' |].
    eapply Forall2_impl; [|exact Hfin]. cbv beta.
    intros rp p0 [Hk Hr]. split; [assumption|].
    eapply rep_weaken; [|exact Hr]. cbv beta. unfold acc. lia.
  - destruct Hev1 as [L1 E1], Hev' as [L2 E2]. split; [lia|].
    intros l Hl. rewrite E2, E1; auto; unfold acc; lia.
Qed.

End Reducer.

(** *** The whole call *)

Lemma height_ownEntries (v : value) (kv : string * value) :
  In kv (ownEntries v) ->
  height (snd kv) <= height v /\
  ((forall s, v <> VStr s) -> S (height (snd kv)) <= height v).
Proof.
  destruct v; simpl ownEntries; try contradiction; intros Hin.
  - destruct kv as [k x]. apply In_indexed in Hin. destruct Hin as [j [_ Hj]].
    apply nth_error_In in Hj. simpl.
    assert (G : Forall (fun v => height v = 0) (JS.chars s)).
    { apply Forall_chars. reflexivity. }
    rewrite Forall_forall in G. rewrite (G _ Hj). split; [lia|].
    intros Hns. exfalso. now apply (Hns s).
  - destruct kv as [k x]. apply In_indexed in Hin. destruct Hin as [j [_ Hj]].
    apply nth_error_In in Hj. apply height_elem in Hj. simpl snd.
    split; [lia | intros; lia].
  - apply height_field in Hin. split; [lia | intros; lia].
Qed.

Section Whole.
Variable fields : list string.
Variable CS : value.
Variable rcs : Store.ref.
Variable K : nat.
Hypothesis HCS : height CS <= K.

Local Abbreviation refines := (refines fields CS rcs K).

Lemma wf_entry_In elems e : wf (VArr elems) -> In e elems -> wf e.
Proof.
  intros Hwf Hin. apply wf_VArr in Hwf. rewrite Forall_forall in Hwf. auto.
Qed.

Lemma refines_level (v : value) :
  ((forall s, v <> VStr s) ->
   Forall (fun kv => refines (snd kv) /\
                     forall elems, snd kv = VArr elems -> Forall refines elems)
     (ownEntries v)) ->
  refines v.
Proof.
  intros IH Hwf depth Hd lo st rv rs s c Hlo Hrv Hrs Hcs Hhs Hpure.
  destruct depth as [|depth]; [lia|]. simpl Store.recursiveCleanData.
  rewrite recursiveCleanData_eq in Hpure.
  assert (HK : K <= depth) by lia.
  assert (Hnn : v <> VUndef /\ v <> VNull).
  { destruct v; try discriminate; split; discriminate. }
  destruct Hnn as [Hu Hn].
  apply (sim_body fields CS rcs K depth (inner CS fields v)
           (Store.recursiveCleanData rcs fields depth) HCS HK lo st rv v rs s c);
    try assumption.
  - now apply NoDup_keys_ownEntries.
  - apply Forall_forall. intros kv Hkv.
    destruct (height_ownEntries v kv Hkv) as [Hh Hh'].
    pose proof (wf_field v (fst kv) (snd kv) Hwf) as Hwfkv.
    rewrite <- surjective_pairing in Hwfkv. specialize (Hwfkv Hkv).
    split; [lia|].
    assert (Hstr : (exists s', v = VStr s') \/ forall s', v <> VStr s').
    { destruct v; try (right; discriminate). left; eauto. }
    destruct Hstr as [[s' ->] | Hns].
    + (* the characters of a string: no call is made on them *)
      split; [intros ? ? ? ? ? ? ? ? ? ? ? H; discriminate H|].
      intros elems _. apply Forall_forall.
      intros ? _ ? ? ? ? ? ? ? ? ? ? ? H. discriminate H.
    + specialize (IH Hns). rewrite Forall_forall in IH.
      destruct (IH kv Hkv) as [IH1 IH2].
      assert (Hin : inner CS fields v = recursiveCleanData CS fields).
      { destruct v; try reflexivity. exfalso. now apply (Hns s0). }
      rewrite Hin. specialize (Hh' Hns). split.
      * apply IH1; [assumption | lia].
      * intros l E. specialize (IH2 l E). rewrite Forall_forall in *.
        intros e He. rewrite E in Hwfkv, Hh'.
        apply IH2; [assumption | eapply wf_entry_In; eassumption |].
        apply height_elem in He. lia.
  - destruct v; try exact Hpure; congruence.
Qed.

Lemma refines_all (v : value) :
  refines v /\ (forall elems, v = VArr elems -> Forall refines elems).
Proof.
  induction v as [| | b | n | s | elems IH | props IH] using value_ind;
    (split; [|intros l E; try discriminate E]).
  - apply refines_level. constructor.
  - apply refines_level. constructor.
  - apply refines_level. constructor.
  - apply refines_level. constructor.
  - apply refines_level. intros Hns. exfalso. now apply (Hns s).
  - apply refines_level. intros _. simpl.
    now apply (Forall_snd_indexed
                 (fun v => refines v /\ forall l, v = VArr l -> Forall refines l)).
  - injection E as <-. eapply Forall_impl; [|exact IH]. cbv beta. tauto.
  - apply refines_level. intros _. exact IH.
Qed.

End Whole.

(** *** Trees read from the store *)

Lemma traverse_Forall2 {A B} (f : A -> option B) (R : A -> B -> Prop) l out :
  (forall x y, In x l -> f x = Some y -> R x y) ->
  Store.traverse f l = Some out -> Forall2 R l out.
Proof.
  revert out; induction l as [|x l IH]; intros out H; simpl.
  - intros [= <-]. constructor.
  - destruct (f x) as [y|] eqn:Hx; [|discriminate].
    destruct (Store.traverse f l) as [ys|] eqn:Hl; [|discriminate].
    intros [= <-]. constructor; [apply H; [now left | assumption]|].
    apply IH; [|reflexivity]. intros x' y' Hin. apply H. now right.
Qed.

Lemma Forall2_traverse {A B} (f : A -> option B) l out :
  Forall2 (fun x y => f x = Some y) l out -> Store.traverse f l = Some out.
Proof.
  induction 1 as [|x y l out Hxy _ IH]; simpl; [reflexivity|].
  now rewrite Hxy, IH.
Qed.

Lemma rep_of_decode n st :
  forall r t, Store.decode n st r = Some t ->
              Store.rep (fun l => l < List.length st) st r t.
Proof.
  induction n as [|n IH]; intros r t; destruct r; simpl;
    try (intros [= <-]; constructor); try discriminate.
  destruct (nth_error st l) as [[props|es]|] eqn:E; try discriminate.
  - destruct (Store.traverse _ props) as [ps|] eqn:Hp; [|discriminate].
    intros [= <-]. econstructor; [|exact E|].
    + apply nth_error_Some. congruence.
    + eapply traverse_Forall2; [|exact Hp]. cbv beta.
      intros [k rx] [k' x] _ H. simpl in *.
      destruct (Store.decode n st rx) as [x0|] eqn:Hd; [|discriminate].
      injection H as <- <-. split; [reflexivity | now apply IH].
  - destruct (Store.traverse _ es) as [ts|] eqn:Hp; [|discriminate].
    intros [= <-]. econstructor; [|exact E|].
    + apply nth_error_Some. congruence.
    + eapply traverse_Forall2; [|exact Hp]. intros rx x _. apply IH.
Qed.

Lemma decode_of_rep P st t :
  forall r n, Store.rep P st r t -> height t <= n -> Store.decode n st r = Some t.
Proof.
  induction t as [| | b | z | s | ts IH | props IH] using value_ind;
    intros r n Hr Hn; inversion Hr; subst; try (destruct n; reflexivity).
  - destruct n as [|n]; [simpl in Hn; lia|]. simpl Store.decode.
    match goal with E : nth_error st _ = _ |- _ => rewrite E end.
    erewrite Forall2_traverse; [reflexivity|].
    match goal with F : Forall2 _ rs ts |- _ =>
      eapply Forall2_transfer; [|exact F] end.
    rewrite Forall_forall in *. intros x Hx rx Hrx.
    apply (IH x Hx); [assumption|]. apply height_elem in Hx. lia.
  - destruct n as [|n]; [simpl in Hn; lia|]. simpl Store.decode.
    match goal with E : nth_error st _ = _ |- _ => rewrite E end.
    erewrite Forall2_traverse; [reflexivity|].
    match goal with F : Forall2 _ rprops props |- _ =>
      eapply Forall2_transfer; [|exact F] end.
    rewrite Forall_forall in *. intros [k x] Hx [k' rx] [Hk Hrx]. simpl in *.
    subst k'. rewrite (IH _ Hx rx n Hrx); [reflexivity|].
    apply height_field in Hx. simpl in *. lia.
Qed.

End Refinement.



(** * Further properties of the sanitizer *)

(** ** The fields of the output *)

Lemma cleanField_bound componentSchema fields rec schema k v o :
  excluded fields schema k = false ->
  cleanField componentSchema fields rec schema (k, v) = Ok o ->
  exists x, o = [(k, x)].
Proof.
  intros Hex. unfold cleanField. simpl fst; simpl snd.
  callback_cases v; try discriminate; simpl set; rewrite ?String.eqb_refl;
    repeat match goal with
      | |- context [bind ?c _] => destruct c; simpl
      end;
    intros H; try discriminate; injection H as <-; eauto.
Qed.

Lemma keys_of_cleaned componentSchema fields rec schema es outs :
  Forall2 (fun kv o => cleanField componentSchema fields rec schema kv = Ok o) es outs ->
  keys (List.concat outs) =
  filter (fun k => negb (excluded fields schema k)) (keys es).
Proof.
  induction 1 as [|[k v] o es outs Ho _ IH]; simpl; [reflexivity|].
  unfold keys in *. rewrite map_app, IH.
  destruct (excluded fields schema k) eqn:Hex; simpl.
  - rewrite cleanField_excluded in Ho by assumption. now injection Ho as <-.
  - destruct (cleanField_bound _ _ _ _ _ _ _ Hex Ho) as [x ->]. reflexivity.
Qed.

(** The keys of the output of a call that returns. *)
Lemma output_keys componentSchema fields data schema out :
  NoDup (keys (ownEntries data)) ->
  recursiveCleanData componentSchema fields data schema = Ok out ->
  keys (ownEntries out) =
  filter (fun k => negb (excluded fields schema k)) (keys (ownEntries data)).
Proof.
  intros Hnd Hout. apply recursiveCleanData_Ok in Hout; [|assumption].
  destruct Hout as [_ [_ [outs [HF ->]]]]. simpl.
  eapply keys_of_cleaned; eassumption.
Qed.



(** ** Records without components *)



(** ** Excluded fields are not looked at *)

Lemma mapM_app {A B} (f : A -> result B) (l1 l2 : list A) :
  mapM f (l1 ++ l2) =
  (a <- mapM f l1 ;; b <- mapM f l2 ;; Ok (a ++ b)).
Proof.
  induction l1 as [|x l1 IH]; simpl.
  - now destruct (mapM f l2).
  - destruct (f x); simpl; [|reflexivity]. rewrite IH.
    destruct (mapM f l1); simpl; [|reflexivity].
    now destruct (mapM f l2).
Qed.

Lemma NoDup_keys_remove (pre post : entries) kv :
  NoDup (keys (pre ++ kv :: post)) -> NoDup (keys (pre ++ post)).
Proof.
  unfold keys. rewrite !map_app. simpl. apply NoDup_remove_1.
Qed.

(** Whatever an excluded field holds, the call answers what it answers on
    the record without the field: the value of an excluded field is never
    walked, so that it cannot make the call throw either. *)
Theorem excluded_field_as_absent componentSchema fields schema pre post k v :
  NoDup (keys (pre ++ (k, v) :: post)) ->
  excluded fields schema k = true ->
  recursiveCleanData componentSchema fields (VObj (pre ++ (k, v) :: post)) schema =
  recursiveCleanData componentSchema fields (VObj (pre ++ post)) schema.
Proof.
  intros Hnd Hex. rewrite !recursiveCleanData_eq. simpl ownEntries.
  rewrite !reduce_spec; [|eapply NoDup_keys_remove; eassumption|assumption].
  simpl inner. rewrite !mapM_app. simpl mapM.
  rewrite cleanField_excluded by assumption. simpl.
  destruct (mapM _ pre) as [a|]; simpl; [|reflexivity].
  destruct (mapM _ post) as [b|]; simpl; [|reflexivity].
  now rewrite !concat_app.
Qed.

(** A [createdBy] that holds nothing a walk could enter. *)
Lemma excluded_field_as_absent_witness :
  recursiveCleanData Sample.components defaultFields
    (VObj ([("title", VStr "Hi")] ++ ("createdBy", VNull) :: [("views", VNum 2)]))
    Sample.articleSchema =
  recursiveCleanData Sample.components defaultFields
    (VObj ([("title", VStr "Hi")] ++ [("views", VNum 2)]))
    Sample.articleSchema.
Proof.
  apply (excluded_field_as_absent Sample.components defaultFields
           Sample.articleSchema [("title", VStr "Hi")] [("views", VNum 2)]
           "createdBy" VNull).
  - nodup_keys.
  - reflexivity.
Defined.

(** ** Holes in a sequence *)

Lemma Forall2_In_l {A B} (R : A -> B -> Prop) l l' x :
  Forall2 R l l' -> In x l -> exists y, R x y.
Proof.
  induction 1 as [|a b l l' Hab _ IH]; simpl; [tauto|].
  intros [<- | Hin]; eauto.
Qed.

(** The entries of a dynamic zone or of a repeatable component are not
    filtered: one that is [null] or [undefined] makes the whole call
    throw. *)
Theorem null_entry_throws componentSchema fields data schema k elems :
  NoDup (keys (ownEntries data)) ->
  In (k, VArr elems) (ownEntries data) ->
  excluded fields schema k = false ->
  getType schema k = VStr "dynamiczone" \/
  (getType schema k = VStr "component" /\
   truthy (getOtherInfos schema [k; "repeatable"]) = true) ->
  In VNull elems \/ In VUndef elems ->
  exists e, recursiveCleanData componentSchema fields data schema = Throw e.
Proof.
  intros Hnd Hin Hex Hkind Hhole.
  destruct (recursiveCleanData componentSchema fields data schema)
    as [out|e] eqn:Hout; [exfalso | eauto].
  destruct (sequence_field _ _ _ _ _ _ _ Hnd Hin Hex Hkind Hout)
    as [cleaned [_ HF]].
  destruct Hhole as [Hhole | Hhole];
    destruct (Forall2_In_l _ _ _ _ HF Hhole) as [c [s [_ Hc]]];
    discriminate Hc.
Qed.

Lemma null_entry_throws_witness :
  exists e,
    recursiveCleanData Sample.components defaultFields
      (VObj [("images", VArr [VObj [("url", VStr "a.png")]; VNull])])
      Sample.articleSchema = Throw e.
Proof.
  apply (null_entry_throws Sample.components defaultFields
           (VObj [("images", VArr [VObj [("url", VStr "a.png")]; VNull])])
           Sample.articleSchema "images"
           [VObj [("url", VStr "a.png")]; VNull]).
  - nodup_keys.
  - simpl; auto.
  - reflexivity.
  - right. split; reflexivity.
  - left. simpl; auto.
Defined.

(** ** An array where one component is declared *)

Lemma keys_indexed (i : nat) (l : list value) :
  keys (indexed i l) = map string_of_nat (seq i (List.length l)).
Proof.
  revert i; induction l as [|x l IH]; intros i; simpl; [reflexivity|].
  unfold keys in *. now rewrite IH.
Qed.



(** ** The exclusion names as a set *)

Lemma existsb_fields (k : string) (fields : list string) :
  existsb (strictEqStr k) (map VStr fields) = true <-> In k fields.
Proof.
  rewrite existsb_exists. split.
  - intros [x [Hin Hx]]. apply in_map_iff in Hin. destruct Hin as [f [<- Hf]].
    simpl in Hx. apply String.eqb_eq in Hx. now subst.
  - intros Hin. exists (VStr k). split; [now apply in_map|].
    simpl. apply String.eqb_refl.
Qed.

Lemma excluded_ext f1 f2 :
  (forall k, In k f1 <-> In k f2) ->
  forall schema k, excluded f1 schema k = excluded f2 schema k.
Proof.
  intros H schema k. unfold excluded. rewrite !existsb_app. f_equal.
  apply eq_true_iff_eq. rewrite !existsb_fields. apply H.
Qed.

Lemma mapM_ext_in {A B} (f g : A -> result B) (l : list A) :
  Forall (fun x => f x = g x) l -> mapM f l = mapM g l.
Proof.
  induction 1 as [|x l Hx _ IH]; simpl; [reflexivity|]. now rewrite Hx, IH.
Qed.

Lemma reduce_ext {A} (f g : A -> string -> value -> result A) (es : entries) :
  Forall (fun kv => forall acc, f acc (fst kv) (snd kv) = g acc (fst kv) (snd kv)) es ->
  forall acc, reduce f es acc = reduce g es acc.
Proof.
  induction 1 as [|[k v] es Hkv _ IH]; intros acc; simpl; [reflexivity|].
  simpl in Hkv. rewrite Hkv. destruct (g acc k v); simpl; auto.
Qed.

(** The reducer reads the exclusion names through [excluded] only, and
    the recursive call on the value of the field and on its entries. *)
Lemma callback_ext componentSchema f1 f2 rec1 rec2 schema acc k v :
  (forall s k, excluded f1 s k = excluded f2 s k) ->
  (forall s, rec1 v s = rec2 v s) ->
  (forall elems, v = VArr elems ->
                 Forall (fun e => forall s, rec1 e s = rec2 e s) elems) ->
  callback componentSchema f1 rec1 schema acc k v =
  callback componentSchema f2 rec2 schema acc k v.
Proof.
  intros Hex Hv Helems. unfold callback. cbv zeta. rewrite Hex.
  destruct (excluded f2 schema k); [reflexivity|].
  destruct (negb (truthy v)); [reflexivity|].
  assert (Hdz : forall elems, v = VArr elems ->
            mapM (fun componentValue =>
                    discriminator <- member componentValue "__component" ;;
                    s <- index componentSchema discriminator ;;
                    rec1 componentValue s) elems =
            mapM (fun componentValue =>
                    discriminator <- member componentValue "__component" ;;
                    s <- index componentSchema discriminator ;;
                    rec2 componentValue s) elems).
  { intros elems E. apply mapM_ext_in.
    eapply Forall_impl; [|exact (Helems elems E)]. cbv beta.
    intros e He. destruct (member e "__component"); simpl; [|reflexivity].
    destruct (index componentSchema a); simpl; auto. }
  assert (Hrep : forall elems, v = VArr elems ->
            mapM (fun compoData =>
                    s <- index componentSchema
                           (getOtherInfos schema [k; "component"]) ;;
                    rec1 compoData s) elems =
            mapM (fun compoData =>
                    s <- index componentSchema
                           (getOtherInfos schema [k; "component"]) ;;
                    rec2 compoData s) elems).
  { intros elems E. apply mapM_ext_in.
    eapply Forall_impl; [|exact (Helems elems E)]. cbv beta.
    intros e He. destruct (index componentSchema _); simpl; auto. }
  assert (Hone :
            (s <- index componentSchema (getOtherInfos schema [k; "component"]) ;;
             cleaned <- rec1 v s ;; Ok (set acc k cleaned)) =
            (s <- index componentSchema (getOtherInfos schema [k; "component"]) ;;
             cleaned <- rec2 v s ;; Ok (set acc k cleaned))).
  { destruct (index componentSchema _); simpl; [|reflexivity]. now rewrite Hv. }
  destruct (strictEqStr "dynamiczone" (getType schema k)),
    (strictEqStr "component" (getType schema k)),
    (truthy (getOtherInfos schema [k; "repeatable"])), v;
    try reflexivity; try exact Hone;
    try (rewrite (Hdz _ eq_refl); reflexivity);
    try (rewrite (Hrep _ eq_refl); reflexivity).
Qed.

Lemma recursiveCleanData_ext componentSchema f1 f2 :
  (forall s k, excluded f1 s k = excluded f2 s k) ->
  forall v,
    (forall s, recursiveCleanData componentSchema f1 v s =
               recursiveCleanData componentSchema f2 v s) /\
    (forall elems,
        v = VArr elems ->
        Forall (fun e => forall s, recursiveCleanData componentSchema f1 e s =
                                   recursiveCleanData componentSchema f2 e s) elems).
Proof.
  intros Hex.
  assert (Hlevel : forall v,
             Forall (fun kv =>
                       (forall s, inner componentSchema f1 v (snd kv) s =
                                  inner componentSchema f2 v (snd kv) s) /\
                       (forall elems, snd kv = VArr elems ->
                          Forall (fun e => forall s,
                                      inner componentSchema f1 v e s =
                                      inner componentSchema f2 v e s) elems))
               (ownEntries v) ->
             forall s, recursiveCleanData componentSchema f1 v s =
                       recursiveCleanData componentSchema f2 v s).
  { intros v Hv s. rewrite !recursiveCleanData_eq.
    rewrite (reduce_ext (callback componentSchema f1 (inner componentSchema f1 v) s)
               (callback componentSchema f2 (inner componentSchema f2 v) s));
      [reflexivity|].
    eapply Forall_impl; [|exact Hv]. cbv beta.
    intros [k x] [H1 H2] acc. now apply callback_ext. }
  induction v as [| | b | n | s | elems IH | props IH] using value_ind;
    (split; [|intros l E; try discriminate E]).
  - reflexivity.
  - reflexivity.
  - reflexivity.
  - reflexivity.
  - apply Hlevel. apply Forall_forall. intros kv _. split; [reflexivity|].
    intros l _. apply Forall_forall. reflexivity.
  - apply Hlevel. simpl ownEntries. simpl inner.
    apply (Forall_snd_indexed
             (fun x => (forall s, recursiveCleanData componentSchema f1 x s =
                                  recursiveCleanData componentSchema f2 x s) /\
                       (forall l, x = VArr l ->
                          Forall (fun e => forall s,
                                      recursiveCleanData componentSchema f1 e s =
                                      recursiveCleanData componentSchema f2 e s) l))).
    exact IH.
  - injection E as <-. eapply Forall_impl; [|exact IH]. cbv beta. tauto.
  - apply Hlevel. exact IH.
Qed.

(** Only the set of the exclusion names counts: two lists with the same
    members, in whatever order and however often, give the same call. *)
Theorem fields_as_set data contentTypeSchema componentSchema f1 f2 :
  (forall k, In k f1 <-> In k f2) ->
  contentManagementUtilRemoveFieldsFromData data contentTypeSchema componentSchema f1 =
  contentManagementUtilRemoveFieldsFromData data contentTypeSchema componentSchema f2.
Proof.
  intros H. unfold contentManagementUtilRemoveFieldsFromData.
  apply recursiveCleanData_ext. now apply excluded_ext.
Qed.

Lemma fields_as_set_witness :
  contentManagementUtilRemoveFieldsFromData Sample.article Sample.articleSchema
    Sample.components ["id"; "createdBy"] =
  contentManagementUtilRemoveFieldsFromData Sample.article Sample.articleSchema
    Sample.components ["createdBy"; "id"; "id"].
Proof.
  apply (fields_as_set Sample.article Sample.articleSchema Sample.components
           ["id"; "createdBy"] ["createdBy"; "id"; "id"]).
  intros k. simpl. tauto.
Defined.

(** ** Two passes *)

Lemma excluded_app f1 f2 schema k :
  excluded (f1 ++ f2) schema k = excluded f1 schema k || excluded f2 schema k.
Proof.
  unfold excluded. rewrite map_app, !existsb_app.
  destruct (existsb _ (map VStr f1)), (existsb _ (map VStr f2)),
    (existsb _ match get schema ["options"; "timestamps"] VUndef with
               | VArr ts => ts
               | _ => []
               end); reflexivity.
Qed.

Lemma mapM_rel {A B C} (g : B -> result C) (h : A -> result C) l l' :
  Forall2 (fun x y => g y = h x) l l' -> mapM g l' = mapM h l.
Proof.
  induction 1 as [|x y l l' Hxy _ IH]; simpl; [reflexivity|].
  now rewrite Hxy, IH.
Qed.

Lemma Forall2_In_impl {A B} (R R' : A -> B -> Prop) l l' :
  Forall2 R l l' ->
  (forall x y, In x l -> R x y -> R' x y) ->
  Forall2 R' l l'.
Proof.
  induction 1 as [|x y l l' Hxy _ IH]; intros H; constructor.
  - apply H; [now left | assumption].
  - apply IH. intros x' y' Hin. apply H. now right.
Qed.

Section TwoPasses.
Variable componentSchema : value.
Variables f1 f2 : list string.

Local Abbreviation second := (recursiveCleanData componentSchema f2).
Local Abbreviation both := (recursiveCleanData componentSchema (f1 ++ f2)).

Hypothesis discriminators :
  forall identifier s,
    index componentSchema identifier = Ok s -> discriminator_kept f1 s.

Local Abbreviation composes := (composes componentSchema f2).
Local Abbreviation composes_entry := (composes_entry componentSchema f1 f2).

(** What the first pass leaves of a field, the second pass turns into
    what the one pass with both lists leaves of the field. *)
Lemma compose_field rec1 rec12 schema k v o :
  composes rec1 rec12 v ->
  (forall elems, v = VArr elems -> Forall (composes_entry rec1 rec12) elems) ->
  cleanField componentSchema f1 rec1 schema (k, v) = Ok o ->
  (outs <- mapM (cleanField componentSchema f2 second schema) o ;;
   Ok (List.concat outs)) =
  cleanField componentSchema (f1 ++ f2) rec12 schema (k, v).
Proof.
  intros Hv Helems Ho.
  pose proof (excluded_app f1 f2 schema k) as Hboth.
  destruct (excluded f1 schema k) eqn:Hex1.
  { rewrite cleanField_excluded in Ho by assumption. injection Ho as <-.
    now rewrite cleanField_excluded. }
  simpl in Hboth.
  destruct (excluded f2 schema k) eqn:Hex2.
  { destruct (cleanField_bound _ _ _ _ _ _ _ Hex1 Ho) as [x ->].
    simpl mapM. rewrite !cleanField_excluded by assumption. reflexivity. }
  destruct (truthy v) eqn:Htruthy.
  2:{ rewrite cleanField_falsy in Ho by assumption. injection Ho as <-.
      simpl mapM. rewrite !cleanField_falsy by assumption. reflexivity. }
  destruct (strictEqStr "component" (getType schema k)) eqn:Hc.
  - (* a component *)
    assert (Hsingle :
              truthy (getOtherInfos schema [k; "repeatable"]) = false \/
              isArray v = false ->
              (outs <- mapM (cleanField componentSchema f2 second schema) o ;;
               Ok (List.concat outs)) =
              cleanField componentSchema (f1 ++ f2) rec12 schema (k, v)).
    { intros Hone. rewrite cleanField_single in Ho by assumption.
      inv_bind_as Ho s' Hs'. inv_bind_as Ho c Hc'. injection Ho as <-.
      destruct (Hv _ _ Hc') as [Hsnd [props ->]].
      simpl mapM.
      rewrite cleanField_single; [|assumption|reflexivity|assumption|now right].
      rewrite cleanField_single by assumption.
      rewrite Hs'. cbn [bind]. rewrite Hsnd.
      destruct (rec12 v s'); reflexivity. }
    destruct (truthy (getOtherInfos schema [k; "repeatable"])) eqn:Hrep;
      [|now apply Hsingle; left].
    destruct (isArray v) eqn:Harr; [|now apply Hsingle; right].
    destruct v as [| | | | |elems|]; try discriminate.
    rewrite cleanField_repeatable in Ho by assumption.
    inv_bind_as Ho cleaned Hmap. injection Ho as <-.
    apply mapM_Forall2 in Hmap.
    simpl mapM. rewrite !cleanField_repeatable by assumption.
    rewrite (mapM_rel _ (fun compoData =>
                           s <- index componentSchema
                                  (getOtherInfos schema [k; "component"]) ;;
                           rec12 compoData s) elems cleaned).
    + destruct (mapM _ elems); reflexivity.
    + eapply Forall2_In_impl; [exact Hmap|]. cbv beta.
      intros e c Hin H. inv_bind_as H s' Hs'. rewrite Hs'. cbn [bind].
      specialize (Helems elems eq_refl). rewrite Forall_forall in Helems.
      now apply (Helems e Hin s' c).
  - destruct (strictEqStr "dynamiczone" (getType schema k)) eqn:Hd.
    + destruct (isArray v) eqn:Harr.
      * (* a dynamic zone *)
        destruct v as [| | | | |elems|]; try discriminate.
        rewrite cleanField_dynamiczone in Ho by assumption.
        inv_bind_as Ho cleaned Hmap. injection Ho as <-.
        apply mapM_Forall2 in Hmap.
        simpl mapM. rewrite !cleanField_dynamiczone by assumption.
        rewrite (mapM_rel _ (fun componentValue =>
                               discriminator <- member componentValue "__component" ;;
                               s <- index componentSchema discriminator ;;
                               rec12 componentValue s) elems cleaned).
        -- destruct (mapM _ elems); reflexivity.
        -- eapply Forall2_In_impl; [exact Hmap|]. cbv beta.
           intros e c Hin H. inv_bind_as H d Hd'. inv_bind_as H s' Hs'.
           specialize (Helems elems eq_refl). rewrite Forall_forall in Helems.
           destruct (Helems e Hin s' c H) as [[Hsnd [props ->]] Hkeep].
           rewrite Hd'. pose proof Hd' as Hd''.
           apply member_Ok in Hd''. subst d.
           cbn [member bind]. rewrite (Hkeep (discriminators _ _ Hs')).
           rewrite Hs'. cbn [bind]. exact Hsnd.
      * rewrite cleanField_unwalked in Ho; auto. injection Ho as <-.
        simpl mapM. rewrite !cleanField_unwalked; auto.
    + rewrite cleanField_unwalked in Ho; auto. injection Ho as <-.
      simpl mapM. rewrite !cleanField_unwalked; auto.
Qed.

Lemma compose_level rec1 rec12 schema es outs :
  Forall (fun kv => composes rec1 rec12 (snd kv)) es ->
  Forall (fun kv => forall elems, snd kv = VArr elems ->
                                  Forall (composes_entry rec1 rec12) elems) es ->
  Forall2 (fun kv o => cleanField componentSchema f1 rec1 schema kv = Ok o) es outs ->
  (outs2 <- mapM (cleanField componentSchema f2 second schema) (List.concat outs) ;;
   Ok (List.concat outs2)) =
  (outs12 <- mapM (cleanField componentSchema (f1 ++ f2) rec12 schema) es ;;
   Ok (List.concat outs12)).
Proof.
  intros H1 H2 HF. induction HF as [|[k v] o es outs Ho HF IH]; simpl;
    [reflexivity|].
  inversion H1; subst. inversion H2; subst.
  rewrite mapM_app.
  rewrite <- (compose_field rec1 rec12 schema k v o) by assumption.
  destruct (mapM _ o) as [a|]; simpl; [|reflexivity].
  specialize (IH ltac:(assumption) ltac:(assumption)).
  destruct (mapM _ (List.concat outs)) as [b|]; simpl in *.
  - destruct (mapM _ es) as [c|]; simpl in *; [|discriminate].
    injection IH as <-. now rewrite concat_app.
  - destruct (mapM _ es) as [c|]; simpl in *; [discriminate|].
    exact IH.
Qed.

(** A record composes as soon as the recursive calls of its walk do. *)
Lemma composes_record data :
  NoDup (keys (ownEntries data)) ->
  Forall (fun kv => composes (inner componentSchema f1 data)
                      (inner componentSchema (f1 ++ f2) data) (snd kv))
    (ownEntries data) ->
  Forall (fun kv => forall elems,
              snd kv = VArr elems ->
              Forall (composes_entry (inner componentSchema f1 data)
                        (inner componentSchema (f1 ++ f2) data)) elems)
    (ownEntries data) ->
  composes (recursiveCleanData componentSchema f1) both data.
Proof.
  intros Hnd H1 H2 s c Hc.
  apply recursiveCleanData_Ok in Hc; [|assumption].
  destruct Hc as [Hu [Hn [outs [HF ->]]]].
  split; [|eauto].
  rewrite (recursiveCleanData_eq _ (f1 ++ f2) data).
  rewrite reduce_spec by assumption.
  rewrite <- (compose_level _ _ s _ outs H1 H2 HF).
  rewrite recursiveCleanData_eq. simpl ownEntries. simpl inner.
  rewrite reduce_spec by (eapply NoDup_keys_cleaned; eassumption).
  destruct data; try reflexivity; congruence.
Qed.

Lemma composes_as_entry e :
  wf e -> composes (recursiveCleanData componentSchema f1) both e ->
  composes_entry (recursiveCleanData componentSchema f1) both e.
Proof.
  intros Hwf He s c Hc. split; [now apply He|].
  intros Hkept. eapply discriminator_preserved; try eassumption.
  now apply NoDup_keys_ownEntries.
Qed.

Lemma Forall_composes_entries (l : list value) :
  Forall wf l ->
  Forall (fun v =>
            (wf v -> composes (recursiveCleanData componentSchema f1) both v) /\
            forall elems,
              v = VArr elems ->
              Forall (fun e => wf e ->
                               composes (recursiveCleanData componentSchema f1) both e)
                elems) l ->
  Forall (fun v => forall elems,
              v = VArr elems ->
              Forall (composes_entry (recursiveCleanData componentSchema f1) both)
                elems) l.
Proof.
  intros Hwf HP. rewrite Forall_forall in *. intros v Hin elems ->.
  destruct (HP _ Hin) as [_ Hel]. specialize (Hel elems eq_refl).
  specialize (Hwf _ Hin). apply wf_VArr in Hwf.
  rewrite Forall_forall in *. intros e He.
  apply composes_as_entry; auto.
Qed.

Lemma composes_all (v : value) :
  (wf v -> composes (recursiveCleanData componentSchema f1) both v) /\
  (forall elems,
      v = VArr elems ->
      Forall (fun e => wf e ->
                       composes (recursiveCleanData componentSchema f1) both e) elems).
Proof.
  induction v as [| | b | n | s | elems IH | props IH] using value_ind;
    (split; [intros Hwf | intros l E; try discriminate E]).
  - intros s c H; discriminate H.
  - intros s c H; discriminate H.
  - intros s c [= <-]. split; [reflexivity | eauto].
  - intros s c [= <-]. split; [reflexivity | eauto].
  - apply composes_record.
    + apply NoDup_keys_indexed.
    + apply Forall_forall. intros kv _ s' c H. discriminate H.
    + apply Forall_forall. intros kv _ l _. apply Forall_forall.
      intros e _ s' c H. discriminate H.
  - apply wf_VArr in Hwf. apply composes_record.
    + apply NoDup_keys_indexed.
    + simpl. apply Forall_snd_indexed.
      rewrite Forall_forall in *. intros e He. now apply (IH e He), Hwf.
    + simpl. apply (Forall_snd_indexed
                      (fun v => forall l, v = VArr l ->
                         Forall (composes_entry
                                   (recursiveCleanData componentSchema f1) both) l)).
      now apply Forall_composes_entries.
  - injection E as <-. eapply Forall_impl; [|exact IH]. cbv beta. tauto.
  - apply wf_VObj in Hwf. destruct Hwf as [Hnd Hwf]. apply composes_record.
    + exact Hnd.
    + simpl. rewrite Forall_forall in *. intros kv Hkv.
      now apply (IH kv Hkv), Hwf.
    + simpl.
      assert (G : Forall (fun v => forall l, v = VArr l ->
                            Forall (composes_entry
                                      (recursiveCleanData componentSchema f1) both) l)
                    (map snd props)).
      { apply Forall_composes_entries; rewrite Forall_map; assumption. }
      now rewrite Forall_map in G.
Qed.

End TwoPasses.



(** ** What the output shares with the input *)

Module Sharing.
Import StoreFacts.

Lemma assoc_delete_ne {A} (l : list (string * A)) (k k' : string) :
  k' <> k -> assoc k' (delete l k) = assoc k' l.
Proof.
  intros Hne. induction l as [|[k0 x] l IH]; simpl; [reflexivity|].
  destruct (String.eqb_spec k0 k) as [->|Hk0]; simpl.
  - destruct (String.eqb_spec k k'); [congruence | exact IH].
  - now rewrite IH.
Qed.

Lemma assoc_set_ne {A} (l : list (string * A)) (k k' : string) (x : A) :
  k' <> k -> assoc k' (set l k x) = assoc k' l.
Proof.
  intros Hne. induction l as [|[k0 y] l IH]; simpl.
  - destruct (String.eqb_spec k k'); [congruence | reflexivity].
  - destruct (String.eqb_spec k0 k) as [->|Hk0]; simpl.
    + destruct (String.eqb_spec k k'); [congruence | reflexivity].
    + now rewrite IH.
Qed.

Lemma frame_le n m st st' : n <= m -> Store.frame m st st' -> Store.frame n st st'.
Proof. intros Hnm [L H]. split; [assumption|]. intros l Hl. apply H. lia. Qed.

(** An assignment [acc[k] = x], after a computation of [x] that leaves
    the accumulator alone. *)
Lemma step_set (m : Store.M Store.ref) acc k st st' racc :
  Store.keeps (S acc) m ->
  acc < List.length st ->
  nth_error st acc = Some (Store.CObj racc) ->
  Store.bindM m (fun x => Store.setProp acc k x) st = (Ok tt, st') ->
  Store.frame acc st st' /\
  exists x, nth_error st' acc = Some (Store.CObj (set racc k x)).
Proof.
  intros Hm Hacc Hcell H. rewrite Refinement.bindM_run in H.
  specialize (Hm st Hacc).
  destruct (m st) as [[x|e] st1]; [|discriminate]. simpl in Hm.
  assert (Hcell1 : nth_error st1 acc = Some (Store.CObj racc)).
  { destruct Hm as [_ E]. rewrite E; [assumption | lia]. }
  unfold Store.setProp, Store.update in H. rewrite Hcell1 in H.
  injection H as <-. split.
  - eapply frame_trans; [eapply frame_le; [|exact Hm]; lia|].
    now apply frame_write.
  - exists x. apply Refinement.write_same. destruct Hm. lia.
Qed.

Section Step.
Variable rtable : Store.ref.
Variable fields : list string.
Variable depth : nat.
Variable rec : Store.ref -> Store.ref -> Store.M Store.ref.
Hypothesis Hrec : forall d s n, Store.keeps n (rec d s).

(** One step of the reducer changes the binding of its own key at most,
    and not even that one when the field is kept as it is. *)
Lemma callback_step rdata rschema acc k st st' racc :
  acc < List.length st ->
  nth_error st acc = Some (Store.CObj racc) ->
  Store.callback rtable fields depth rec rdata rschema acc k st = (Ok tt, st') ->
  Store.frame acc st st' /\
  exists racc',
    nth_error st' acc = Some (Store.CObj racc') /\
    (forall k', k' <> k -> assoc k' racc' = assoc k' racc) /\
    (Store.excluded fields rschema k st = false ->
     Store.truthy (Store.get rdata [k] Store.RUndef st) = false \/
     (Store.strictEqStr "component" (Store.getType rschema k st) = false /\
      (Store.strictEqStr "dynamiczone" (Store.getType rschema k st) = false \/
       Store.isArray st (Store.get rdata [k] Store.RUndef st) = false)) ->
     racc' = racc).
Proof.
  intros Hacc Hcell H.
  unfold Store.callback in H. repeat (rewrite Refinement.bindM_read in H; cbv beta in H).
  assert (Hset : forall m : Store.M Store.ref,
             Store.keeps (S acc) m ->
             Store.bindM m (fun x => Store.setProp acc k x) st = (Ok tt, st') ->
             Store.truthy (Store.get rdata [k] Store.RUndef st) = true ->
             Store.strictEqStr "component" (Store.getType rschema k st) = true \/
             (Store.strictEqStr "dynamiczone" (Store.getType rschema k st) = true /\
              Store.isArray st (Store.get rdata [k] Store.RUndef st) = true) ->
             Store.frame acc st st' /\
             exists racc',
               nth_error st' acc = Some (Store.CObj racc') /\
               (forall k', k' <> k -> assoc k' racc' = assoc k' racc) /\
               (Store.excluded fields rschema k st = false ->
                Store.truthy (Store.get rdata [k] Store.RUndef st) = false \/
                (Store.strictEqStr "component" (Store.getType rschema k st) = false /\
                 (Store.strictEqStr "dynamiczone" (Store.getType rschema k st) = false \/
                  Store.isArray st (Store.get rdata [k] Store.RUndef st) = false)) ->
                racc' = racc)).
  { intros m Hm Hrun Htruthy Hwalk.
    destruct (step_set m acc k st st' racc Hm Hacc Hcell Hrun) as [Hf [x Hx]].
    split; [exact Hf|]. exists (set racc k x). split; [exact Hx|]. split.
    - intros k' Hne. now apply assoc_set_ne.
    - intros _ [Hv | [Hc Hd]]; [congruence|].
      destruct Hwalk as [Hc' | [Hd' Ha']]; [congruence|].
      destruct Hd; congruence. }
  assert (Hsame : st' = st ->
             Store.frame acc st st' /\
             exists racc',
               nth_error st' acc = Some (Store.CObj racc') /\
               (forall k', k' <> k -> assoc k' racc' = assoc k' racc) /\
               (Store.excluded fields rschema k st = false ->
                Store.truthy (Store.get rdata [k] Store.RUndef st) = false \/
                (Store.strictEqStr "component" (Store.getType rschema k st) = false /\
                 (Store.strictEqStr "dynamiczone" (Store.getType rschema k st) = false \/
                  Store.isArray st (Store.get rdata [k] Store.RUndef st) = false)) ->
                racc' = racc)).
  { intros ->. split; [apply frame_refl|]. exists racc. auto. }
  destruct (Store.excluded fields rschema k st) eqn:Hex.
  { unfold Store.deleteProp, Store.update in H. rewrite Hcell in H.
    injection H as <-. split; [now apply frame_write|].
    exists (delete racc k). split; [now apply Refinement.write_same|]. split.
    - intros k' Hne. now apply assoc_delete_ne.
    - discriminate. }
  destruct (Store.truthy (Store.get rdata [k] Store.RUndef st)) eqn:Htruthy;
    cbn [negb] in H.
  2:{ apply Hsame. unfold Store.ret in H. now injection H. }
  destruct (Store.strictEqStr "dynamiczone" (Store.getType rschema k st)) eqn:Hdz;
    destruct (Store.isArray st (Store.get rdata [k] Store.RUndef st)) eqn:Harr;
    cbn [andb] in H.
  - (* a dynamic zone *)
    eapply Hset; [|exact H|reflexivity|now right].
    apply keeps_map. intros x.
    apply keeps_bind; [apply keeps_attempt|]. intros d.
    apply keeps_bind; [apply keeps_attempt|]. intros s. apply Hrec.
  - destruct (Store.strictEqStr "component" (Store.getType rschema k st)) eqn:Hc.
    + rewrite andb_false_r in H.
      rewrite Refinement.bindM_run in H. unfold Store.attempt in H.
      destruct (Store.index depth rtable _ st) as [s|e]; [|discriminate].
      eapply Hset; [|exact H|reflexivity|now left]. apply Hrec.
    + apply Hsame. unfold Store.ret in H. now injection H.
  - destruct (Store.strictEqStr "component" (Store.getType rschema k st)) eqn:Hc.
    + destruct (Store.truthy (Store.getOtherInfos rschema [k; "repeatable"] st));
        cbn [andb] in H.
      * eapply Hset; [|exact H|reflexivity|now left].
        apply keeps_map. intros x.
        apply keeps_bind; [apply keeps_attempt|]. intros s. apply Hrec.
      * rewrite Refinement.bindM_run in H. unfold Store.attempt in H.
        destruct (Store.index depth rtable _ st) as [s|e]; [|discriminate].
        eapply Hset; [|exact H|reflexivity|now left]. apply Hrec.
    + apply Hsame. unfold Store.ret in H. now injection H.
  - destruct (Store.strictEqStr "component" (Store.getType rschema k st)) eqn:Hc.
    + rewrite andb_false_r in H.
      rewrite Refinement.bindM_run in H. unfold Store.attempt in H.
      destruct (Store.index depth rtable _ st) as [s|e]; [|discriminate].
      eapply Hset; [|exact H|reflexivity|now left]. apply Hrec.
    + apply Hsame. unfold Store.ret in H. now injection H.
Qed.

End Step.

Lemma rep_frame lo n st st' r t :
  lo <= n -> Store.frame n st st' ->
  Store.rep (fun l => l < lo) st r t -> Store.rep (fun l => l < lo) st' r t.
Proof.
  intros Hlo [_ E]. apply Refinement.rep_transfer.
  intros l c Hl Hc. split; [assumption|]. rewrite E; [assumption | lia].
Qed.

Section Walk.
Variable rtable : Store.ref.
Variable fields : list string.
Variable depth : nat.
Variable rec : Store.ref -> Store.ref -> Store.M Store.ref.
Hypothesis Hrec : forall d s n, Store.keeps n (rec d s).

(** The walk leaves the accumulator's binding of every field that is
    kept as it is. *)
Lemma reduce_keeps_fields lo acc rdata data rschema schema :
  lo <= acc ->
  NoDup (keys (ownEntries data)) ->
  forall ks st st' racc,
    acc < List.length st ->
    Store.rep (fun l => l < lo) st rdata data ->
    Store.rep (fun l => l < lo) st rschema schema ->
    nth_error st acc = Some (Store.CObj racc) ->
    Store.reduce (Store.callback rtable fields depth rec rdata rschema acc) ks st
    = (Ok tt, st') ->
    Store.frame acc st st' /\
    exists racc',
      nth_error st' acc = Some (Store.CObj racc') /\
      forall k v,
        In (k, v) (ownEntries data) ->
        excluded fields schema k = false ->
        truthy v = false \/
        (getType schema k <> VStr "component" /\
         (getType schema k <> VStr "dynamiczone" \/ isArray v = false)) ->
        assoc k racc' = assoc k racc.
Proof.
  intros Hlo Hnd. induction ks as [|cur ks IH];
    intros st st' racc Hacc Hdata Hschema Hcell H.
  - simpl in H. unfold Store.ret in H. injection H as <-.
    split; [apply frame_refl|]. exists racc. auto.
  - simpl in H. rewrite Refinement.bindM_run in H.
    destruct (Store.callback rtable fields depth rec rdata rschema acc cur st)
      as [[[]|e] st1] eqn:Hstep; [|discriminate].
    destruct (callback_step rtable fields depth rec Hrec rdata rschema acc cur
                st st1 racc Hacc Hcell Hstep)
      as [Hf1 [racc1 [Hcell1 [Hother Hkept]]]].
    assert (Hacc1 : acc < List.length st1) by (destruct Hf1; lia).
    destruct (IH st1 st' racc1 Hacc1
                (rep_frame lo acc st st1 _ _ Hlo Hf1 Hdata)
                (rep_frame lo acc st st1 _ _ Hlo Hf1 Hschema) Hcell1 H)
      as [Hf [racc' [Hcell' Hkeep]]].
    split; [eapply frame_trans; eassumption|].
    exists racc'. split; [exact Hcell'|].
    intros k v Hin Hex Hk. rewrite (Hkeep k v Hin Hex Hk).
    destruct (String.eqb_spec k cur) as [->|Hne]; [|now apply Hother].
    rewrite Hkept; [reflexivity | |].
    + now rewrite (Refinement.rep_excluded _ _ fields _ _ cur Hschema).
    + assert (Hval : Store.rep (fun l => l < lo) st
                       (Store.get rdata [cur] Store.RUndef st) v).
      { rewrite <- (get_own_entry data cur v Hnd Hin).
        apply Refinement.rep_get; [assumption | constructor]. }
      pose proof (Refinement.rep_getType _ _ _ _ cur Hschema) as Hty.
      rewrite (Refinement.rep_truthy _ _ _ _ Hval),
        (Refinement.rep_isArray _ _ _ _ Hval),
        (Refinement.rep_strictEqStr _ _ "component" _ _ Hty),
        (Refinement.rep_strictEqStr _ _ "dynamiczone" _ _ Hty).
      destruct Hk as [Hv | [Hc Hd]]; [now left | right].
      split; [now apply strictEqStr_false|].
      destruct Hd as [Hd | Hd]; [left; now apply strictEqStr_false | now right].
Qed.

Lemma body_keeps_fields st st' rdata data rschema schema o :
  NoDup (keys (ownEntries data)) ->
  Store.rep (fun l => l < List.length st) st rdata data ->
  Store.rep (fun l => l < List.length st) st rschema schema ->
  Store.body rtable fields depth rec rdata rschema st = (Ok o, st') ->
  o = Store.RLoc (List.length st) /\
  Store.frame (List.length st) st st' /\
  forall k v,
    In (k, v) (ownEntries data) ->
    excluded fields schema k = false ->
    truthy v = false \/
    (getType schema k <> VStr "component" /\
     (getType schema k <> VStr "dynamiczone" \/ isArray v = false)) ->
    assoc k (Store.ownEntries st' o) = assoc k (Store.ownEntries st rdata).
Proof.
  intros Hnd Hdata Hschema H.
  set (acc := List.length st) in *.
  set (st1 := st ++ [Store.CObj (Store.ownEntries st rdata)]).
  assert (G : Store.bindM (Store.read (fun st => keys (Store.ownEntries st rdata)))
                (fun ks => Store.bindM (Store.assign rdata)
                   (fun acc => Store.bindM
                      (Store.reduce
                         (Store.callback rtable fields depth rec rdata rschema acc) ks)
                      (fun _ => Store.ret (Store.RLoc acc)))) st
              = (Ok o, st')).
  { unfold Store.body in H. destruct rdata; try exact H; discriminate H. }
  clear H. rewrite Refinement.bindM_read, Refinement.bindM_run in G.
  unfold Store.assign, Store.alloc in G. fold acc in G. fold st1 in G.
  rewrite Refinement.bindM_run in G.
  destruct (Store.reduce _ _ st1) as [[[]|e] st2] eqn:Hred; [|discriminate].
  unfold Store.ret in G. injection G as <- <-.
  assert (Hf1 : Store.frame acc st st1).
  { apply (frame_alloc acc _ st). unfold acc. lia. }
  assert (Hacc1 : acc < List.length st1).
  { unfold st1, acc. rewrite length_app. simpl. lia. }
  assert (Hcell1 : nth_error st1 acc = Some (Store.CObj (Store.ownEntries st rdata))).
  { unfold st1, acc. rewrite nth_error_app2, Nat.sub_diag by lia. reflexivity. }
  destruct (reduce_keeps_fields acc acc rdata data rschema schema (le_n _) Hnd
              _ st1 st2 _ Hacc1
              (rep_frame acc acc st st1 _ _ (le_n _) Hf1 Hdata)
              (rep_frame acc acc st st1 _ _ (le_n _) Hf1 Hschema) Hcell1 Hred)
    as [Hf [racc' [Hcell' Hkeep]]].
  split; [reflexivity|]. split; [eapply frame_trans; eassumption|].
  intros k v Hin Hex Hk. simpl Store.ownEntries at 1. rewrite Hcell'.
  now apply (Hkeep k v).
Qed.

End Walk.

End Sharing.



(** ** A primitive where a component is declared *)

(** A component field that holds a number or [true] is walked like any
    record: a number or a boolean has no own property, so the output
    binds the field to an empty object, as soon as the lookup of the
    component schema does not throw. *)
Theorem primitive_under_component componentSchema fields data schema out k v :
  NoDup (keys (ownEntries data)) ->
  In (k, v) (ownEntries data) ->
  excluded fields schema k = false ->
  getType schema k = VStr "component" ->
  truthy v = true ->
  (exists b, v = VBool b) \/ (exists n, v = VNum n) ->
  recursiveCleanData componentSchema fields data schema = Ok out ->
  assoc k (ownEntries out) = Some (VObj []).
Proof.
  intros Hnd Hin Hex Hty Hv Hprim Hout.
  assert (Harr : isArray v = false) by (destruct Hprim as [[b ->] | [n ->]]; reflexivity).
  destruct (output_field _ _ _ _ _ _ _ Hnd Hin Hout) as [o [Ho ->]].
  rewrite (inner_of_single_field _ _ _ _ _ _ _ Hin Hex Hv Hty (or_intror Harr) Ho)
    in Ho.
  rewrite cleanField_single in Ho;
    [|assumption | assumption | now apply strictEqStr_true | now right].
  inv_bind_as Ho s Hs. inv_bind_as Ho c Hc. injection Ho as <-.
  simpl. rewrite String.eqb_refl.
  destruct Hprim as [[b ->] | [n ->]]; simpl in Hc; now injection Hc as <-.
Qed.

Lemma primitive_under_component_witness :
  assoc "seo" (ownEntries (VObj [("title", VStr "Hi"); ("seo", VObj [])]))
  = Some (VObj []).
Proof.
  apply (primitive_under_component Sample.components defaultFields
           (VObj [("title", VStr "Hi"); ("seo", VNum 7)])
           Sample.articleSchema
           (VObj [("title", VStr "Hi"); ("seo", VObj [])]) "seo" (VNum 7)).
  - nodup_keys.
  - simpl; auto.
  - reflexivity.
  - reflexivity.
  - reflexivity.
  - right. now exists 7%Z.
  - reflexivity.
Defined.

(** ** What the output does not share with the input *)

Module Fresh.
Import StoreFacts.

Lemma assoc_set_eq {A} (l : list (string * A)) (k : string) (x : A) :
  assoc k (set l k x) = Some x.
Proof.
  induction l as [|[k0 y] l IH]; simpl.
  - now rewrite String.eqb_refl.
  - destruct (String.eqb_spec k0 k) as [->|Hne]; simpl.
    + now rewrite String.eqb_refl.
    + destruct (String.eqb_spec k0 k); [contradiction | exact IH].
Qed.

(** [map] answers the array it allocates. *)
Lemma map_allocated f value st o st' :
  (forall x, Store.keeps 0 (f x)) ->
  Store.map f value st = (Ok o, st') ->
  o = Store.RLoc (List.length st) /\ List.length st < List.length st'.
Proof.
  intros Hf. unfold Store.map, Store.alloc. cbv iota beta zeta.
  match goal with
  | |- context [Store.mapLoop ?g ?v ?a ?i ?c ?s] =>
      pose proof (keeps_mapLoop 0 g v a i c Hf (Nat.le_0_l _) s (Nat.le_0_l _)) as Hk;
      destruct (Store.mapLoop g v a i c s) as [[u|e] st1]
  end; [|discriminate].
  intros [= <- <-]. split; [reflexivity|].
  destruct Hk as [L _]. simpl in L. rewrite length_app in L. simpl in L. lia.
Qed.

(** A call that returns has allocated its output. *)
Lemma call_allocated rtable fields depth data schema st o st' :
  Store.recursiveCleanData rtable fields depth data schema st = (Ok o, st') ->
  o = Store.RLoc (List.length st) /\ List.length st < List.length st'.
Proof.
  intros H. split.
  { apply (output_allocated rtable fields depth data schema st o).
    now rewrite H. }
  destruct depth as [|depth]; [discriminate H|]. simpl in H.
  assert (G : Store.bindM (Store.read (fun st => keys (Store.ownEntries st data)))
                (fun ks => Store.bindM (Store.assign data)
                   (fun acc => Store.bindM
                      (Store.reduce
                         (Store.callback rtable fields depth
                            (Store.recursiveCleanData rtable fields depth)
                            data schema acc) ks)
                      (fun _ => Store.ret (Store.RLoc acc)))) st
              = (Ok o, st')).
  { unfold Store.body in H. destruct data; try exact H; discriminate H. }
  clear H. rewrite Refinement.bindM_read, Refinement.bindM_run in G.
  unfold Store.assign, Store.alloc in G. rewrite Refinement.bindM_run in G.
  match type of G with
  | context [Store.reduce ?f ?ks ?s] =>
      assert (Hk : Store.frame 0 s (snd (Store.reduce f ks s)));
      [apply keeps_reduce; [|apply Nat.le_0_l]|];
      [intros k; apply keeps_callback; [|apply Nat.le_0_l];
       intros d s0; apply keeps_recursiveCleanData|];
      destruct (Store.reduce f ks s) as [[[]|e] st2]
  end; [|discriminate].
  unfold Store.ret in G. injection G as _ <-.
  destruct Hk as [L _]. simpl in L. rewrite length_app in L. simpl in L. lia.
Qed.

(** An assignment [acc[k] = x] of a freshly allocated [x]. *)
Lemma step_set_fresh (m : Store.M Store.ref) acc k st st' racc :
  Store.keeps (S acc) m ->
  (forall o st1, m st = (Ok o, st1) ->
                 o = Store.RLoc (List.length st) /\ List.length st < List.length st1) ->
  acc < List.length st ->
  nth_error st acc = Some (Store.CObj racc) ->
  Store.bindM m (fun x => Store.setProp acc k x) st = (Ok tt, st') ->
  nth_error st' acc =
  Some (Store.CObj (set racc k (Store.RLoc (List.length st)))) /\
  List.length st < List.length st'.
Proof.
  intros Hm Hfresh Hacc Hcell H. rewrite Refinement.bindM_run in H.
  specialize (Hm st Hacc).
  destruct (m st) as [[x|e] st1] eqn:Hrun; [|discriminate]. simpl in Hm.
  destruct (Hfresh x st1 eq_refl) as [-> Hlen].
  assert (Hcell1 : nth_error st1 acc = Some (Store.CObj racc)).
  { destruct Hm as [_ E]. rewrite E; [assumption | lia]. }
  unfold Store.setProp, Store.update in H. rewrite Hcell1 in H.
  injection H as <-. split.
  - apply Refinement.write_same. lia.
  - now rewrite write_length.
Qed.

Section Walk.
Variable rtable : Store.ref.
Variable fields : list string.
Variable depth : nat.
Variable rec : Store.ref -> Store.ref -> Store.M Store.ref.
Hypothesis Hrec : forall d s n, Store.keeps n (rec d s).
Hypothesis Hout :
  forall d s st o st',
    rec d s st = (Ok o, st') ->
    o = Store.RLoc (List.length st) /\ List.length st < List.length st'.

(** The step of the reducer on a field that is walked binds it to an
    object allocated by the step. *)
Lemma callback_step_walked rdata rschema acc k st st' racc :
  acc < List.length st ->
  nth_error st acc = Some (Store.CObj racc) ->
  Store.excluded fields rschema k st = false ->
  Store.truthy (Store.get rdata [k] Store.RUndef st) = true ->
  Store.strictEqStr "component" (Store.getType rschema k st) = true \/
  (Store.strictEqStr "dynamiczone" (Store.getType rschema k st) = true /\
   Store.isArray st (Store.get rdata [k] Store.RUndef st) = true) ->
  Store.callback rtable fields depth rec rdata rschema acc k st = (Ok tt, st') ->
  exists racc',
    nth_error st' acc = Some (Store.CObj racc') /\
    assoc k racc' = Some (Store.RLoc (List.length st)) /\
    List.length st < List.length st'.
Proof.
  intros Hacc Hcell Hex Htruthy Hwalk H.
  unfold Store.callback in H.
  repeat (rewrite Refinement.bindM_read in H; cbv beta in H).
  rewrite Hex, Htruthy in H. cbn [negb] in H.
  assert (Hset : forall m : Store.M Store.ref,
             Store.keeps (S acc) m ->
             (forall o st1, m st = (Ok o, st1) ->
                            o = Store.RLoc (List.length st) /\
                            List.length st < List.length st1) ->
             Store.bindM m (fun x => Store.setProp acc k x) st = (Ok tt, st') ->
             exists racc',
               nth_error st' acc = Some (Store.CObj racc') /\
               assoc k racc' = Some (Store.RLoc (List.length st)) /\
               List.length st < List.length st').
  { intros m Hm Hfresh Hrun.
    destruct (step_set_fresh m acc k st st' racc Hm Hfresh Hacc Hcell Hrun)
      as [Hcell' Hlen].
    eexists. split; [exact Hcell'|]. split; [apply assoc_set_eq | exact Hlen]. }
  assert (Hone :
            Store.bindM
              (Store.attempt
                 (Store.index depth rtable
                    (Store.getOtherInfos rschema [k; "component"] st)))
              (fun s =>
                 Store.bindM (rec (Store.get rdata [k] Store.RUndef st) s)
                   (fun cleaned => Store.setProp acc k cleaned)) st = (Ok tt, st') ->
            exists racc',
              nth_error st' acc = Some (Store.CObj racc') /\
              assoc k racc' = Some (Store.RLoc (List.length st)) /\
              List.length st < List.length st').
  { intros Hrun. rewrite Refinement.bindM_run in Hrun. unfold Store.attempt in Hrun.
    destruct (Store.index depth rtable _ st) as [s|e]; [|discriminate].
    eapply Hset; [| |exact Hrun]; [apply Hrec | intros o st1; apply Hout]. }
  destruct (Store.strictEqStr "dynamiczone" (Store.getType rschema k st)) eqn:Hdz;
    destruct (Store.isArray st (Store.get rdata [k] Store.RUndef st)) eqn:Harr;
    cbn [andb] in H.
  - eapply Hset; [| |exact H].
    + apply keeps_map. intros x.
      apply keeps_bind; [apply keeps_attempt|]. intros d.
      apply keeps_bind; [apply keeps_attempt|]. intros s. apply Hrec.
    + intros o st1. apply map_allocated. intros x.
      apply keeps_bind; [apply keeps_attempt|]. intros d.
      apply keeps_bind; [apply keeps_attempt|]. intros s. apply Hrec.
  - destruct Hwalk as [Hc | [_ Ha]]; [|discriminate]. rewrite Hc in H.
    rewrite andb_false_r in H. now apply Hone.
  - destruct Hwalk as [Hc | [Hd _]]; [|discriminate]. rewrite Hc in H.
    destruct (Store.truthy (Store.getOtherInfos rschema [k; "repeatable"] st));
      cbn [andb] in H; [|now apply Hone].
    eapply Hset; [| |exact H].
    + apply keeps_map. intros x.
      apply keeps_bind; [apply keeps_attempt|]. intros s. apply Hrec.
    + intros o st1. apply map_allocated. intros x.
      apply keeps_bind; [apply keeps_attempt|]. intros s. apply Hrec.
  - destruct Hwalk as [Hc | [Hd _]]; [|discriminate]. rewrite Hc in H.
    rewrite andb_false_r in H. now apply Hone.
Qed.

(** The steps on the other keys leave the binding of [k]. *)
Lemma reduce_other acc rdata rschema k :
  forall ks st st' racc,
    ~ In k ks ->
    acc < List.length st ->
    nth_error st acc = Some (Store.CObj racc) ->
    Store.reduce (Store.callback rtable fields depth rec rdata rschema acc) ks st
    = (Ok tt, st') ->
    exists racc',
      nth_error st' acc = Some (Store.CObj racc') /\ assoc k racc' = assoc k racc /\
      List.length st <= List.length st'.
Proof.
  induction ks as [|cur ks IH]; intros st st' racc Hnotin Hacc Hcell H.
  - simpl in H. unfold Store.ret in H. injection H as <-. eauto.
  - simpl in H. rewrite Refinement.bindM_run in H.
    destruct (Store.callback rtable fields depth rec rdata rschema acc cur st)
      as [[[]|e] st1] eqn:Hstep; [|discriminate].
    destruct (Sharing.callback_step rtable fields depth rec Hrec rdata rschema
                acc cur st st1 racc Hacc Hcell Hstep)
      as [Hf1 [racc1 [Hcell1 [Hother _]]]].
    assert (Hacc1 : acc < List.length st1) by (destruct Hf1; lia).
    destruct (IH st1 st' racc1) as [racc' [Hcell' [E Hlen]]]; try assumption.
    { intros Hin. apply Hnotin. now right. }
    exists racc'. split; [exact Hcell'|]. split; [|destruct Hf1; lia].
    rewrite E. apply Hother. intros ->. apply Hnotin. now left.
Qed.

Lemma reduce_fresh lo acc rdata data rschema schema k v :
  lo <= acc ->
  NoDup (keys (ownEntries data)) ->
  In (k, v) (ownEntries data) ->
  excluded fields schema k = false ->
  truthy v = true ->
  getType schema k = VStr "component" \/
  (getType schema k = VStr "dynamiczone" /\ isArray v = true) ->
  forall ks st st' racc,
    In k ks ->
    acc < List.length st ->
    Store.rep (fun l => l < lo) st rdata data ->
    Store.rep (fun l => l < lo) st rschema schema ->
    nth_error st acc = Some (Store.CObj racc) ->
    Store.reduce (Store.callback rtable fields depth rec rdata rschema acc) ks st
    = (Ok tt, st') ->
    exists racc' l,
      nth_error st' acc = Some (Store.CObj racc') /\
      assoc k racc' = Some (Store.RLoc l) /\ acc < l /\ l < List.length st'.
Proof.
  intros Hlo Hnd Hin Hex Hv Hwalk.
  induction ks as [|cur ks IH]; intros st st' racc Hk Hacc Hdata Hschema Hcell H;
    [contradiction|].
  simpl in H. rewrite Refinement.bindM_run in H.
  destruct (Store.callback rtable fields depth rec rdata rschema acc cur st)
    as [[[]|e] st1] eqn:Hstep; [|discriminate].
  destruct (Sharing.callback_step rtable fields depth rec Hrec rdata rschema
              acc cur st st1 racc Hacc Hcell Hstep)
    as [Hf1 [racc1 [Hcell1 _]]].
  assert (Hacc1 : acc < List.length st1) by (destruct Hf1; lia).
  destruct (in_dec string_dec k ks) as [Hlater | Hlast].
  - apply (IH st1 st' racc1); try assumption.
    + exact (Sharing.rep_frame lo acc st st1 _ _ Hlo Hf1 Hdata).
    + exact (Sharing.rep_frame lo acc st st1 _ _ Hlo Hf1 Hschema).
  - destruct Hk as [-> | Hk]; [|contradiction].
    assert (Hval : Store.rep (fun l => l < lo) st
                     (Store.get rdata [k] Store.RUndef st) v).
    { rewrite <- (get_own_entry data k v Hnd Hin).
      apply Refinement.rep_get; [assumption | constructor]. }
    pose proof (Refinement.rep_getType _ _ _ _ k Hschema) as Hty.
    destruct (callback_step_walked rdata rschema acc k st st1 racc Hacc Hcell)
      as [racc1' [Hcell1' [Hbound Hgrown]]]; try assumption.
    + now rewrite (Refinement.rep_excluded _ _ fields _ _ k Hschema).
    + now rewrite (Refinement.rep_truthy _ _ _ _ Hval).
    + rewrite (Refinement.rep_isArray _ _ _ _ Hval),
        (Refinement.rep_strictEqStr _ _ "component" _ _ Hty),
        (Refinement.rep_strictEqStr _ _ "dynamiczone" _ _ Hty).
      destruct Hwalk as [Hc | [Hd Ha]]; [left | right; split];
        try assumption; now apply strictEqStr_true.
    + rewrite Hcell1 in Hcell1'. injection Hcell1' as <-.
      destruct (reduce_other acc rdata rschema k ks st1 st' racc1 Hlast Hacc1 Hcell1 H)
        as [racc' [Hcell' [E Hlen]]].
      exists racc', (List.length st). split; [exact Hcell'|].
      split; [now rewrite E|]. split; [exact Hacc | lia].
Qed.

End Walk.

End Fresh.

(** The walked fields are copies.  In the output of a call that returns,
    a field that the walk enters (a truthy component, or a dynamic zone
    that holds an array, under a name that is not excluded) is bound to
    an object allocated during the call, at an address that the store did
    not hold before: writing to it cannot reach the input. *)
Theorem walked_fields_fresh fields depth n st rdata rschema rtable data schema
  o st' k v :
  Store.decode n st rdata = Some data ->
  Store.decode n st rschema = Some schema ->
  NoDup (keys (ownEntries data)) ->
  In (k, v) (ownEntries data) ->
  excluded fields schema k = false ->
  truthy v = true ->
  getType schema k = VStr "component" \/
  (getType schema k = VStr "dynamiczone" /\ isArray v = true) ->
  Store.recursiveCleanData rtable fields depth rdata rschema st = (Ok o, st') ->
  exists l,
    assoc k (Store.ownEntries st' o) = Some (Store.RLoc l) /\
    List.length st < l /\ l < List.length st'.
Proof.
  intros Hdata Hschema Hnd Hin Hex Hv Hwalk Hrun.
  apply Refinement.rep_of_decode in Hdata, Hschema.
  destruct depth as [|depth]; [discriminate Hrun|]. simpl in Hrun.
  set (acc := List.length st) in *.
  set (st1 := st ++ [Store.CObj (Store.ownEntries st rdata)]).
  assert (G : Store.bindM (Store.read (fun st => keys (Store.ownEntries st rdata)))
                (fun ks => Store.bindM (Store.assign rdata)
                   (fun acc => Store.bindM
                      (Store.reduce
                         (Store.callback rtable fields depth
                            (Store.recursiveCleanData rtable fields depth)
                            rdata rschema acc) ks)
                      (fun _ => Store.ret (Store.RLoc acc)))) st
              = (Ok o, st')).
  { unfold Store.body in Hrun. destruct rdata; try exact Hrun; discriminate Hrun. }
  clear Hrun. rewrite Refinement.bindM_read, Refinement.bindM_run in G.
  unfold Store.assign, Store.alloc in G. fold acc in G. fold st1 in G.
  rewrite Refinement.bindM_run in G.
  destruct (Store.reduce _ _ st1) as [[[]|e] st2] eqn:Hred; [|discriminate].
  unfold Store.ret in G. injection G as <- <-.
  assert (Hf1 : Store.frame acc st st1).
  { apply (StoreFacts.frame_alloc acc _ st). unfold acc. lia. }
  assert (Hacc1 : acc < List.length st1).
  { unfold st1, acc. rewrite length_app. simpl. lia. }
  assert (Hcell1 : nth_error st1 acc = Some (Store.CObj (Store.ownEntries st rdata))).
  { unfold st1, acc. rewrite nth_error_app2, Nat.sub_diag by lia. reflexivity. }
  assert (Hkeys : In k (keys (Store.ownEntries st rdata))).
  { rewrite (Refinement.rep_entries_keys _ _ _ _
               (Refinement.rep_ownEntries _ _ _ _ Hdata)).
    change k with (fst (k, v)). now apply in_map. }
  destruct (Fresh.reduce_fresh rtable fields depth
              (Store.recursiveCleanData rtable fields depth)
              (fun d s m => StoreFacts.keeps_recursiveCleanData m rtable fields depth d s)
              (Fresh.call_allocated rtable fields depth)
              acc acc rdata data rschema schema k v (le_n _) Hnd Hin Hex Hv Hwalk
              _ st1 st2 _ Hkeys Hacc1
              (Sharing.rep_frame acc acc st st1 _ _ (le_n _) Hf1 Hdata)
              (Sharing.rep_frame acc acc st st1 _ _ (le_n _) Hf1 Hschema)
              Hcell1 Hred)
    as [racc' [l [Hcell' [Hbound [Hl Hl']]]]].
  exists l. simpl Store.ownEntries. rewrite Hcell'.
  split; [exact Hbound|]. split; [exact Hl | exact Hl'].
Qed.

(** The [seo] of the sanitized sample article is one of the eight objects
    that the call allocates. *)
Lemma walked_fields_fresh_witness :
  exists l,
    assoc "seo" (Store.ownEntries SampleStore.after (Store.RLoc 30))
    = Some (Store.RLoc l) /\
    List.length SampleStore.held < l /\ l < List.length SampleStore.after.
Proof.
  apply (walked_fields_fresh defaultFields 8 8 SampleStore.held
           (Store.RLoc 8) (Store.RLoc 17) (Store.RLoc 29)
           Sample.article Sample.articleSchema (Store.RLoc 30) SampleStore.after
           "seo" (VObj [("id", VNum 4); ("slug", VStr "hi")])).
  - vm_compute. reflexivity.
  - vm_compute. reflexivity.
  - nodup_keys.
  - simpl; auto 10.
  - reflexivity.
  - reflexivity.
  - left. reflexivity.
  - vm_compute. reflexivity.
Defined.
